(** * ssm-params-injector: a shallow embedding of [src/lib/index.ts]

    The library scans a configuration object for keys of the shape
    [<base>:ssm[:name|:path]], fetches the referenced values from the AWS
    SSM parameter store and rewrites the object.

    Modelling conventions.
    - JavaScript values live in a store of objects addressed by location
      ([VRef]); a location is an index into the store, and allocation
      appends.  The model covers own enumerable data properties of plain
      objects and arrays, the index characters of primitive strings, and
      the primitives [undefined], [null], booleans, integers, strings.
      Inherited members ([constructor], [toString], ...), the [length]
      property and the [__proto__] accessor are outside the model: a
      statement about what a property access reads or stores names the
      keys it holds for (see [inherited_name], [plain_target],
      [ordinary_parameters]).
    - The module is compiled as an ES module, hence strict mode: writing
      a property of a primitive throws a [TypeError].
    - Every [async] function is a computation that either returns or throws
      (a rejected promise); [OutOfFuel] stands for a computation that has
      not finished within the given recursion budget.
    - The SSM client is a pair of functions from requests to settled
      promises; each request handed to the client is recorded in [calls].
      Requests that are in flight together (the pages of different paths)
      are recorded entry by entry; the order in which their answers arrive
      is not part of the model, and [Promise.all] reports the rejection of
      lowest index. *)

From Stdlib Require Import String Ascii List ZArith NArith Lia Bool.
From stdpp Require Import base option list gmap strings.
Import ListNotations.
Local Open Scope string_scope.
Local Open Scope Z_scope.
Local Open Scope list_scope.

(** ** Strings as the source uses them *)

Module JsString.

(** [s.split(sep)] for a one-character separator. *)
Fixpoint split (sep : ascii) (s : string) : list string :=
  match s with
  | EmptyString => [EmptyString]
  | String c r =>
      if Ascii.eqb c sep then EmptyString :: split sep r
      else match split sep r with
           | [] => [String c EmptyString]
           | h :: t => String c h :: t
           end
  end.

Fixpoint length (s : string) : nat :=
  match s with
  | EmptyString => O
  | String _ r => S (length r)
  end.

(** [s.lastIndexOf(c)], [-1] when [c] does not occur. *)
Fixpoint lastIndexOf_from (c : ascii) (s : string) (pos : Z) (found : Z) : Z :=
  match s with
  | EmptyString => found
  | String d r =>
      lastIndexOf_from c r (pos + 1) (if Ascii.eqb d c then pos else found)
  end.

Definition lastIndexOf (c : ascii) (s : string) : Z :=
  lastIndexOf_from c s 0 (-1).

Fixpoint drop (n : nat) (s : string) : string :=
  match n, s with
  | O, _ => s
  | S n', String _ r => drop n' r
  | S _, EmptyString => EmptyString
  end.

Fixpoint take (n : nat) (s : string) : string :=
  match n, s with
  | S n', String c r => String c (take n' r)
  | _, _ => EmptyString
  end.

(** An index argument clamped to [0 .. length s]. *)
Definition clamp (s : string) (i : Z) : nat :=
  Z.to_nat (Z.min (Z.max i 0) (Z.of_nat (length s))).

(** [s.substr(from)] with a non-negative or negative-clamped start. *)
Definition substr (s : string) (from : Z) : string :=
  drop (clamp s from) s.

(** [s.substring(a, b)]: both ends clamped, swapped when [a > b]. *)
Definition substring (s : string) (a b : Z) : string :=
  let a' := clamp s a in
  let b' := clamp s b in
  let lo := Nat.min a' b' in
  let hi := Nat.max a' b' in
  take (hi - lo) (drop lo s).

Fixpoint endsWith (s : string) (c : ascii) : bool :=
  match s with
  | EmptyString => false
  | String d EmptyString => Ascii.eqb d c
  | String _ r => endsWith r c
  end.

Definition is_digit (c : ascii) : bool :=
  let n := nat_of_ascii c in
  (Nat.leb 48 n && Nat.leb n 57)%bool.

Fixpoint digits_value (s : string) (acc : N) : option N :=
  match s with
  | EmptyString => Some acc
  | String c r =>
      if is_digit c
      then digits_value r (acc * 10 + N.of_nat (nat_of_ascii c - 48))%N
      else None
  end.

(** An array index: the canonical decimal form of an integer in
    [0 .. 2^32 - 2].  Such keys are enumerated first, ascending. *)
Definition array_index (s : string) : option N :=
  match s with
  | EmptyString => None
  | String c r =>
      if (Ascii.eqb c "0" && negb (String.eqb r EmptyString))%bool then None
      else match digits_value s 0%N with
           | Some n => if (n <? 4294967295)%N then Some n else None
           | None => None
           end
  end.

(** Decimal form of a natural number, as [String(i)] gives it. *)
Fixpoint of_nat_fuel (fuel n : nat) (acc : string) : string :=
  match fuel with
  | O => acc
  | S f =>
      let d := ascii_of_nat (48 + n mod 10) in
      let acc' := String d acc in
      if Nat.ltb n 10 then acc' else of_nat_fuel f (n / 10) acc'
  end.

Definition of_nat (n : nat) : string := of_nat_fuel (S n) n EmptyString.

End JsString.

(** ** Values and the object store *)

Abbreviation loc := nat.

Inductive val :=
| VUndef
| VNull
| VBool (b : bool)
| VNum (n : Z)
| VStr (s : string)
| VRef (l : loc).
Arguments VRef l%_nat.

(** An object: its own enumerable properties in [Object.keys] order, and,
    for an array, its length. *)
Record object := mkObject {
  alen : option nat;
  props : list (string * val)
}.

Definition empty_object : object := mkObject None [].

Inductive JsError :=
| TypeError
| SyntaxError
| Error (message : string)
| InvalidParametersError (invalidParameters : list string)
| RemoteError (reason : string).

(** [typeof v] restricted to the answers the source asks for. *)
Definition isObject (v : val) : bool :=
  match v with
  | VNull | VRef _ => true
  | _ => false
  end.

Definition isString (v : val) : bool :=
  match v with
  | VStr _ => true
  | _ => false
  end.

Definition truthy (v : val) : bool :=
  match v with
  | VUndef | VNull => false
  | VBool b => b
  | VNum n => negb (n =? 0)
  | VStr s => negb (String.eqb s EmptyString)
  | VRef _ => true
  end.

Fixpoint assoc_get (k : string) (ps : list (string * val)) : option val :=
  match ps with
  | [] => None
  | (k', v) :: r => if String.eqb k k' then Some v else assoc_get k r
  end.

Fixpoint assoc_replace (k : string) (v : val) (ps : list (string * val))
  : list (string * val) :=
  match ps with
  | [] => []
  | (k', v') :: r =>
      if String.eqb k k' then (k', v) :: r else (k', v') :: assoc_replace k v r
  end.

Fixpoint assoc_remove (k : string) (ps : list (string * val))
  : list (string * val) :=
  match ps with
  | [] => []
  | (k', v') :: r =>
      if String.eqb k k' then r else (k', v') :: assoc_remove k r
  end.

(** A new array-index key goes before the first index key that is larger
    and before every other key. *)
Fixpoint insert_index (i : N) (k : string) (v : val) (ps : list (string * val))
  : list (string * val) :=
  match ps with
  | [] => [(k, v)]
  | (k', v') :: r =>
      match JsString.array_index k' with
      | Some j => if (j <? i)%N then (k', v') :: insert_index i k v r
                  else (k, v) :: ps
      | None => (k, v) :: ps
      end
  end.

Definition props_set (k : string) (v : val) (ps : list (string * val))
  : list (string * val) :=
  match assoc_get k ps with
  | Some _ => assoc_replace k v ps
  | None =>
      match JsString.array_index k with
      | Some i => insert_index i k v ps
      | None => ps ++ [(k, v)]
      end
  end.

Definition obj_get (k : string) (o : object) : val :=
  match assoc_get k (props o) with
  | Some v => v
  | None => VUndef
  end.

Definition obj_set (k : string) (v : val) (o : object) : object :=
  mkObject
    (match alen o, JsString.array_index k with
     | Some n, Some i => Some (Nat.max n (S (N.to_nat i)))
     | a, _ => a
     end)
    (props_set k v (props o)).

Definition obj_delete (k : string) (o : object) : object :=
  mkObject (alen o) (assoc_remove k (props o)).

Definition obj_keys (o : object) : list string := map fst (props o).

(** ** The SSM client interface *)

Record SsmParameter := mkParameter {
  p_Name : option string;
  p_Type : option string;
  p_Value : option string;
  p_Version : option Z;
  p_Selector : option string
}.

Abbreviation ParameterList := (list SsmParameter).

Record GetParametersRequest := mkGetParametersRequest {
  gp_Names : list string;
  gp_WithDecryption : option bool
}.

Record GetParametersResult := mkGetParametersResult {
  gp_Parameters : option ParameterList;
  gp_InvalidParameters : option (list string)
}.

Record GetParametersByPathRequest := mkGetParametersByPathRequest {
  gbp_Path : string;
  gbp_Recursive : val;
  gbp_NextToken : option string;
  gbp_WithDecryption : option bool
}.

Record GetParametersByPathResult := mkGetParametersByPathResult {
  gbp_Parameters : option ParameterList;
  gbp_ResultNextToken : option string
}.

(** A settled promise: rejected with a reason, or fulfilled. *)
Definition settled (A : Type) : Type := (JsError + A)%type.

Record SSM := mkSSM {
  ssm_getParameters : GetParametersRequest -> settled GetParametersResult;
  ssm_getParametersByPath :
    GetParametersByPathRequest -> settled GetParametersByPathResult
}.

Inductive call :=
| CallGetParameters (r : GetParametersRequest)
| CallGetParametersByPath (r : GetParametersByPathRequest).

(** ** Entries *)

Inductive Value :=
| ValString (s : string)
| ValStringList (l : list string).

Record ByNameEntryData := mkByName {
  name : string
}.

Record ByPathEntryData := mkByPath {
  path : string;
  recursive : val
}.

(** The union [ByNameEntryData | ByPathEntryData], told apart in the
    source by the presence of the field [name] or [path]. *)
Inductive EntryData :=
| ByName (d : ByNameEntryData)
| ByPath (d : ByPathEntryData).

Record Entry := mkEntry {
  parent : val;
  key : string;
  initKey : string;
  data : EntryData
}.

Definition instanceOfByNameData (d : EntryData) : bool :=
  match d with
  | ByName _ => true
  | ByPath _ => false
  end.

Definition instanceOfByPathData (d : EntryData) : bool :=
  match d with
  | ByName _ => false
  | ByPath _ => true
  end.

(** ** Computations *)

Inductive res (A : Type) :=
| Ret (a : A)
| Throw (e : JsError)
| OutOfFuel.
Arguments Ret {A} a.
Arguments Throw {A} e.
Arguments OutOfFuel {A}.

Record world := mkWorld {
  heap : list object;
  calls : list call
}.

Definition M (A : Type) : Type := world -> res A * world.

Definition ret {A} (a : A) : M A := fun w => (Ret a, w).

Definition throw {A} (e : JsError) : M A := fun w => (Throw e, w).

Definition bind {A B} (c : M A) (k : A -> M B) : M B :=
  fun w =>
    match c w with
    | (Ret a, w') => k a w'
    | (Throw e, w') => (Throw e, w')
    | (OutOfFuel, w') => (OutOfFuel, w')
    end.

Notation "'let*' x ':=' c 'in' k" := (bind c (fun x => k))
  (at level 10, x name, c at level 100, k at level 200).

Definition res_bind {A B} (r : res A) (k : A -> res B) : res B :=
  match r with
  | Ret a => k a
  | Throw e => Throw e
  | OutOfFuel => OutOfFuel
  end.

(** A computation that only reads the store. *)
Definition lift_read {A} (f : list object -> res A) : M A :=
  fun w => (f (heap w), w).

Definition log_call (c : call) : M unit :=
  fun w => (Ret tt, mkWorld (heap w) (calls w ++ [c])).

Definition await {A} (p : settled A) : M A :=
  match p with
  | inl e => throw e
  | inr a => ret a
  end.

(** [Promise.all] over promises that have all settled: the fulfilled
    values in order, or the rejection of lowest index. *)
Fixpoint promise_all {A} (ps : list (settled A)) : settled (list A) :=
  match ps with
  | [] => inr []
  | inl e :: _ => inl e
  | inr a :: r =>
      match promise_all r with
      | inl e => inl e
      | inr l => inr (a :: l)
      end
  end.

(** *** Store access *)

Definition read_obj (h : list object) (l : loc) : object :=
  match h !! l with
  | Some o => o
  | None => empty_object
  end.

Definition alloc (o : object) : M val :=
  fun w => (Ret (VRef (length (heap w))), mkWorld (heap w ++ [o]) (calls w)).

Definition char_at (s : string) (k : string) : val :=
  match JsString.array_index k with
  | Some i =>
      match String.get (N.to_nat i) s with
      | Some c => VStr (String c EmptyString)
      | None => VUndef
      end
  | None => VUndef
  end.

(** [v[k]], as far as own properties go *)
Definition get_prop (h : list object) (v : val) (k : string) : res val :=
  match v with
  | VUndef | VNull => Throw TypeError
  | VBool _ | VNum _ => Ret VUndef
  | VStr s => Ret (char_at s k)
  | VRef l => Ret (obj_get k (read_obj h l))
  end.

(** [v[k] = x] in strict mode, as far as own properties go *)
Definition set_prop (v : val) (k : string) (x : val) : M unit :=
  match v with
  | VRef l =>
      fun w =>
        (Ret tt, mkWorld (<[l := obj_set k x (read_obj (heap w) l)]> (heap w))
                         (calls w))
  | _ => throw TypeError
  end.

(** [delete v[k]] in strict mode *)
Definition delete_prop (v : val) (k : string) : M unit :=
  match v with
  | VUndef | VNull => throw TypeError
  | VBool _ | VNum _ => ret tt
  | VStr s =>
      match char_at s k with
      | VUndef => ret tt
      | _ => throw TypeError
      end
  | VRef l =>
      fun w =>
        (Ret tt, mkWorld (<[l := obj_delete k (read_obj (heap w) l)]> (heap w))
                         (calls w))
  end.

Fixpoint index_keys (n : nat) : list string :=
  match n with
  | O => []
  | S m => index_keys m ++ [JsString.of_nat m]
  end.

(** [Object.keys(v)] *)
Definition object_keys (h : list object) (v : val) : res (list string) :=
  match v with
  | VUndef | VNull => Throw TypeError
  | VBool _ | VNum _ => Ret []
  | VStr s => Ret (index_keys (JsString.length s))
  | VRef l => Ret (obj_keys (read_obj h l))
  end.

(** ** Batched name fetch *)

Definition GET_PARAMETERS_LIMIT : nat := 10.

(** [xs.slice(i, j)] for [0 <= i <= j]. *)
Definition slice {A} (xs : list A) (i j : nat) : list A :=
  firstn (j - i) (skipn i xs).

(** The requests of the loop
    [for (let i = 0; i < names.length; i += GET_PARAMETERS_LIMIT)]. *)
Fixpoint batch_requests (names : list string) (i : nat) (fuel : nat)
  : list GetParametersRequest :=
  match fuel with
  | O => []
  | S f =>
      if Nat.ltb i (List.length names)
      then mkGetParametersRequest
             (slice names i (i + GET_PARAMETERS_LIMIT)) (Some true)
           :: batch_requests names (i + GET_PARAMETERS_LIMIT) f
      else []
  end.

(** Hand every request to the client, in order, and keep the promises. *)
Fixpoint issue_all (ssm : SSM) (reqs : list GetParametersRequest)
  : M (list (settled GetParametersResult)) :=
  match reqs with
  | [] => ret []
  | r :: rest =>
      let* _ := log_call (CallGetParameters r) in
      let p := ssm_getParameters ssm r in
      let* ps := issue_all ssm rest in
      ret (p :: ps)
  end.

(** The two accumulators of the loop over the fulfilled results. *)
Fixpoint collect (results : list GetParametersResult)
  (parameters : ParameterList) (invalidParameters : list string)
  : ParameterList * list string :=
  match results with
  | [] => (parameters, invalidParameters)
  | r :: rest =>
      let invalidParameters' :=
        match gp_InvalidParameters r with
        | Some l => invalidParameters ++ l
        | None => invalidParameters
        end in
      let parameters' :=
        match gp_Parameters r with
        | Some l => parameters ++ l
        | None => parameters
        end in
      collect rest parameters' invalidParameters'
  end.

Definition getParameters (ssm : SSM) (dataList : list ByNameEntryData)
  : M ParameterList :=
  match dataList with
  | [] => ret []
  | _ =>
      let names := map name dataList in
      let* results :=
        issue_all ssm (batch_requests names 0 (List.length names)) in
      let* fulfilled := await (promise_all results) in
      let '(parameters, invalidParameters) := collect fulfilled [] [] in
      if Nat.ltb 0 (List.length invalidParameters)
      then throw (InvalidParametersError invalidParameters)
      else ret parameters
  end.

(** ** Paginated path fetch *)

Definition token_present (t : option string) : bool :=
  match t with
  | Some s => negb (String.eqb s EmptyString)
  | None => false
  end.

Fixpoint getParametersByPath (fuel : nat) (ssm : SSM)
  (data : ByPathEntryData) (nextToken : option string)
  : M ParameterList :=
  match fuel with
  | O => fun w => (OutOfFuel, w)
  | S f =>
      let req := mkGetParametersByPathRequest (path data) (recursive data)
                   nextToken (Some true) in
      let* _ := log_call (CallGetParametersByPath req) in
      let* r := await (ssm_getParametersByPath ssm req) in
      let parameters :=
        match gbp_Parameters r with
        | Some l => l
        | None => []
        end in
      if token_present (gbp_ResultNextToken r)
      then
        let* nextResult :=
          getParametersByPath f ssm data (gbp_ResultNextToken r) in
        ret (parameters ++ nextResult)
      else ret parameters
  end.

(** Every element's fetch is started and runs on its own; the outcomes
    are kept in order. *)
Fixpoint run_each {A B} (f : A -> M B) (l : list A)
  : world -> list (res B) * world :=
  fun w =>
    match l with
    | [] => ([], w)
    | a :: rest =>
        let '(r, w1) := f a w in
        let '(rs, w2) := run_each f rest w1 in
        (r :: rs, w2)
    end.

Fixpoint first_throw {B} (rs : list (res B)) : option JsError :=
  match rs with
  | [] => None
  | Throw e :: _ => Some e
  | _ :: rest => first_throw rest
  end.

Fixpoint all_ret {B} (rs : list (res B)) : option (list B) :=
  match rs with
  | [] => Some []
  | Ret b :: rest =>
      match all_ret rest with
      | Some bs => Some (b :: bs)
      | None => None
      end
  | _ :: _ => None
  end.

(** [Promise.all] over computations: a rejection wins; without one the
    result waits for every computation. *)
Definition join_all {B} (rs : list (res B)) : res (list B) :=
  match first_throw rs with
  | Some e => Throw e
  | None =>
      match all_ret rs with
      | Some bs => Ret bs
      | None => OutOfFuel
      end
  end.

Abbreviation ParamsByPath := (gmap string ParameterList).

Definition getParametersByPaths (fuel : nat) (ssm : SSM)
  (dataList : list ByPathEntryData) : M ParamsByPath :=
  match dataList with
  | [] => ret ∅
  | _ =>
      fun w =>
        let '(rs, w') :=
          run_each
            (fun data : ByPathEntryData =>
               let* parameters := getParametersByPath fuel ssm data None in
               ret (path data, parameters))
            dataList w in
        (res_bind (join_all rs)
           (fun results =>
              Ret (fold_left
                     (fun (paramsByPath : ParamsByPath)
                          (r : string * ParameterList) =>
                        <[fst r := snd r]> paramsByPath)
                     results ∅)),
         w')
  end.

(** ** Item parsing and entry discovery *)

(** What a parser asks of its [ParserAction]. *)
Inductive ParserCall :=
| addByNameEntry (key : string) (name : string)
| addByPathEntry (key : string) (path : string) (recursive : val).

(** A parser sees the key, the value and the store, and answers with
    the action calls it makes, in order.  Parsers only read. *)
Definition ItemParser : Type :=
  list object -> string -> val -> res (list ParserCall).

Definition entry_of_call (parent : val) (initKey : string) (c : ParserCall)
  : Entry :=
  match c with
  | addByNameEntry key name =>
      mkEntry parent key initKey (ByName (mkByName name))
  | addByPathEntry key path recursive =>
      mkEntry parent key initKey (ByPath (mkByPath path recursive))
  end.

Definition parseItem (h : list object) (parent : val) (initKey : string)
  (parser : ItemParser) : res (list Entry) :=
  res_bind (get_prop h parent initKey) (fun value =>
  res_bind (parser h initKey value) (fun cs =>
  Ret (map (entry_of_call parent initKey) cs))).

(** The loop [for (const key of Object.keys(parent))], with the recursive
    call passed in. *)
Fixpoint findEntries_loop (self : val -> res (list Entry))
  (h : list object) (parent : val) (itemParser : ItemParser)
  (keys : list string) (entries : list Entry) : res (list Entry) :=
  match keys with
  | [] => Ret entries
  | key :: rest =>
      res_bind (parseItem h parent key itemParser) (fun _entries =>
      if Nat.ltb 0 (List.length _entries)
      then findEntries_loop self h parent itemParser rest (entries ++ _entries)
      else
        res_bind (get_prop h parent key) (fun v =>
        if isObject v
        then res_bind (self v) (fun sub =>
             findEntries_loop self h parent itemParser rest (entries ++ sub))
        else findEntries_loop self h parent itemParser rest entries))
  end.

Fixpoint findEntries (fuel : nat) (h : list object) (parent : val)
  (itemParser : ItemParser) : res (list Entry) :=
  match fuel with
  | O => OutOfFuel
  | S f =>
      res_bind (object_keys h parent) (fun keys =>
      findEntries_loop (fun v => findEntries f h v itemParser)
        h parent itemParser keys [])
  end.

(** [[undefined, ...].includes(by)] for the two lists of the source. *)
Definition by_in (allowed : list string) (by_ : option string) : bool :=
  match by_ with
  | None => true
  | Some s => existsb (String.eqb s) allowed
  end.

(** [isObject(value) && isString(value.field) ? value.field
     : isString(value) ? value : undefined] *)
Definition string_field (h : list object) (value : val) (field : string)
  : res (option string) :=
  if isObject value
  then res_bind (get_prop h value field) (fun f =>
       match f with
       | VStr s => Ret (Some s)
       | _ => Ret None
       end)
  else match value with
       | VStr s => Ret (Some s)
       | _ => Ret None
       end.

Definition nonempty (o : option string) : option string :=
  match o with
  | Some s => if String.eqb s EmptyString then None else Some s
  | None => None
  end.

Definition defaultItemParser : ItemParser :=
  fun h key value =>
    let segments := JsString.split ":" key in
    let _key := nth 0 segments EmptyString in
    let ssm := nth_error segments 1 in
    let by_ := nth_error segments 2 in
    if negb (match ssm with Some s => String.eqb s "ssm" | None => false end)
       || negb (by_in ["name"; "path"] by_)
    then Ret []
    else
      res_bind (string_field h value "name") (fun name =>
      match (if by_in ["name"] by_ then nonempty name else None) with
      | Some name => Ret [addByNameEntry _key name]
      | None =>
          res_bind (string_field h value "path") (fun path =>
          match (if by_in ["path"] by_ then nonempty path else None) with
          | Some path =>
              res_bind (if isObject value
                        then get_prop h value "recursive"
                        else Ret VUndef) (fun recursive =>
              Ret [addByPathEntry _key path recursive])
          | None => Ret []
          end)
      end).

(** ** Reconstruction *)

Definition getParameterValue (p : SsmParameter) : Value :=
  let v := match nonempty (p_Value p) with
           | Some s => s
           | None => EmptyString
           end in
  match p_Type p with
  | Some t => if String.eqb t "StringList"
              then ValStringList (JsString.split "," v)
              else ValString v
  | None => ValString v
  end.

(** The template that joins [Name] (the text [undefined] when absent)
    and [Selector] (nothing when absent or empty). *)
Definition name_with_selector (p : SsmParameter) : string :=
  String.append
    (match p_Name p with
     | Some n => n
     | None => "undefined"
     end)
    (match nonempty (p_Selector p) with
     | Some s => s
     | None => EmptyString
     end).

Definition findValue (params : ParameterList) (name : string) : res Value :=
  match find (fun p => String.eqb name (name_with_selector p)) params with
  | Some param => Ret (getParameterValue param)
  | None =>
      Throw (Error (String.append "Unexpected error: parameter "
                      (String.append name " not found")))
  end.

Fixpoint indexed (i : nat) (l : list string) : list (string * val) :=
  match l with
  | [] => []
  | s :: r => (JsString.of_nat i, VStr s) :: indexed (S i) r
  end.

(** A [Value] as a JavaScript value; a string list is a fresh array. *)
Definition store_value (v : Value) : M val :=
  match v with
  | ValString s => ret (VStr s)
  | ValStringList l => alloc (mkObject (Some (List.length l)) (indexed 0 l))
  end.

Fixpoint ensureNestedObject (o : val) (nestedKeys : list string) : M val :=
  match nestedKeys with
  | [] => ret o
  | key :: rest =>
      let* cur := lift_read (fun h => get_prop h o key) in
      let* _ := (if truthy cur then ret tt
                 else let* fresh := alloc empty_object in
                      set_prop o key fresh) in
      let* next := lift_read (fun h => get_prop h o key) in
      match rest with
      | [] => ret next
      | _ => ensureNestedObject next rest
      end
  end.

Definition pathLenth (path : string) : Z :=
  Z.of_nat (JsString.length path)
  + (if JsString.endsWith path "/" then 0 else 1).

(** One step of the [reduce] in [findValuesByPath]. *)
Definition place_parameter (path : string) (map : val) (p : SsmParameter)
  : M val :=
  match nonempty (p_Name p) with
  | Some Name =>
      let i := JsString.lastIndexOf "/" Name in
      let name := JsString.substr Name (i + 1) in
      let nestedKeys :=
        JsString.split "/" (JsString.substring Name (pathLenth path) i) in
      let* item := (if Z.ltb (pathLenth path) i
                    then ensureNestedObject map nestedKeys
                    else ret map) in
      let* v := store_value (getParameterValue p) in
      let* _ := set_prop item name v in
      ret map
  | None => ret map
  end.

Fixpoint reduce_parameters (path : string) (ps : ParameterList) (map : val)
  : M val :=
  match ps with
  | [] => ret map
  | p :: rest =>
      let* map' := place_parameter path map p in
      reduce_parameters path rest map'
  end.

Definition findValuesByPath (paramsByPath : ParamsByPath) (path : string)
  : M val :=
  match paramsByPath !! path with
  | None => throw TypeError
  | Some ps =>
      let* map := alloc empty_object in
      reduce_parameters path ps map
  end.

Definition expandEntry (params : ParameterList) (paramsByPath : ParamsByPath)
  (e : Entry) : M unit :=
  let* _ := delete_prop (parent e) (initKey e) in
  let* v := match data e with
            | ByName d =>
                let* x := lift_read (fun _ => findValue params (name d)) in
                store_value x
            | ByPath d => findValuesByPath paramsByPath (path d)
            end in
  set_prop (parent e) (key e) v.

Fixpoint expandEntries (entries : list Entry) (params : ParameterList)
  (paramsByPath : ParamsByPath) : M unit :=
  match entries with
  | [] => ret tt
  | e :: rest =>
      let* _ := expandEntry params paramsByPath e in
      expandEntries rest params paramsByPath
  end.

(** ** The plain-data copy [JSON.parse(JSON.stringify(obj))] *)

#[local] Unset Elimination Schemes.
Inductive json :=
| JNull
| JBool (b : bool)
| JNum (n : Z)
| JStr (s : string)
| JArr (items : list json)
| JObj (members : list (string * json)).
#[local] Set Elimination Schemes.

(** Array elements [0 .. length-1]; a hole or [undefined] becomes [null]. *)
Fixpoint stringify_items (self : val -> res (option json)) (o : object)
  (ks : list string) : res (list json) :=
  match ks with
  | [] => Ret []
  | k :: rest =>
      res_bind (self (obj_get k o)) (fun j =>
      res_bind (stringify_items self o rest) (fun js =>
      Ret (match j with
           | Some x => x
           | None => JNull
           end :: js)))
  end.

(** Object members in key order; an [undefined] member is left out. *)
Fixpoint stringify_members (self : val -> res (option json))
  (ps : list (string * val)) : res (list (string * json)) :=
  match ps with
  | [] => Ret []
  | (k, v) :: rest =>
      res_bind (self v) (fun j =>
      res_bind (stringify_members self rest) (fun ms =>
      Ret (match j with
           | Some x => (k, x) :: ms
           | None => ms
           end)))
  end.

(** [JSON.stringify]; [None] is the result [undefined].  [stack] holds
    the objects being serialised: meeting one again is a cycle. *)
Fixpoint stringify (fuel : nat) (h : list object) (stack : list loc)
  (v : val) : res (option json) :=
  match v with
  | VUndef => Ret None
  | VNull => Ret (Some JNull)
  | VBool b => Ret (Some (JBool b))
  | VNum n => Ret (Some (JNum n))
  | VStr s => Ret (Some (JStr s))
  | VRef l =>
      match fuel with
      | O => OutOfFuel
      | S f =>
          if existsb (Nat.eqb l) stack then Throw TypeError
          else
            let o := read_obj h l in
            match alen o with
            | Some n =>
                res_bind
                  (stringify_items (stringify f h (l :: stack)) o
                     (index_keys n))
                  (fun js => Ret (Some (JArr js)))
            | None =>
                res_bind
                  (stringify_members (stringify f h (l :: stack)) (props o))
                  (fun ms => Ret (Some (JObj ms)))
            end
      end
  end.

Fixpoint indexed_vals (i : nat) (l : list val) : list (string * val) :=
  match l with
  | [] => []
  | v :: r => (JsString.of_nat i, v) :: indexed_vals (S i) r
  end.

Definition props_of_members (kvs : list (string * val))
  : list (string * val) :=
  fold_left (fun ps kv => props_set (fst kv) (snd kv) ps) kvs [].

(** The values of an item list and of a member list, revived in order
    by [self]. *)
Section revive_lists.
Variable self : json -> M val.

Fixpoint revive_items (js : list json) : M (list val) :=
  match js with
  | [] => ret []
  | x :: r =>
      let* v := self x in
      let* vs := revive_items r in
      ret (v :: vs)
  end.

Fixpoint revive_members (ms : list (string * json))
  : M (list (string * val)) :=
  match ms with
  | [] => ret []
  | (k, x) :: r =>
      let* v := self x in
      let* kvs := revive_members r in
      ret ((k, v) :: kvs)
  end.

End revive_lists.

(** [JSON.parse] of a serialised value: fresh objects throughout. *)
Fixpoint revive (j : json) : M val :=
  match j with
  | JNull => ret VNull
  | JBool b => ret (VBool b)
  | JNum n => ret (VNum n)
  | JStr s => ret (VStr s)
  | JArr items =>
      let* vs := revive_items revive items in
      alloc (mkObject (Some (List.length vs)) (indexed_vals 0 vs))
  | JObj members =>
      let* kvs := revive_members revive members in
      alloc (mkObject None (props_of_members kvs))
  end.

Definition json_clone (fuel : nat) (obj : val) : M val :=
  let* j := lift_read (fun h => stringify fuel h [] obj) in
  match j with
  | Some x => revive x
  | None => throw SyntaxError
  end.

(** ** The orchestrator *)

(** The merged options as [inject] uses them: [mutate] is the truth
    value of [options.mutate], [itemParser] what calling
    [options.itemParser] does. *)
Record Options := mkOptions {
  mutate : bool;
  itemParser : ItemParser
}.

(** A property of a [Partial<...>] object: absent, present with the
    value [undefined], or present with a value. *)
Inductive optional (A : Type) :=
| Absent
| Undefined
| Present (a : A).
Arguments Absent {A}.
Arguments Undefined {A}.
Arguments Present {A} a.

Record PartialOptions := mkPartialOptions {
  opt_mutate : optional bool;
  opt_itemParser : optional ItemParser
}.

Definition defaultOptions : Options := mkOptions true defaultItemParser.

(** Calling [undefined] throws a [TypeError]. *)
Definition undefined_parser : ItemParser := fun _ _ _ => Throw TypeError.

(** [{ ...defaultOptions, ...opts }]: a property present in [opts]
    wins, also when its value is [undefined]. *)
Definition merge_options (d : Options) (opts : option PartialOptions)
  : Options :=
  match opts with
  | None => d
  | Some o =>
      mkOptions
        (match opt_mutate o with
         | Present b => b
         | Undefined => false
         | Absent => mutate d
         end)
        (match opt_itemParser o with
         | Present p => p
         | Undefined => undefined_parser
         | Absent => itemParser d
         end)
  end.

Definition byNameData (entries : list Entry) : list ByNameEntryData :=
  omap (fun e => match data e with
                 | ByName d => Some d
                 | ByPath _ => None
                 end) entries.

Definition byPathData (entries : list Entry) : list ByPathEntryData :=
  omap (fun e => match data e with
                 | ByName _ => None
                 | ByPath d => Some d
                 end) entries.

(** A call to an [async] function whose promise is dropped: the body has
    run up to its end or its throw, and the outcome is seen by nobody. *)
Definition not_awaited {A} (c : M A) : M unit :=
  fun w => let '(_, w') := c w in (Ret tt, w').

(** [options.mutate ? obj : JSON.parse(JSON.stringify(obj))] *)
Definition working_object (fuel : nat) (options : Options) (obj : val)
  : M val :=
  if mutate options then ret obj else json_clone fuel obj.

Definition inject (fuel : nat) (ssm : SSM) (obj : val)
  (opts : option PartialOptions) : M val :=
  let options := merge_options defaultOptions opts in
  let* obj := working_object fuel options obj in
  let* entries :=
    lift_read (fun h => findEntries fuel h obj (itemParser options)) in
  let byNameDataList := byNameData entries in
  let byPathDataList := byPathData entries in
  let* params := getParameters ssm byNameDataList in
  let* paramsByPath := getParametersByPaths fuel ssm byPathDataList in
  let* _ := not_awaited (expandEntries entries params paramsByPath) in
  ret obj.

(** ** A table-driven client for examples

    By-name requests are answered from a table keyed by the requested
    name (names missing from the table are reported invalid); by-path
    requests from a table of pages keyed by path and token (a missing
    page rejects). *)

Definition lookup_name (table : list (string * SsmParameter)) (n : string)
  : option SsmParameter :=
  match find (fun e => String.eqb n (fst e)) table with
  | Some e => Some (snd e)
  | None => None
  end.

Definition table_getParameters (table : list (string * SsmParameter))
  (r : GetParametersRequest) : settled GetParametersResult :=
  inr (mkGetParametersResult
         (Some (omap (lookup_name table) (gp_Names r)))
         (Some (List.filter
                  (fun n => match lookup_name table n with
                            | Some _ => false
                            | None => true
                            end)
                  (gp_Names r)))).

Definition option_string_eqb (a b : option string) : bool :=
  match a, b with
  | Some x, Some y => String.eqb x y
  | None, None => true
  | _, _ => false
  end.

Definition table_getParametersByPath
  (pages : list (string * option string * GetParametersByPathResult))
  (r : GetParametersByPathRequest) : settled GetParametersByPathResult :=
  match find (fun e => String.eqb (gbp_Path r) (fst (fst e))
                       && option_string_eqb (gbp_NextToken r) (snd (fst e)))
             pages with
  | Some e => inr (snd e)
  | None => inl (RemoteError "ParameterNotFound")
  end.

Definition table_client (table : list (string * SsmParameter))
  (pages : list (string * option string * GetParametersByPathResult)) : SSM :=
  mkSSM (table_getParameters table) (table_getParametersByPath pages).

Definition string_param (n v : string) : SsmParameter :=
  mkParameter (Some n) (Some "String") (Some v) (Some 1) None.

Definition empty_world : world := mkWorld [] [].

(** ** Vocabulary of the statements *)

Fixpoint join (sep : ascii) (l : list string) : string :=
  match l with
  | [] => EmptyString
  | [s] => s
  | s :: r => String.append s (String sep (join sep r))
  end.

Fixpoint occurs (c : ascii) (s : string) : bool :=
  match s with
  | EmptyString => false
  | String d r => Ascii.eqb d c || occurs c r
  end.

Definition value_or_empty (p : SsmParameter) : string :=
  match p_Value p with
  | Some s => s
  | None => EmptyString
  end.

(** A stored value [v] in store [h] is the JavaScript form of [x]. *)
Definition holds_value (h : list object) (v : val) (x : Value) : Prop :=
  match x with
  | ValString s => v = VStr s
  | ValStringList ls =>
      exists a, v = VRef a
                /\ h !! a = Some (mkObject (Some (List.length ls)) (indexed 0 ls))
  end.

Definition list_param : SsmParameter :=
  mkParameter (Some "/list") (Some "StringList") (Some "a,b,c") (Some 1) None.

Definition absent_value_param : SsmParameter :=
  mkParameter (Some "/empty") (Some "SecureString") None (Some 1) None.

Definition one_object_world (ps : list (string * val)) : world :=
  mkWorld [mkObject None ps] [].

(** The requests [getParameters] makes for a list of by-name entries. *)
Definition name_requests (dataList : list ByNameEntryData)
  : list GetParametersRequest :=
  batch_requests (map name dataList) 0 (List.length (map name dataList)).

Definition returned_parameters (r : GetParametersResult) : ParameterList :=
  match gp_Parameters r with
  | Some l => l
  | None => []
  end.

Definition invalid_names (r : GetParametersResult) : list string :=
  match gp_InvalidParameters r with
  | Some l => l
  | None => []
  end.

Definition hundred_names : list ByNameEntryData :=
  map (fun i => mkByName (String.append "/nested/param" (JsString.of_nat i)))
    (seq 0 100).

(** *** Regions of the store

    [n] splits the store into the cells below [n] and the cells from [n]
    on.  A value is fresh when it does not point below [n]. *)

Definition fresh_val (n : nat) (v : val) : Prop :=
  match v with
  | VRef l => (n <= l)%nat
  | _ => True
  end.

Definition fresh_props (n : nat) (ps : list (string * val)) : Prop :=
  Forall (fun kv => fresh_val n (snd kv)) ps.

(** The cells from [n] on exist up to the end of the store and point
    only to cells from [n] on. *)
Definition closed_above (n : nat) (h : list object) : Prop :=
  (n <= List.length h)%nat
  /\ forall l o, (n <= l)%nat -> h !! l = Some o -> fresh_props n (props o).

(** The cells below [n] are the same in [h] and [h']. *)
Definition same_below (n : nat) (h h' : list object) : Prop :=
  forall l, (l < n)%nat -> h' !! l = h !! l.

(** [c] leaves the cells below [n] and the call log alone, keeps the
    upper region closed, and returns only values satisfying [Q]. *)
Definition keeps (n : nat) {A} (c : M A) (Q : A -> Prop) : Prop :=
  forall w, closed_above n (heap w) ->
    closed_above n (heap (snd (c w)))
    /\ same_below n (heap w) (heap (snd (c w)))
    /\ calls (snd (c w)) = calls w
    /\ forall a, fst (c w) = Ret a -> Q a.

(** Induction over serialised values, through their item and member lists. *)
Section json_induction.
Variable P : json -> Prop.
Hypothesis HNull : P JNull.
Hypothesis HBool : forall b, P (JBool b).
Hypothesis HNum : forall n, P (JNum n).
Hypothesis HStr : forall s, P (JStr s).
Hypothesis HArr : forall items, Forall P items -> P (JArr items).
Hypothesis HObj :
  forall members, Forall (fun m => P (snd m)) members -> P (JObj members).

Fixpoint json_induction (j : json) : P j :=
  match j with
  | JNull => HNull
  | JBool b => HBool b
  | JNum n => HNum n
  | JStr s => HStr s
  | JArr items =>
      HArr items
        ((fix go (l : list json) : Forall P l :=
            match l with
            | [] => List.Forall_nil P
            | x :: r => @List.Forall_cons _ P x r (json_induction x) (go r)
            end) items)
  | JObj members =>
      HObj members
        ((fix go (l : list (string * json))
            : Forall (fun m => P (snd m)) l :=
            match l with
            | [] => List.Forall_nil _
            | m :: r =>
                @List.Forall_cons _ (fun m => P (snd m)) m r
                  (json_induction (snd m)) (go r)
            end) members)
  end.
End json_induction.


(** What [inject] does once the entries are known. *)
Definition fetch_and_expand (fuel : nat) (ssm : SSM) (obj : val)
  (entries : list Entry) : M val :=
  let* params := getParameters ssm (byNameData entries) in
  let* paramsByPath := getParametersByPaths fuel ssm (byPathData entries) in
  let* _ := not_awaited (expandEntries entries params paramsByPath) in
  ret obj.

(** Twelve by-name references of which the first and the last do not
    exist in the store: two batches, one invalid name in each. *)
Definition twelve_refs : list (string * val) :=
  map (fun i =>
         (String.append "k" (String.append (JsString.of_nat i) ":ssm:name"),
          VStr (String.append "/p" (JsString.of_nat i))))
    (seq 0 12).

Definition ten_params : list (string * SsmParameter) :=
  map (fun i =>
         let n := String.append "/p" (JsString.of_nat i) in
         (n, string_param n (String.append "value" (JsString.of_nat i))))
    (seq 1 10).

(** The first page request for a by-path entry. *)
Definition first_page_request (d : ByPathEntryData)
  : GetParametersByPathRequest :=
  mkGetParametersByPathRequest (path d) (recursive d) None (Some true).

(** An unknown name next to a by-path reference. *)
Definition unknown_name_world : world :=
  one_object_world [("a:ssm:name", VStr "/bar");
                    ("p:ssm:path", VStr "/nested")].

(** A key whose second colon-delimited segment is [ssm] and whose third
    segment is absent, [name] or [path]; further segments are not looked
    at. *)
Definition reference_key (key : string) : bool :=
  match JsString.split ":" key with
  | _ :: s :: rest =>
      String.eqb s "ssm"
      && match rest with
         | [] => true
         | b :: _ => String.eqb b "name" || String.eqb b "path"
         end
  | _ => false
  end.

Definition call_key (c : ParserCall) : string :=
  match c with
  | addByNameEntry k _ => k
  | addByPathEntry k _ _ => k
  end.

(** A client that knows one parameter, [/letter], returns it for every
    by-name request and never reports an invalid name. *)
Definition letter_only_client : SSM :=
  mkSSM
    (fun _ => inr (mkGetParametersResult
                     (Some [string_param "/letter" "c"]) (Some [])))
    (fun _ => inl (RemoteError "ParameterNotFound")).

Definition nested_pages
  : list (string * option string * GetParametersByPathResult) :=
  [("/nested", None,
    mkGetParametersByPathResult
      (Some [string_param "/nested/doublenested/letter" "a";
             string_param "/nested/param0" "value0"])
      (Some "page2"));
   ("/nested", Some "page2",
    mkGetParametersByPathResult
      (Some [string_param "/nested/param1" "value1"]) None)].

(** The request for a page of a by-path entry, given the token. *)
Definition page_request (data : ByPathEntryData) (tok : option string)
  : GetParametersByPathRequest :=
  mkGetParametersByPathRequest (path data) (recursive data) tok (Some true).

(** [page_chain ssm data tok pages]: asked for [data] from token [tok]
    on, the service answers with [pages], each but the last carrying the
    token of the next one, the last carrying none. *)
Inductive page_chain (ssm : SSM) (data : ByPathEntryData)
  : option string -> list GetParametersByPathResult -> Prop :=
| chain_last tok r :
    ssm_getParametersByPath ssm (page_request data tok) = inr r ->
    token_present (gbp_ResultNextToken r) = false ->
    page_chain ssm data tok [r]
| chain_next tok r rest :
    ssm_getParametersByPath ssm (page_request data tok) = inr r ->
    token_present (gbp_ResultNextToken r) = true ->
    page_chain ssm data (gbp_ResultNextToken r) rest ->
    page_chain ssm data tok (r :: rest).

Definition page_parameters (r : GetParametersByPathResult) : ParameterList :=
  match gbp_Parameters r with
  | Some l => l
  | None => []
  end.

(** The requests that fetch [pages]: the first with [tok], each later
    one with the token of the page before. *)
Fixpoint page_requests (data : ByPathEntryData) (tok : option string)
  (pages : list GetParametersByPathResult) : list GetParametersByPathRequest :=
  match pages with
  | [] => []
  | r :: rest =>
      page_request data tok :: page_requests data (gbp_ResultNextToken r) rest
  end.

Definition all_parameters (pages : list GetParametersByPathResult)
  : ParameterList :=
  concat (map page_parameters pages).

Definition nested_parameters : ParameterList :=
  [string_param "/nested/doublenested/letter" "a";
   string_param "/nested/param0" "value0";
   string_param "/nested/param1" "value1"].











(** ** Vocabulary of the further properties *)

(** A tree of two levels without any reference key. *)
Definition plain_world : world :=
  mkWorld
    [mkObject None [("a", VStr "a"); ("b", VRef 1)];
     mkObject None [("foo", VStr "foo")]]
    [].

(** [pages_then ssm data tok pages tok']: asked for [data] from token
    [tok] on, the service answers with [pages], each carrying the token of
    the next request; [tok'] is the token the last of them carries ([tok]
    itself when there is no page). *)
Inductive pages_then (ssm : SSM) (data : ByPathEntryData)
  : option string -> list GetParametersByPathResult -> option string -> Prop :=
| pages_none tok : pages_then ssm data tok [] tok
| pages_more tok r rest tok' :
    ssm_getParametersByPath ssm (page_request data tok) = inr r ->
    token_present (gbp_ResultNextToken r) = true ->
    pages_then ssm data (gbp_ResultNextToken r) rest tok' ->
    pages_then ssm data tok (r :: rest) tok'.

(** A service with one page for [/nested] whose follow-up page fails. *)
Definition broken_pages
  : list (string * option string * GetParametersByPathResult) :=
  [("/nested", None,
    mkGetParametersByPathResult
      (Some [string_param "/nested/param0" "value0"]) (Some "page2"))].

(** A second version of [/letter], addressed by selector. *)
Definition letter_v1 : SsmParameter :=
  mkParameter (Some "/letter") (Some "String") (Some "a") (Some 1) (Some ":1").

(** The computation [getParametersByPaths] runs for one entry. *)
Definition fetch_path (fuel : nat) (ssm : SSM) (data : ByPathEntryData)
  : M (string * ParameterList) :=
  let* parameters := getParametersByPath fuel ssm data None in
  ret (path data, parameters).

Definition broken_path_world : world :=
  one_object_world [("a:ssm:name", VStr "/letter");
                    ("p:ssm:path", VStr "/nested")].

(** The qualifier of a reference key: the segment after [ssm], if any. *)
Definition qualifier (rest : list string) : option string := hd_error rest.

Definition path_object_world : world :=
  one_object_world [("path", VStr "/nested"); ("recursive", VBool true)].

(** [e] is what the parser asked for at an own key of the parent of [e]:
    the initial key is among [Object.keys(parent)], and one of the calls
    the parser made on that key and its value produced [e]. *)
Definition entry_from_key (h : list object) (parser : ItemParser) (e : Entry)
  : Prop :=
  exists keys v cs c,
    object_keys h (parent e) = Ret keys
    /\ In (initKey e) keys
    /\ get_prop h (parent e) (initKey e) = Ret v
    /\ parser h (initKey e) v = Ret cs
    /\ In c cs
    /\ e = entry_of_call (parent e) (initKey e) c.

Definition nested_refs_world : world :=
  mkWorld
    [mkObject None [("a", VStr "a"); ("db", VRef 1)];
     mkObject None [("password:ssm:name", VStr "/letter");
                    ("all:ssm:path", VStr "/nested")]]
    [].

(** The value an entry is replaced with, as [expandEntries] computes it. *)
Definition resolved_value (params : ParameterList)
  (paramsByPath : ParamsByPath) (d : EntryData) : M val :=
  match d with
  | ByName d =>
      let* x := lift_read (fun _ => findValue params (name d)) in
      store_value x
  | ByPath d => findValuesByPath paramsByPath (path d)
  end.

Definition config_world : world :=
  one_object_world [("host", VStr "localhost");
                    ("password:ssm", VStr "/letter");
                    ("port", VNum 5432)].

(** A value that, if it is a reference, points into the store. *)
Definition in_store (h : list object) (v : val) : Prop :=
  match v with
  | VRef l => (l < List.length h)%nat
  | _ => True
  end.

(** No object of the store holds a dangling reference. *)
Definition store_closed (h : list object) : Prop :=
  forall l o, h !! l = Some o ->
    Forall (fun kv => in_store h (snd kv)) (props o).

(** One level of [ensureNestedObject]: make sure [o[key]] is truthy,
    then read it. *)
Definition ensure_key (o : val) (key : string) : M val :=
  let* cur := lift_read (fun h => get_prop h o key) in
  let* _ := (if truthy cur then ret tt
             else let* fresh := alloc empty_object in
                  set_prop o key fresh) in
  lift_read (fun h => get_prop h o key).

Definition shared_prefix_world : world :=
  mkWorld
    [mkObject None [("doublenested", VRef 1)];
     mkObject None [("letter", VStr "a")]]
    [].

Definition shared_prefix_after : world :=
  mkWorld
    [mkObject None [("doublenested", VRef 1)];
     mkObject None [("letter", VStr "a"); ("deeper", VRef 2)];
     empty_object]
    [].

(** The requested path with its trailing separator. *)
Definition directory (path : string) : string :=
  if JsString.endsWith path "/" then path else String.append path "/".

(** [walk h v keys item]: reading the keys one after the other, starting
    at [v], leads through truthy slots of the store [h] to [item]. *)
Inductive walk (h : list object) : val -> list string -> val -> Prop :=
| walk_here v : walk h v [] v
| walk_down v k next rest item :
    get_prop h v k = Ret next ->
    truthy next = true ->
    walk h next rest item ->
    walk h v (k :: rest) item.

(** The name of a parameter lying below [path], under the intermediate
    levels [segs], with last segment [leaf]. *)
Definition nested_name (path : string) (segs : list string) (leaf : string)
  : string :=
  String.append (directory path)
    (String.append (join "/" segs) (String "/" leaf)).

(** The entries [parseItem] yields for a key, none when it throws. *)
Definition parsed_entries (h : list object) (parent : val)
  (parser : ItemParser) (k : string) : list Entry :=
  match parseItem h parent k parser with
  | Ret es => es
  | _ => []
  end.

(** An object whose reference holds an object with further references
    inside: the inner ones are not looked at. *)
Definition matched_object_world : world :=
  mkWorld
    [mkObject None [("db:ssm", VRef 1); ("port", VNum 5432);
                    ("cache:ssm:path", VStr "/nested")];
     mkObject None [("name", VStr "/letter"); ("inner:ssm", VStr "/list")]]
    [].

(** ** Where property access is a matter of own properties

    Reading [o[k]] and writing [o[k] = v] are modelled on the own
    properties of [o].  The source agrees with that on a plain object
    (not an array) as long as a key that is read is not a member every
    object inherits, and a key that is written is not [__proto__], whose
    assignment runs the prototype setter.  The statements about stored
    values name these conditions. *)

(** The members of [Object.prototype]. *)
Definition inherited_names : list string :=
  ["constructor"; "__defineGetter__"; "__defineSetter__"; "hasOwnProperty";
   "__lookupGetter__"; "__lookupSetter__"; "isPrototypeOf";
   "propertyIsEnumerable"; "toString"; "valueOf"; "__proto__";
   "toLocaleString"].

Definition inherited_name (k : string) : bool :=
  existsb (String.eqb k) inherited_names.

(** [Name.substr(Name.lastIndexOf("/") + 1)] *)
Definition leaf_key (Name : string) : string :=
  JsString.substr Name (JsString.lastIndexOf "/" Name + 1).

(** The keys [findValuesByPath] walks before it stores the leaf: the
    segments between the requested path and the last separator, none for
    an immediate child. *)
Definition nested_keys (path Name : string) : list string :=
  let i := JsString.lastIndexOf "/" Name in
  if Z.ltb (pathLenth path) i
  then JsString.split "/" (JsString.substring Name (pathLenth path) i)
  else [].

(** The keys that lead from the result object to the slot of the leaf. *)
Definition slot_path (path Name : string) : list string :=
  nested_keys path Name ++ [leaf_key Name].

Fixpoint is_prefix (a b : list string) : bool :=
  match a, b with
  | [], _ => true
  | x :: a', y :: b' => String.eqb x y && is_prefix a' b'
  | _ :: _, [] => false
  end.

(** The parameters of a path, in order, given the slots written so far:
    no walked key is an inherited member, no leaf key is [__proto__], and
    no walk leads through the slot of an earlier leaf (so that every
    object walked is one [ensureNestedObject] made). *)
Fixpoint ordinary_from (path : string) (earlier : list (list string))
  (ps : ParameterList) : bool :=
  match ps with
  | [] => true
  | p :: rest =>
      match nonempty (p_Name p) with
      | None => ordinary_from path earlier rest
      | Some Name =>
          forallb (fun s => negb (inherited_name s)) (nested_keys path Name)
          && negb (String.eqb (leaf_key Name) "__proto__")
          && forallb (fun e => negb (is_prefix e (nested_keys path Name)))
               earlier
          && ordinary_from path (slot_path path Name :: earlier) rest
      end
  end.

Definition ordinary_parameters (path : string) (ps : ParameterList) : bool :=
  ordinary_from path [] ps.

Definition ordinary_path (paramsByPath : ParamsByPath) (path : string)
  : bool :=
  match paramsByPath !! path with
  | Some ps => ordinary_parameters path ps
  | None => true
  end.

(** The parameters an entry is resolved from are ordinary ones. *)
Definition within_model (paramsByPath : ParamsByPath) (d : EntryData)
  : bool :=
  match d with
  | ByName _ => true
  | ByPath d => ordinary_path paramsByPath (path d)
  end.

Definition is_plain (o : object) : bool :=
  match alen o with
  | None => true
  | Some _ => false
  end.


(** [plain_walk h v keys item]: as [walk], through plain objects only,
    [item] included. *)
Inductive plain_walk (h : list object) : val -> list string -> val -> Prop :=
| plain_here l :
    is_plain (read_obj h l) = true -> plain_walk h (VRef l) [] (VRef l)
| plain_down l k next rest item :
    is_plain (read_obj h l) = true ->
    obj_get k (read_obj h l) = next ->
    truthy next = true ->
    plain_walk h next rest item ->
    plain_walk h (VRef l) (k :: rest) item.

(** ** What it means that a reference has been replaced *)







(** A string list two levels below [/nested]. *)
Definition nested_list_param : SsmParameter :=
  mkParameter (Some "/nested/db/hosts") (Some "StringList") (Some "a,b")
    (Some 1) None.


(** * Properties *)

(** ** Splitting strings *)



Lemma split_nonempty sep s : JsString.split sep s <> [].
Proof.
  destruct s as [|c r]; simpl; [discriminate|].
  destruct (Ascii.eqb c sep); [discriminate|].
  destruct (JsString.split sep r); discriminate.
Qed.

Lemma join_split sep s : join sep (JsString.split sep s) = s.
Proof.
  induction s as [|c r IH]; simpl; [reflexivity|].
  destruct (Ascii.eqb_spec c sep) as [->|Hne].
  - pose proof (split_nonempty sep r) as Hn.
    destruct (JsString.split sep r) as [|h t]; [contradiction|].
    simpl in *. now rewrite IH.
  - pose proof (split_nonempty sep r) as Hn.
    destruct (JsString.split sep r) as [|h t]; [contradiction|].
    destruct t as [|h' t]; simpl in *; now rewrite <- IH.
Qed.

Lemma split_pieces_free sep s :
  Forall (fun piece => occurs sep piece = false) (JsString.split sep s).
Proof.
  induction s as [|c r IH]; simpl.
  - repeat constructor.
  - destruct (Ascii.eqb_spec c sep) as [->|Hne].
    + constructor; [reflexivity|assumption].
    + destruct (JsString.split sep r) as [|h t]; simpl.
      * repeat constructor. simpl.
        destruct (Ascii.eqb_spec c sep); [contradiction|reflexivity].
      * inversion IH; subst. constructor; [|assumption].
        simpl. destruct (Ascii.eqb_spec c sep); [contradiction|assumption].
Qed.

(** ** Running computations *)

Lemma bind_ret_run {A B} (c : M A) (k : A -> M B) w a w' :
  c w = (Ret a, w') -> bind c k w = k a w'.
Proof. intros H. unfold bind. now rewrite H. Qed.


Lemma bind_assoc {A B C} (c : M A) (f : A -> M B) (g : B -> M C) w :
  bind (bind c f) g w = bind c (fun x => bind (f x) g) w.
Proof. unfold bind. destruct (c w) as [[a| |] w']; reflexivity. Qed.

Lemma nonempty_value p :
  match nonempty (p_Value p) with
  | Some s => s
  | None => EmptyString
  end = value_or_empty p.
Proof.
  unfold value_or_empty, nonempty. destruct (p_Value p) as [s|]; [|reflexivity].
  destruct (String.eqb_spec s EmptyString); congruence.
Qed.

Lemma getParameterValue_StringList p :
  p_Type p = Some "StringList" ->
  getParameterValue p = ValStringList (JsString.split "," (value_or_empty p)).
Proof.
  intros H. unfold getParameterValue. rewrite nonempty_value, H. reflexivity.
Qed.

Lemma getParameterValue_other p :
  p_Type p <> Some "StringList" ->
  getParameterValue p = ValString (value_or_empty p).
Proof.
  intros H. unfold getParameterValue. rewrite nonempty_value.
  destruct (p_Type p) as [t|]; [|reflexivity].
  destruct (String.eqb_spec t "StringList"); congruence.
Qed.

Lemma findValue_found params n v :
  findValue params n = Ret v ->
  exists p, In p params /\ name_with_selector p = n /\ v = getParameterValue p.
Proof.
  unfold findValue. intros H.
  destruct (find _ params) as [p|] eqn:Hf; [|discriminate].
  apply find_some in Hf as [Hin Heq].
  apply String.eqb_eq in Heq. inversion H; subst. eauto.
Qed.

(** ** Property lists *)

Lemma assoc_get_replace_same k v ps x :
  assoc_get k ps = Some x -> assoc_get k (assoc_replace k v ps) = Some v.
Proof.
  induction ps as [|[k' v'] r IH]; simpl; [discriminate|].
  destruct (String.eqb k k') eqn:E; simpl; rewrite E; auto.
Qed.

Lemma assoc_get_insert_index_same i k v ps :
  assoc_get k ps = None -> assoc_get k (insert_index i k v ps) = Some v.
Proof.
  induction ps as [|[k' v'] r IH]; simpl.
  - now rewrite String.eqb_refl.
  - destruct (String.eqb k k') eqn:E; [discriminate|]. intros H.
    destruct (JsString.array_index k') as [j|].
    + destruct (j <? i)%N; simpl.
      * rewrite E. auto.
      * now rewrite String.eqb_refl.
    + simpl. now rewrite String.eqb_refl.
Qed.

Lemma assoc_get_app_same k v ps :
  assoc_get k ps = None -> assoc_get k (ps ++ [(k, v)]) = Some v.
Proof.
  induction ps as [|[k' v'] r IH]; simpl.
  - now rewrite String.eqb_refl.
  - destruct (String.eqb k k'); [discriminate|auto].
Qed.

Lemma assoc_get_props_set_same k v ps :
  assoc_get k (props_set k v ps) = Some v.
Proof.
  unfold props_set. destruct (assoc_get k ps) eqn:E.
  - eapply assoc_get_replace_same; eauto.
  - destruct (JsString.array_index k).
    + now apply assoc_get_insert_index_same.
    + now apply assoc_get_app_same.
Qed.

Lemma obj_get_set_same k v o : obj_get k (obj_set k v o) = v.
Proof. unfold obj_get, obj_set. simpl. now rewrite assoc_get_props_set_same. Qed.

Lemma read_obj_insert_same (h : list object) l o :
  (l < List.length h)%nat -> read_obj (<[l := o]> h) l = o.
Proof.
  intros H. unfold read_obj. now rewrite list_lookup_insert_eq.
Qed.



Lemma store_then_set l k x w :
  (l < List.length (heap w))%nat ->
  exists w',
    bind (store_value x) (fun v => set_prop (VRef l) k v) w = (Ret tt, w')
    /\ holds_value (heap w') (obj_get k (read_obj (heap w') l)) x
    /\ calls w' = calls w.
Proof.
  intros Hl. destruct x as [s|ls]; simpl.
  - unfold bind, ret. simpl. eexists. split; [reflexivity|]. simpl.
    rewrite read_obj_insert_same by assumption.
    now rewrite obj_get_set_same.
  - unfold bind, alloc. simpl. eexists. split; [reflexivity|]. simpl.
    assert (Hl' : (l < List.length (heap w ++ [mkObject (Some (List.length ls)) (indexed 0 ls)]))%nat)
      by (rewrite length_app; simpl; lia).
    rewrite read_obj_insert_same by assumption.
    rewrite obj_get_set_same. split; [|reflexivity].
    exists (List.length (heap w)). split; [reflexivity|].
    rewrite list_lookup_insert_ne by lia.
    rewrite lookup_app_r by lia. now rewrite Nat.sub_diag.
Qed.

Lemma delete_prop_ref l k w :
  exists w', delete_prop (VRef l) k w = (Ret tt, w')
             /\ List.length (heap w') = List.length (heap w)
             /\ calls w' = calls w.
Proof.
  eexists. split; [reflexivity|]. simpl. now rewrite length_insert.
Qed.

Lemma expandEntry_by_name params paramsByPath l k ik n p w :
  (l < List.length (heap w))%nat ->
  find (fun q => String.eqb n (name_with_selector q)) params = Some p ->
  exists w',
    expandEntry params paramsByPath
      (mkEntry (VRef l) k ik (ByName (mkByName n))) w = (Ret tt, w')
    /\ holds_value (heap w') (obj_get k (read_obj (heap w') l))
         (getParameterValue p).
Proof.
  intros Hl Hf. unfold expandEntry. cbn [parent initKey key data name].
  destruct (delete_prop_ref l ik w) as (w1 & Hd & Hlen & _).
  rewrite (bind_ret_run _ _ _ _ _ Hd).
  destruct (store_then_set l k (getParameterValue p) w1) as (w' & Hs & Hh & _);
    [lia|].
  exists w'. split; [|assumption].
  unfold bind in *. unfold lift_read, findValue. rewrite Hf. simpl.
  exact Hs.
Qed.

Lemma place_parameter_direct path l p Name w :
  (l < List.length (heap w))%nat ->
  nonempty (p_Name p) = Some Name ->
  JsString.lastIndexOf "/" Name <= pathLenth path ->
  exists w',
    place_parameter path (VRef l) p w = (Ret (VRef l), w')
    /\ holds_value (heap w')
         (obj_get (JsString.substr Name (JsString.lastIndexOf "/" Name + 1))
            (read_obj (heap w') l))
         (getParameterValue p).
Proof.
  intros Hl Hn Hi. unfold place_parameter. rewrite Hn.
  destruct (Z.ltb_spec (pathLenth path) (JsString.lastIndexOf "/" Name)); [lia|].
  destruct (store_then_set l
              (JsString.substr Name (JsString.lastIndexOf "/" Name + 1))
              (getParameterValue p) w) as (w' & Hs & Hh & _); [assumption|].
  exists w'. split; [|assumption].
  change (bind (ret (VRef l)) ?k w) with (k (VRef l) w). cbv beta.
  rewrite <- bind_assoc. now rewrite (bind_ret_run _ _ _ _ _ Hs).
Qed.

(** ** The batched name fetch *)

Lemma issue_all_run ssm reqs w :
  issue_all ssm reqs w
  = (Ret (map (ssm_getParameters ssm) reqs),
     mkWorld (heap w) (calls w ++ map CallGetParameters reqs)).
Proof.
  revert w. induction reqs as [|r rest IH]; intros w; simpl.
  - unfold ret. destruct w; simpl. now rewrite app_nil_r.
  - unfold bind, log_call. simpl. rewrite IH. simpl.
    unfold ret. now rewrite <- app_assoc.
Qed.

Lemma collect_concat results ps inv :
  collect results ps inv
  = (ps ++ concat (map returned_parameters results),
     inv ++ concat (map invalid_names results)).
Proof.
  revert ps inv. induction results as [|r rest IH]; intros ps inv; simpl.
  - now rewrite !app_nil_r.
  - rewrite IH. unfold returned_parameters, invalid_names.
    destruct (gp_Parameters r), (gp_InvalidParameters r); simpl;
      now rewrite <- ?app_assoc.
Qed.

Lemma getParameters_world ssm dataList w :
  snd (getParameters ssm dataList w)
  = mkWorld (heap w) (calls w ++ map CallGetParameters (name_requests dataList)).
Proof.
  unfold getParameters, name_requests.
  destruct dataList as [|d rest].
  - simpl. destruct w; simpl. now rewrite app_nil_r.
  - set (names := map name (d :: rest)).
    unfold bind. rewrite issue_all_run.
    destruct (promise_all _) as [e|fulfilled]; simpl; [reflexivity|].
    rewrite collect_concat. simpl.
    destruct (Nat.ltb 0 _); reflexivity.
Qed.


Lemma getParameters_fulfilled ssm dataList w fulfilled :
  promise_all (map (ssm_getParameters ssm) (name_requests dataList))
  = inr fulfilled ->
  fst (getParameters ssm dataList w)
  = match concat (map invalid_names fulfilled) with
    | [] => Ret (concat (map returned_parameters fulfilled))
    | _ :: _ =>
        Throw (InvalidParametersError (concat (map invalid_names fulfilled)))
    end.
Proof.
  unfold getParameters, name_requests. intros H.
  destruct dataList as [|d rest].
  - simpl in H. inversion H. reflexivity.
  - unfold bind. rewrite issue_all_run, H. simpl.
    rewrite collect_concat. simpl.
    destruct (concat (map invalid_names fulfilled)); reflexivity.
Qed.

Lemma batch_requests_concat fuel : forall names i,
  (List.length names - i <= fuel)%nat ->
  concat (map gp_Names (batch_requests names i fuel)) = skipn i names.
Proof.
  induction fuel as [|f IH]; intros names i H; simpl.
  - symmetry. apply skipn_all2. lia.
  - destruct (Nat.ltb_spec i (List.length names)).
    + simpl. rewrite IH by (unfold GET_PARAMETERS_LIMIT; lia).
      unfold slice, GET_PARAMETERS_LIMIT.
      replace (i + 10 - i)%nat with 10%nat by lia.
      replace (i + 10)%nat with (10 + i)%nat by lia.
      rewrite <- skipn_skipn. apply firstn_skipn.
    + symmetry. apply skipn_all2. lia.
Qed.

Lemma ceil_step x :
  (0 < x)%nat -> ((x + 9) / 10 = S ((x - 10 + 9) / 10))%nat.
Proof.
  intros H.
  pose proof (Nat.div_mod_eq (x + 9) 10).
  pose proof (Nat.mod_upper_bound (x + 9) 10).
  pose proof (Nat.div_mod_eq (x - 10 + 9) 10).
  pose proof (Nat.mod_upper_bound (x - 10 + 9) 10).
  lia.
Qed.

Lemma batch_requests_length fuel : forall names i,
  (List.length names - i <= fuel)%nat ->
  List.length (batch_requests names i fuel)
  = ((List.length names - i + 9) / 10)%nat.
Proof.
  induction fuel as [|f IH]; intros names i H; cbn [batch_requests].
  - replace (List.length names - i)%nat with 0%nat by lia. reflexivity.
  - destruct (Nat.ltb_spec i (List.length names)).
    + cbn [List.length]. rewrite IH by (unfold GET_PARAMETERS_LIMIT; lia).
      unfold GET_PARAMETERS_LIMIT.
      rewrite (ceil_step (List.length names - i)) by lia.
      f_equal. f_equal. lia.
    + replace (List.length names - i)%nat with 0%nat by lia. reflexivity.
Qed.

Lemma batch_requests_lookup fuel : forall names i k req,
  batch_requests names i fuel !! k = Some req ->
  gp_Names req = slice names (i + 10 * k) (i + 10 * k + 10)
  /\ (0 < List.length (gp_Names req) <= 10)%nat
  /\ gp_WithDecryption req = Some true.
Proof.
  induction fuel as [|f IH]; intros names i k req H; simpl in H.
  - discriminate.
  - destruct (Nat.ltb_spec i (List.length names)); [|discriminate].
    destruct k as [|k]; simpl in H.
    + inversion H; subst; clear H. simpl.
      replace (i + 0)%nat with i by lia. unfold GET_PARAMETERS_LIMIT.
      split; [reflexivity|]. split; [|reflexivity].
      unfold slice. rewrite length_firstn, length_skipn. lia.
    + apply IH in H. unfold GET_PARAMETERS_LIMIT in H.
      replace (i + 10 * S k)%nat with (i + 10 + 10 * k)%nat by lia.
      exact H.
Qed.

(** C5: the names of a list of [n] by-name entries are cut, in order, into
    the consecutive slices [10k .. 10k+10); one get-parameters call is
    made per slice, [ceil(n/10)] in all, whatever the client answers; each
    carries between one and ten names and asks for decryption.  A hundred
    entries make ten calls; no entry makes no call and gives the empty
    list. *)
Theorem C5_name_batches ssm dataList w :
  let names := map name dataList in
  let reqs := name_requests dataList in
  snd (getParameters ssm dataList w)
  = mkWorld (heap w) (calls w ++ map CallGetParameters reqs)
  /\ concat (map gp_Names reqs) = names
  /\ List.length reqs = ((List.length dataList + 9) / 10)%nat
  /\ (forall k req, reqs !! k = Some req ->
        gp_Names req = slice names (10 * k) (10 * k + 10)
        /\ (0 < List.length (gp_Names req) <= 10)%nat
        /\ gp_WithDecryption req = Some true)
  /\ (List.length dataList = 100%nat -> List.length reqs = 10%nat)
  /\ (dataList = [] -> reqs = [] /\ getParameters ssm dataList w = (Ret [], w)).
Proof.
  intros names reqs.
  assert (Hlen : List.length reqs = ((List.length dataList + 9) / 10)%nat).
  { unfold reqs, name_requests. rewrite batch_requests_length by lia.
    rewrite length_map. now rewrite Nat.sub_0_r. }
  split; [apply getParameters_world|].
  split.
  { unfold reqs, name_requests. now rewrite batch_requests_concat by lia. }
  split; [exact Hlen|].
  split.
  { intros k req H. unfold reqs, name_requests in H.
    apply batch_requests_lookup in H. exact H. }
  split.
  { intros H. rewrite Hlen, H. reflexivity. }
  intros ->. split; reflexivity.
Qed.

Lemma C5_name_batches_witness :
  List.length (name_requests hundred_names) = 10%nat
  /\ (exists req, name_requests hundred_names !! 9%nat = Some req
        /\ gp_Names req = slice (map name hundred_names) 90 100
        /\ (0 < List.length (gp_Names req) <= 10)%nat
        /\ gp_WithDecryption req = Some true)
  /\ getParameters (table_client [] []) [] empty_world = (Ret [], empty_world).
Proof.
  destruct (C5_name_batches (table_client [] []) hundred_names empty_world)
    as (_ & _ & _ & Hk & H100 & _).
  destruct (C5_name_batches (table_client [] []) [] empty_world)
    as (_ & _ & _ & _ & _ & Hnil).
  split; [apply H100; reflexivity|].
  split.
  { eexists. split; [vm_compute; reflexivity|].
    apply (Hk 9%nat). vm_compute. reflexivity. }
  apply Hnil. reflexivity.
Defined.

(** ** What each phase does to the store and to the call log *)

Lemma getParametersByPath_world fuel : forall ssm data tok w,
  exists reqs,
    snd (getParametersByPath fuel ssm data tok w)
    = mkWorld (heap w) (calls w ++ map CallGetParametersByPath reqs).
Proof.
  induction fuel as [|f IH]; intros ssm data tok w; simpl.
  - exists []. destruct w; simpl. now rewrite app_nil_r.
  - unfold bind, log_call. simpl.
    set (req := mkGetParametersByPathRequest _ _ _ _).
    destruct (ssm_getParametersByPath ssm req) as [e|r]; simpl.
    + exists [req]. reflexivity.
    + destruct (token_present (gbp_ResultNextToken r)).
      * destruct (IH ssm data (gbp_ResultNextToken r)
                    (mkWorld (heap w) (calls w ++ [CallGetParametersByPath req])))
          as (reqs & Hr).
        exists (req :: reqs).
        destruct (getParametersByPath f ssm data (gbp_ResultNextToken r) _)
          as [[x| |] w2]; simpl in *; subst w2; simpl;
          now rewrite <- app_assoc.
      * exists [req]. reflexivity.
Qed.

Lemma run_each_paths_world fuel ssm : forall (dataList : list ByPathEntryData) w,
  exists reqs,
    snd (run_each
           (fun data : ByPathEntryData =>
              bind (getParametersByPath fuel ssm data None)
                (fun parameters => ret (path data, parameters)))
           dataList w)
    = mkWorld (heap w) (calls w ++ map CallGetParametersByPath reqs).
Proof.
  induction dataList as [|d rest IH]; intros w; simpl.
  - exists []. destruct w; simpl. now rewrite app_nil_r.
  - destruct (getParametersByPath_world fuel ssm d None w) as (r1 & H1).
    unfold bind at 1.
    destruct (getParametersByPath fuel ssm d None w) as [x w1]. simpl in H1.
    subst w1.
    set (w1 := mkWorld (heap w) (calls w ++ map CallGetParametersByPath r1)).
    destruct (IH w1) as (r2 & H2).
    exists (r1 ++ r2).
    assert (E : forall (x' : res (string * ParameterList)),
               snd (let '(r, w1') := (x', w1) in
                    let '(rs, w2) := run_each
                      (fun data : ByPathEntryData =>
                         bind (getParametersByPath fuel ssm data None)
                           (fun parameters => ret (path data, parameters)))
                      rest w1' in (r :: rs, w2))
               = mkWorld (heap w) (calls w ++ map CallGetParametersByPath (r1 ++ r2))).
    { intros x'. destruct (run_each _ rest w1) as [rs w2]. simpl in *.
      rewrite H2. unfold w1. simpl. now rewrite map_app, app_assoc. }
    destruct x as [a| |]; apply E.
Qed.

Lemma getParametersByPaths_world fuel ssm dataList w :
  exists reqs,
    snd (getParametersByPaths fuel ssm dataList w)
    = mkWorld (heap w) (calls w ++ map CallGetParametersByPath reqs).
Proof.
  unfold getParametersByPaths. destruct dataList as [|d rest].
  - exists []. destruct w; simpl. now rewrite app_nil_r.
  - destruct (run_each_paths_world fuel ssm (d :: rest) w) as (reqs & H).
    exists reqs. destruct (run_each _ (d :: rest) w) as [rs w']. exact H.
Qed.

(** ** Writes stay in the upper region *)

Lemma same_below_refl n h : same_below n h h.
Proof. intros l _. reflexivity. Qed.

Lemma same_below_trans n h1 h2 h3 :
  same_below n h1 h2 -> same_below n h2 h3 -> same_below n h1 h3.
Proof. intros H12 H23 l Hl. rewrite H23, H12; auto. Qed.

Lemma keeps_ret n {A} (a : A) (Q : A -> Prop) : Q a -> keeps n (ret a) Q.
Proof.
  intros HQ w Hc. simpl. repeat split; try apply Hc; auto using same_below_refl.
  intros a' E. inversion E. now subst.
Qed.

Lemma keeps_throw n {A} e (Q : A -> Prop) : keeps n (throw e) Q.
Proof.
  intros w Hc. simpl. repeat split; try apply Hc; auto using same_below_refl.
  intros a' E. discriminate.
Qed.

Lemma keeps_bind n {A B} (c : M A) (k : A -> M B) Q R :
  keeps n c Q -> (forall a, Q a -> keeps n (k a) R) -> keeps n (bind c k) R.
Proof.
  intros Hc Hk w Hw. destruct (Hc w Hw) as (H1 & H2 & H3 & H4).
  unfold bind. destruct (c w) as [[a| |] w1]; simpl in *.
  - destruct (Hk a (H4 a eq_refl) w1 H1) as (K1 & K2 & K3 & K4).
    repeat split; try apply K1; eauto using same_below_trans; congruence.
  - repeat split; try apply H1; auto. discriminate.
  - repeat split; try apply H1; auto. discriminate.
Qed.


Lemma keeps_lift_read n {A} (f : list object -> res A) (Q : A -> Prop) :
  (forall h a, closed_above n h -> f h = Ret a -> Q a) ->
  keeps n (lift_read f) Q.
Proof.
  intros Hf w Hw. unfold lift_read. simpl.
  repeat split; try apply Hw; auto using same_below_refl.
  intros a E. eauto.
Qed.


Lemma fresh_props_set n k v ps :
  fresh_props n ps -> fresh_val n v -> fresh_props n (props_set k v ps).
Proof.
  unfold fresh_props, props_set. intros Hps Hv.
  destruct (assoc_get k ps).
  - clear -Hps Hv. induction ps as [|[k' v'] r IH]; simpl; [constructor|].
    inversion Hps; subst.
    destruct (String.eqb k k'); constructor; auto.
  - destruct (JsString.array_index k) as [i|].
    + clear -Hps Hv. induction ps as [|[k' v'] r IH]; simpl.
      * repeat constructor. exact Hv.
      * inversion Hps; subst.
        destruct (JsString.array_index k') as [j|];
          [destruct (j <? i)%N|]; repeat constructor; auto.
    + apply Forall_app. split; [assumption|]. repeat constructor. exact Hv.
Qed.

Lemma fresh_props_remove n k ps :
  fresh_props n ps -> fresh_props n (assoc_remove k ps).
Proof.
  unfold fresh_props. induction ps as [|[k' v'] r IH]; simpl; intros H;
    [constructor|].
  inversion H; subst. destruct (String.eqb k k'); [assumption|].
  constructor; auto.
Qed.

Lemma fresh_assoc_get n k ps v :
  fresh_props n ps -> assoc_get k ps = Some v -> fresh_val n v.
Proof.
  unfold fresh_props. induction ps as [|[k' v'] r IH]; simpl; intros H E;
    [discriminate|].
  inversion H; subst. destruct (String.eqb k k'); [|auto].
  inversion E; subst. assumption.
Qed.

Lemma closed_read_obj n h l :
  closed_above n h -> (n <= l)%nat -> fresh_props n (props (read_obj h l)).
Proof.
  intros [_ Hc] Hl. unfold read_obj.
  destruct (h !! l) as [o|] eqn:E; [eauto|constructor].
Qed.

Lemma fresh_get_prop n h v k x :
  closed_above n h -> fresh_val n v -> get_prop h v k = Ret x -> fresh_val n x.
Proof.
  intros Hc Hv E. destruct v; simpl in *; try discriminate;
    inversion E; subst; clear E; try exact I.
  - unfold char_at. destruct (JsString.array_index k); [|exact I].
    destruct (String.get _ s); exact I.
  - unfold obj_get. destruct (assoc_get k _) eqn:G; [|exact I].
    eapply fresh_assoc_get; [|exact G]. now apply closed_read_obj.
Qed.

Lemma closed_above_insert n h l o :
  closed_above n h -> (n <= l)%nat -> fresh_props n (props o) ->
  closed_above n (<[l := o]> h).
Proof.
  intros [Hn Hc] Hl Ho. split; [now rewrite length_insert|].
  intros l' o' Hl' E.
  destruct (Nat.eq_dec l l') as [->|Hne].
  - destruct (Nat.lt_ge_cases l' (List.length h)).
    + rewrite list_lookup_insert_eq in E by assumption. inversion E; now subst.
    + rewrite list_insert_ge in E by assumption. eauto.
  - rewrite list_lookup_insert_ne in E by assumption. eauto.
Qed.

Lemma keeps_alloc n o :
  fresh_props n (props o) -> keeps n (alloc o) (fresh_val n).
Proof.
  intros Ho w [Hn Hc]. unfold alloc. simpl. split; [split|split; [|split]].
  - rewrite length_app. simpl. lia.
  - intros l o' Hl E. apply lookup_app_Some in E as [E|[Hge E]]; [eauto|].
    destruct (l - List.length (heap w))%nat; simpl in E; [|discriminate].
    inversion E; now subst.
  - intros l Hl. apply lookup_app_l. lia.
  - reflexivity.
  - intros a E. inversion E; subst. simpl. lia.
Qed.

Lemma keeps_set_prop n v k x :
  fresh_val n v -> fresh_val n x -> keeps n (set_prop v k x) (fun _ => True).
Proof.
  intros Hv Hx. destruct v; try apply keeps_throw.
  intros w Hw. simpl in *. split; [|split; [|split]]; auto.
  - apply closed_above_insert; auto. simpl.
    apply fresh_props_set; auto. now apply closed_read_obj.
  - intros l' Hl'. apply list_lookup_insert_ne. lia.
Qed.

Lemma keeps_delete_prop n v k :
  fresh_val n v -> keeps n (delete_prop v k) (fun _ => True).
Proof.
  intros Hv. destruct v; simpl; try apply keeps_throw;
    try (apply keeps_ret; exact I).
  - destruct (char_at s k); try apply keeps_throw. apply keeps_ret; exact I.
  - intros w Hw. simpl in *. split; [|split; [|split]]; auto.
    + apply closed_above_insert; auto. simpl.
      apply fresh_props_remove. now apply closed_read_obj.
    + intros l' Hl'. apply list_lookup_insert_ne. lia.
Qed.

Lemma fresh_props_indexed n ls i : fresh_props n (indexed i ls).
Proof.
  revert i. induction ls as [|s r IH]; intros i; simpl; constructor; simpl; auto.
  apply IH.
Qed.

Lemma keeps_store_value n x : keeps n (store_value x) (fresh_val n).
Proof.
  destruct x as [s|ls]; simpl.
  - apply keeps_ret. exact I.
  - apply keeps_alloc. simpl. apply fresh_props_indexed.
Qed.

Lemma keeps_get_prop n v k :
  fresh_val n v -> keeps n (lift_read (fun h => get_prop h v k)) (fresh_val n).
Proof.
  intros Hv. apply keeps_lift_read. intros h a Hh E.
  eapply fresh_get_prop; eauto.
Qed.

Lemma keeps_ensureNestedObject n nestedKeys : forall o,
  fresh_val n o -> keeps n (ensureNestedObject o nestedKeys) (fresh_val n).
Proof.
  induction nestedKeys as [|k rest IH]; intros o Ho; simpl.
  - now apply keeps_ret.
  - eapply keeps_bind; [now apply keeps_get_prop|]. intros cur Hcur.
    eapply keeps_bind with (Q := fun _ => True).
    { destruct (truthy cur); [now apply keeps_ret|].
      eapply keeps_bind; [apply keeps_alloc; constructor|].
      intros fresh Hf. now apply keeps_set_prop. }
    intros _ _.
    eapply keeps_bind; [now apply keeps_get_prop|]. intros next Hnext.
    destruct rest; [now apply keeps_ret|now apply IH].
Qed.

Lemma keeps_place_parameter n path map p :
  fresh_val n map -> keeps n (place_parameter path map p) (fresh_val n).
Proof.
  intros Hm. unfold place_parameter.
  destruct (nonempty (p_Name p)) as [Name|]; [|now apply keeps_ret].
  eapply keeps_bind with (Q := fresh_val n).
  { destruct (Z.ltb _ _); [now apply keeps_ensureNestedObject|now apply keeps_ret]. }
  intros item Hitem.
  eapply keeps_bind; [apply keeps_store_value|]. intros v Hv.
  eapply keeps_bind; [now apply keeps_set_prop|]. intros _ _.
  now apply keeps_ret.
Qed.

Lemma keeps_reduce_parameters n path ps : forall map,
  fresh_val n map -> keeps n (reduce_parameters path ps map) (fresh_val n).
Proof.
  induction ps as [|p rest IH]; intros map Hm; simpl.
  - now apply keeps_ret.
  - eapply keeps_bind; [now apply keeps_place_parameter|]. intros map' Hm'.
    now apply IH.
Qed.

Lemma keeps_findValuesByPath n (paramsByPath : ParamsByPath) path :
  keeps n (findValuesByPath paramsByPath path) (fresh_val n).
Proof.
  unfold findValuesByPath. destruct (paramsByPath !! path) as [ps|];
    [|apply keeps_throw].
  eapply keeps_bind; [apply keeps_alloc; constructor|]. intros map Hm.
  now apply keeps_reduce_parameters.
Qed.

Lemma keeps_expandEntry n params paramsByPath e :
  fresh_val n (parent e) ->
  keeps n (expandEntry params paramsByPath e) (fun _ => True).
Proof.
  intros He. unfold expandEntry.
  eapply keeps_bind; [now apply keeps_delete_prop|]. intros _ _.
  eapply keeps_bind with (Q := fresh_val n).
  { destruct (data e) as [d|d].
    - eapply keeps_bind with (Q := fun _ => True).
      + apply keeps_lift_read. auto.
      + intros x _. apply keeps_store_value.
    - apply keeps_findValuesByPath. }
  intros v Hv. now apply keeps_set_prop.
Qed.

Lemma keeps_expandEntries n params paramsByPath entries :
  Forall (fun e => fresh_val n (parent e)) entries ->
  keeps n (expandEntries entries params paramsByPath) (fun _ => True).
Proof.
  induction 1 as [|e rest He Hrest IH]; simpl.
  - now apply keeps_ret.
  - eapply keeps_bind; [now apply keeps_expandEntry|]. intros _ _. exact IH.
Qed.

(** ** Entries point into the region they were found in *)




(** ** The copy is made of fresh cells *)

Lemma fresh_props_indexed_vals n vs i :
  Forall (fresh_val n) vs -> fresh_props n (indexed_vals i vs).
Proof.
  intros H. revert i. induction H as [|v r Hv Hr IH]; intros i; simpl;
    constructor; simpl; auto. apply IH.
Qed.

Lemma fresh_props_of_members n kvs :
  fresh_props n kvs -> fresh_props n (props_of_members kvs).
Proof.
  unfold props_of_members.
  assert (G : forall acc, fresh_props n acc -> fresh_props n kvs ->
                fresh_props n (fold_left
                  (fun ps kv => props_set (fst kv) (snd kv) ps) kvs acc)).
  { induction kvs as [|[k v] r IH]; intros acc Ha Hk; simpl; [assumption|].
    inversion Hk; subst. apply IH; [|assumption].
    now apply fresh_props_set. }
  intros H. apply G; [constructor|assumption].
Qed.

Lemma keeps_revive n j : keeps n (revive j) (fresh_val n).
Proof.
  induction j as [| b | z | s | items IH | members IH] using json_induction;
    cbn [revive]; try (apply keeps_ret; exact I).
  - eapply keeps_bind with (Q := Forall (fresh_val n)).
    + induction IH as [|x r Hx Hr IHr]; cbn [revive_items];
        [apply keeps_ret; constructor|].
      eapply keeps_bind; [exact Hx|]. intros v Hv.
      eapply keeps_bind; [exact IHr|]. intros vs Hvs.
      apply keeps_ret. now constructor.
    + intros vs Hvs. apply keeps_alloc. simpl.
      now apply fresh_props_indexed_vals.
  - eapply keeps_bind with (Q := fresh_props n).
    + induction IH as [|[k x] r Hx Hr IHr]; cbn [revive_members];
        [apply keeps_ret; constructor|].
      eapply keeps_bind; [exact Hx|]. intros v Hv.
      eapply keeps_bind; [exact IHr|]. intros kvs Hkvs.
      apply keeps_ret. now constructor.
    + intros kvs Hkvs. apply keeps_alloc. simpl.
      now apply fresh_props_of_members.
Qed.

Lemma keeps_json_clone n fuel obj : keeps n (json_clone fuel obj) (fresh_val n).
Proof.
  unfold json_clone.
  eapply keeps_bind with (Q := fun _ => True); [apply keeps_lift_read; auto|].
  intros [x|] _; [apply keeps_revive|apply keeps_throw].
Qed.

Lemma closed_above_length (h : list object) : closed_above (List.length h) h.
Proof.
  split; [lia|]. intros l o Hl E. apply lookup_lt_Some in E. lia.
Qed.

(** ** The orchestrator, phase by phase *)

Lemma fresh_val_0 v : fresh_val 0 v.
Proof. destruct v; simpl; auto with arith. Qed.

Lemma closed_above_0 h : closed_above 0 h.
Proof.
  split; [lia|]. intros l o _ _. unfold fresh_props.
  apply Forall_forall. intros x _. apply fresh_val_0.
Qed.






Lemma inject_unfold fuel ssm obj opts :
  inject fuel ssm obj opts
  = bind (working_object fuel (merge_options defaultOptions opts) obj)
      (fun obj' =>
         bind (lift_read (fun h => findEntries fuel h obj'
                  (itemParser (merge_options defaultOptions opts))))
           (fun entries => fetch_and_expand fuel ssm obj' entries)).
Proof. reflexivity. Qed.

Lemma inject_after_entries fuel ssm obj opts w obj' w1 entries :
  working_object fuel (merge_options defaultOptions opts) obj w = (Ret obj', w1) ->
  findEntries fuel (heap w1) obj'
    (itemParser (merge_options defaultOptions opts)) = Ret entries ->
  inject fuel ssm obj opts w = fetch_and_expand fuel ssm obj' entries w1.
Proof.
  intros Hw He. rewrite inject_unfold.
  rewrite (bind_ret_run _ _ _ _ _ Hw).
  unfold bind at 1. unfold lift_read. now rewrite He.
Qed.

Lemma not_awaited_expand_world entries params paramsByPath w :
  exists w',
    not_awaited (expandEntries entries params paramsByPath) w = (Ret tt, w')
    /\ calls w' = calls w.
Proof.
  destruct (keeps_expandEntries 0 params paramsByPath entries) with (w := w)
    as (_ & _ & Hcalls & _).
  { apply Forall_forall. intros e _. apply fresh_val_0. }
  { apply closed_above_0. }
  unfold not_awaited.
  destruct (expandEntries entries params paramsByPath w) as [r w']. eauto.
Qed.

Lemma fetch_and_expand_name_failure fuel ssm obj entries w e :
  fst (getParameters ssm (byNameData entries) w) = Throw e ->
  fetch_and_expand fuel ssm obj entries w
  = (Throw e,
     mkWorld (heap w)
       (calls w ++ map CallGetParameters (name_requests (byNameData entries)))).
Proof.
  intros H. unfold fetch_and_expand.
  pose proof (getParameters_world ssm (byNameData entries) w) as Hw.
  unfold bind at 1.
  destruct (getParameters ssm (byNameData entries) w) as [r w1].
  simpl in *. subst. reflexivity.
Qed.

Lemma fetch_and_expand_calls fuel ssm obj entries w :
  exists pathReqs,
    calls (snd (fetch_and_expand fuel ssm obj entries w))
    = calls w ++ map CallGetParameters (name_requests (byNameData entries))
      ++ map CallGetParametersByPath pathReqs.
Proof.
  unfold fetch_and_expand.
  pose proof (getParameters_world ssm (byNameData entries) w) as Hw.
  unfold bind at 1.
  destruct (getParameters ssm (byNameData entries) w) as [[params| |] w1];
    simpl in Hw; subst w1;
    try (exists []; simpl; now rewrite app_nil_r).
  set (w1 := mkWorld _ _).
  destruct (getParametersByPaths_world fuel ssm (byPathData entries) w1)
    as (reqs & Hp).
  exists reqs. unfold bind at 1.
  destruct (getParametersByPaths fuel ssm (byPathData entries) w1)
    as [[pbp| |] w2]; simpl in Hp; subst w2; simpl;
    try (now rewrite app_assoc).
  destruct (not_awaited_expand_world entries params pbp
              (mkWorld (heap w) (calls w1 ++ map CallGetParametersByPath reqs)))
    as (w3 & E & Hc).
  rewrite (bind_ret_run _ _ _ _ _ E). simpl. rewrite Hc. simpl.
  now rewrite app_assoc.
Qed.

Lemma working_object_frame fuel options obj w :
  let n := List.length (heap w) in
  let r := fst (working_object fuel options obj w) in
  let w1 := snd (working_object fuel options obj w) in
  closed_above n (heap w1)
  /\ same_below n (heap w) (heap w1)
  /\ calls w1 = calls w
  /\ (mutate options = true -> r = Ret obj /\ w1 = w)
  /\ (mutate options = false -> forall v, r = Ret v -> fresh_val n v).
Proof.
  intros n r w1. unfold working_object in *.
  destruct (mutate options) eqn:Hm.
  - subst r w1. simpl. repeat split; auto using same_below_refl;
      try apply closed_above_length; try discriminate.
  - destruct (keeps_json_clone n fuel obj w (closed_above_length _))
      as (H1 & H2 & H3 & H4).
    repeat split; try apply H1; auto; discriminate.
Qed.

(** C2: whatever the client answers, every batch of names is handed to
    it.  When all batches are fulfilled and some invalid name came back,
    the fetch throws one [InvalidParametersError] with the invalid names of
    all batches, in batch order; [inject] rejects with it, having made no
    by-path call and changed no cell of the caller's store (with
    [mutate] the store is exactly as it was).  With no invalid name the
    fetch returns the parameters of all batches, in batch order. *)
Theorem C2_invalid_names_aggregated :
  (forall ssm dataList w,
     snd (getParameters ssm dataList w)
     = mkWorld (heap w)
         (calls w ++ map CallGetParameters (name_requests dataList)))
  /\ (forall ssm dataList w fulfilled,
        promise_all (map (ssm_getParameters ssm) (name_requests dataList))
        = inr fulfilled ->
        (concat (map invalid_names fulfilled) <> [] ->
         fst (getParameters ssm dataList w)
         = Throw (InvalidParametersError (concat (map invalid_names fulfilled))))
        /\ (concat (map invalid_names fulfilled) = [] ->
            fst (getParameters ssm dataList w)
            = Ret (concat (map returned_parameters fulfilled))))
  /\ (forall fuel ssm obj opts w obj' w1 entries fulfilled,
        let options := merge_options defaultOptions opts in
        working_object fuel options obj w = (Ret obj', w1) ->
        findEntries fuel (heap w1) obj' (itemParser options) = Ret entries ->
        promise_all (map (ssm_getParameters ssm)
                       (name_requests (byNameData entries))) = inr fulfilled ->
        concat (map invalid_names fulfilled) <> [] ->
        inject fuel ssm obj opts w
        = (Throw (InvalidParametersError (concat (map invalid_names fulfilled))),
           mkWorld (heap w1)
             (calls w ++ map CallGetParameters
                           (name_requests (byNameData entries))))
        /\ same_below (List.length (heap w)) (heap w) (heap w1)
        /\ (mutate options = true -> heap w1 = heap w)).
Proof.
  split; [apply getParameters_world|]. split.
  - intros ssm dataList w fulfilled H.
    pose proof (getParameters_fulfilled ssm dataList w fulfilled H) as E.
    split; intros Hi; rewrite E.
    + destruct (concat (map invalid_names fulfilled)); [contradiction|reflexivity].
    + now rewrite Hi.
  - intros fuel ssm obj opts w obj' w1 entries fulfilled options Hw He Hp Hi.
    destruct (working_object_frame fuel options obj w) as (_ & Hs & Hc & Hm & _).
    fold options in Hw. rewrite Hw in Hs, Hc, Hm. simpl in Hs, Hc, Hm.
    split; [|split; [exact Hs|]].
    + rewrite (inject_after_entries _ _ _ _ _ _ _ _ Hw He).
      rewrite <- Hc. apply fetch_and_expand_name_failure.
      rewrite (getParameters_fulfilled _ _ _ _ Hp).
      destruct (concat (map invalid_names fulfilled)); [contradiction|reflexivity].
    + intros Ht. destruct (Hm Ht) as [_ ->]. reflexivity.
Qed.

Lemma C2_invalid_names_aggregated_witness :
  inject 2 (table_client ten_params []) (VRef 0) None
    (one_object_world twelve_refs)
  = (Throw (InvalidParametersError ["/p0"; "/p11"]),
     mkWorld (heap (one_object_world twelve_refs))
       (map CallGetParameters
          [mkGetParametersRequest
             (map (fun i => String.append "/p" (JsString.of_nat i)) (seq 0 10))
             (Some true);
           mkGetParametersRequest ["/p10"; "/p11"] (Some true)]))
  /\ fst (getParameters (table_client ten_params [])
            [mkByName "/p1"; mkByName "/p2"] empty_world)
     = Ret [string_param "/p1" "value1"; string_param "/p2" "value2"].
Proof.
  destruct C2_invalid_names_aggregated as (_ & HB & HC).
  split.
  - destruct (HC 2%nat (table_client ten_params []) (VRef 0) None
                (one_object_world twelve_refs) (VRef 0)
                (one_object_world twelve_refs)
                (match findEntries 2 (heap (one_object_world twelve_refs))
                         (VRef 0) defaultItemParser with
                 | Ret es => es
                 | _ => []
                 end)
                (map (fun r => match ssm_getParameters
                                       (table_client ten_params []) r with
                               | inr x => x
                               | inl _ => mkGetParametersResult None None
                               end)
                   (name_requests
                      (map (fun i => mkByName
                              (String.append "/p" (JsString.of_nat i)))
                         (seq 0 12)))))
      as (H & _ & _).
    + reflexivity.
    + vm_compute. reflexivity.
    + vm_compute. reflexivity.
    + vm_compute. discriminate.
    + rewrite H. vm_compute. reflexivity.
  - destruct (HB (table_client ten_params []) [mkByName "/p1"; mkByName "/p2"]
                empty_world
                [mkGetParametersResult
                   (Some [string_param "/p1" "value1"; string_param "/p2" "value2"])
                   (Some [])]) as (_ & H).
    + vm_compute. reflexivity.
    + rewrite H; reflexivity.
Defined.

(** C3, as stated, fails: with an unknown name next to a by-path
    reference, both entries are found, [inject] rejects, and the only call
    ever made is the get-parameters call; the first page of the by-path
    entry was never requested. *)
Lemma C3_counterexample :
  exists entries d,
    findEntries 2 (heap unknown_name_world) (VRef 0) defaultItemParser
    = Ret entries
    /\ In d (byPathData entries)
    /\ inject 2 (table_client [] nested_pages) (VRef 0) None unknown_name_world
       = (Throw (InvalidParametersError ["/bar"]),
          mkWorld (heap unknown_name_world)
            [CallGetParameters (mkGetParametersRequest ["/bar"] (Some true))])
    /\ ~ In (CallGetParametersByPath (first_page_request d))
           (calls (snd (inject 2 (table_client [] nested_pages) (VRef 0) None
                          unknown_name_world))).
Proof.
  eexists _, (mkByPath "/nested" VUndef).
  split; [vm_compute; reflexivity|].
  split; [left; reflexivity|].
  split; [vm_compute; reflexivity|].
  vm_compute. intros [H|[]]. discriminate.
Qed.

(** C3, amended: the name fetch is awaited before the path fetch is
    dispatched.  In the call log the get-parameters calls come first and
    the by-path calls after them; when the name fetch fails, [inject]
    fails with the same error, no by-path call is made, and nothing is
    reconstructed: the store is the one the entries were found in. *)
Theorem C3_name_fetch_first fuel ssm obj opts w obj' w1 entries :
  let options := merge_options defaultOptions opts in
  working_object fuel options obj w = (Ret obj', w1) ->
  findEntries fuel (heap w1) obj' (itemParser options) = Ret entries ->
  (exists pathReqs,
     calls (snd (inject fuel ssm obj opts w))
     = calls w ++ map CallGetParameters (name_requests (byNameData entries))
       ++ map CallGetParametersByPath pathReqs)
  /\ (forall e,
        fst (getParameters ssm (byNameData entries) w1) = Throw e ->
        inject fuel ssm obj opts w
        = (Throw e,
           mkWorld (heap w1)
             (calls w ++ map CallGetParameters
                           (name_requests (byNameData entries))))).
Proof.
  intros options Hw He.
  destruct (working_object_frame fuel options obj w) as (_ & _ & Hc & _).
  rewrite Hw in Hc. simpl in Hc.
  rewrite (inject_after_entries _ _ _ _ _ _ _ _ Hw He). rewrite <- Hc.
  split; [apply fetch_and_expand_calls|].
  intros e Hf. now apply fetch_and_expand_name_failure.
Qed.

Lemma C3_name_fetch_first_witness :
  (exists pathReqs,
     calls (snd (inject 2 (table_client [] nested_pages) (VRef 0) None
                   unknown_name_world))
     = [] ++ map CallGetParameters
               (name_requests [mkByName "/bar"])
       ++ map CallGetParametersByPath pathReqs)
  /\ inject 2 (table_client [] nested_pages) (VRef 0) None
       unknown_name_world
     = (Throw (InvalidParametersError ["/bar"]),
        mkWorld [mkObject None [("a:ssm:name", VStr "/bar");
                                ("p:ssm:path", VStr "/nested")]]
          ([] ++ map CallGetParameters (name_requests [mkByName "/bar"]))).
Proof.
  destruct (C3_name_fetch_first 2 (table_client [] nested_pages) (VRef 0) None
              unknown_name_world
              (VRef 0)
              unknown_name_world
              [mkEntry (VRef 0) "a" "a:ssm:name" (ByName (mkByName "/bar"));
               mkEntry (VRef 0) "p" "p:ssm:path"
                 (ByPath (mkByPath "/nested" VUndef))])
    as (H1 & H2).
  - reflexivity.
  - vm_compute. reflexivity.
  - split; [exact H1|]. apply H2. vm_compute. reflexivity.
Defined.

(** C1, on the code: [expandEntries] does throw when a name is not
    among the fetched parameters, but [inject] does not await it.  With a
    client that returns only [/letter], the entry for [/letter] is applied,
    the key of the entry for [/other] is deleted, and [inject] resolves
    with this half-rewritten object. *)
Theorem C1_missing_parameter_swallowed :
  expandEntries
    [mkEntry (VRef 0) "a" "a:ssm" (ByName (mkByName "/letter"));
     mkEntry (VRef 0) "b" "b:ssm" (ByName (mkByName "/other"))]
    [string_param "/letter" "c"] ∅
    (one_object_world [("a:ssm", VStr "/letter"); ("b:ssm", VStr "/other")])
  = (Throw (Error "Unexpected error: parameter /other not found"),
     one_object_world [("a", VStr "c")])
  /\ inject 2 letter_only_client (VRef 0) None
       (one_object_world [("a:ssm", VStr "/letter"); ("b:ssm", VStr "/other")])
     = (Ret (VRef 0),
        mkWorld [mkObject None [("a", VStr "c")]]
          [CallGetParameters
             (mkGetParametersRequest ["/letter"; "/other"] (Some true))]).
Proof. split; vm_compute; reflexivity. Qed.

(** ** The default item parser *)

Lemma reference_key_segments key :
  reference_key key
  = (match nth_error (JsString.split ":" key) 1 with
     | Some s => String.eqb s "ssm"
     | None => false
     end
     && by_in ["name"; "path"] (nth_error (JsString.split ":" key) 2))%bool.
Proof.
  unfold reference_key, by_in.
  destruct (JsString.split ":" key) as [|a [|s [|b rest]]]; simpl;
    rewrite ?orb_false_r, ?andb_true_r; reflexivity.
Qed.

Lemma defaultItemParser_other_key h key value :
  reference_key key = false -> defaultItemParser h key value = Ret [].
Proof.
  rewrite reference_key_segments. unfold defaultItemParser. intros H.
  destruct (nth_error (JsString.split ":" key) 1) as [s|]; simpl in *.
  - destruct (String.eqb s "ssm"); simpl in *; [|reflexivity].
    now rewrite H.
  - reflexivity.
Qed.

Lemma defaultItemParser_entries h key value cs :
  defaultItemParser h key value = Ret cs -> cs <> [] ->
  reference_key key = true
  /\ exists c, cs = [c]
               /\ call_key c = nth 0 (JsString.split ":" key) EmptyString.
Proof.
  intros E Hne.
  destruct (reference_key key) eqn:R.
  - split; [reflexivity|]. unfold defaultItemParser in E.
    destruct (_ || _)%bool; [inversion E; subst; contradiction|].
    destruct (string_field h value "name") as [nm| |]; simpl in E;
      try discriminate.
    destruct (if by_in ["name"] _ then nonempty nm else None) as [n|].
    { inversion E; subst. eexists. split; reflexivity. }
    destruct (string_field h value "path") as [pt| |]; simpl in E;
      try discriminate.
    destruct (if by_in ["path"] _ then nonempty pt else None) as [p|].
    + destruct (if isObject value then _ else _) as [r| |]; simpl in E;
        try discriminate.
      inversion E; subst. eexists. split; reflexivity.
    + inversion E; subst. contradiction.
  - rewrite (defaultItemParser_other_key h key value R) in E.
    inversion E; subst. contradiction.
Qed.

Lemma defaultItemParser_null h key :
  reference_key key = true -> defaultItemParser h key VNull = Throw TypeError.
Proof.
  rewrite reference_key_segments. unfold defaultItemParser. intros H.
  apply andb_true_iff in H as [H1 H2]. rewrite H2.
  destruct (nth_error (JsString.split ":" key) 1) as [s|]; [|discriminate].
  rewrite H1. reflexivity.
Qed.

(** C4, as stated, fails: a key of four segments whose first three fit
    the pattern yields an entry. *)
Lemma C4_counterexample :
  List.length (JsString.split ":" "foo:ssm:name:bar") = 4%nat
  /\ defaultItemParser [] "foo:ssm:name:bar" (VStr "/letter")
     = Ret [addByNameEntry "foo" "/letter"].
Proof. split; reflexivity. Qed.

(** C4, amended: the default parser yields an entry only for keys whose
    second colon-delimited segment is [ssm] and whose third segment is
    absent, [name] or [path], whatever follows the third segment; it then
    yields one entry, under the first segment.  For every other key it
    yields nothing and does not throw, whatever the value. *)
Theorem C4_default_parser_keys h key value :
  (forall cs, defaultItemParser h key value = Ret cs -> cs <> [] ->
     reference_key key = true
     /\ exists c, cs = [c]
                  /\ call_key c = nth 0 (JsString.split ":" key) EmptyString)
  /\ (reference_key key = false -> defaultItemParser h key value = Ret []).
Proof.
  split.
  - intros cs. apply defaultItemParser_entries.
  - apply defaultItemParser_other_key.
Qed.

Lemma C4_default_parser_keys_witness :
  (reference_key "foo:ssm:name:bar" = true
   /\ exists c, [addByNameEntry "foo" "/letter"] = [c]
                /\ call_key c = "foo")
  /\ defaultItemParser [] "foo:ssm:id" VNull = Ret []
  /\ defaultItemParser [] "foo:bar" (VStr "/letter") = Ret [].
Proof.
  split; [|split].
  - apply (proj1 (C4_default_parser_keys [] "foo:ssm:name:bar" (VStr "/letter"))
             [addByNameEntry "foo" "/letter"]); [reflexivity|discriminate].
  - apply (proj2 (C4_default_parser_keys [] "foo:ssm:id" VNull)). reflexivity.
  - apply (proj2 (C4_default_parser_keys [] "foo:bar" (VStr "/letter"))).
    reflexivity.
Defined.

(** ** Null values *)

Lemma findEntries_null fuel h parser :
  findEntries (S fuel) h VNull parser = Throw TypeError.
Proof. reflexivity. Qed.

Lemma findEntries_null_member fuel h l o k rest parser :
  h !! l = Some o -> props o = (k, VNull) :: rest ->
  parser h k VNull = Ret [] ->
  findEntries (S (S fuel)) h (VRef l) parser = Throw TypeError.
Proof.
  intros Hl Hp Hk.
  cbn [findEntries]. unfold object_keys, obj_keys, read_obj at 1.
  rewrite Hl, Hp. cbn [map fst res_bind findEntries_loop].
  unfold parseItem, get_prop, obj_get, read_obj. rewrite Hl, Hp.
  cbn [assoc_get]. rewrite String.eqb_refl. cbn [res_bind].
  rewrite Hk. reflexivity.
Qed.

(** C10: a null value makes [inject] throw a [TypeError].  The entry
    finder fails on [null] itself; it descends into a null member that the
    parser passes over (shown for the first member of an object); and the
    default parser fails on a null value under any key that fits the
    reference pattern.  So [{ a: null }] and [{ "foo:ssm": null }] are both
    rejected, with no call made and the object as it was. *)
Theorem C10_null_values :
  (forall fuel h parser, findEntries (S fuel) h VNull parser = Throw TypeError)
  /\ (forall fuel h l o k rest parser,
        h !! l = Some o -> props o = (k, VNull) :: rest ->
        parser h k VNull = Ret [] ->
        findEntries (S (S fuel)) h (VRef l) parser = Throw TypeError)
  /\ (forall h key, reference_key key = true ->
        defaultItemParser h key VNull = Throw TypeError)
  /\ (forall ssm,
        inject 2 ssm (VRef 0) None (one_object_world [("a", VNull)])
        = (Throw TypeError, one_object_world [("a", VNull)]))
  /\ (forall ssm,
        inject 2 ssm (VRef 0) None (one_object_world [("foo:ssm", VNull)])
        = (Throw TypeError, one_object_world [("foo:ssm", VNull)])).
Proof.
  split; [exact findEntries_null|].
  split; [exact findEntries_null_member|].
  split; [exact defaultItemParser_null|].
  split; intros ssm; reflexivity.
Qed.

Lemma C10_null_values_witness :
  findEntries 2 [mkObject None [("a", VNull); ("b", VStr "b")]] (VRef 0)
    defaultItemParser = Throw TypeError
  /\ defaultItemParser [] "foo:ssm:path" VNull = Throw TypeError.
Proof.
  destruct C10_null_values as (_ & H2 & H3 & _).
  split.
  - apply (H2 0%nat [mkObject None [("a", VNull); ("b", VStr "b")]] 0%nat
              (mkObject None [("a", VNull); ("b", VStr "b")])
              "a" [("b", VStr "b")] defaultItemParser); reflexivity.
  - apply H3. reflexivity.
Defined.

(** ** The paginated path fetch *)

Lemma getParametersByPath_pages ssm data tok pages :
  page_chain ssm data tok pages ->
  forall fuel w, (List.length pages <= fuel)%nat ->
    getParametersByPath fuel ssm data tok w
    = (Ret (all_parameters pages),
       mkWorld (heap w)
         (calls w ++ map CallGetParametersByPath (page_requests data tok pages))).
Proof.
  induction 1 as [tok r Hr Ht | tok r rest Hr Ht Hc IH]; intros fuel w Hf;
    (destruct fuel as [|f]; [simpl in Hf; lia|]);
    cbn [getParametersByPath]; fold (page_request data tok);
    unfold bind, log_call; cbn [fst snd heap calls]; rewrite Hr;
    cbn [await ret]; rewrite Ht.
  - unfold all_parameters, page_parameters. simpl. now rewrite app_nil_r.
  - rewrite IH by (simpl in Hf; lia). cbn [heap calls ret].
    unfold all_parameters. simpl. unfold page_parameters at 2.
    now rewrite <- app_assoc.
Qed.

Lemma run_each_pages ssm fuel (pages_of : ByPathEntryData -> _) dataList :
  (forall x, In x dataList ->
     page_chain ssm x None (pages_of x)
     /\ (List.length (pages_of x) <= fuel)%nat) ->
  forall w,
    run_each
      (fun data : ByPathEntryData =>
         bind (getParametersByPath fuel ssm data None)
           (fun parameters => ret (path data, parameters)))
      dataList w
    = (map (fun d => Ret (path d, all_parameters (pages_of d))) dataList,
       mkWorld (heap w)
         (calls w ++ map CallGetParametersByPath
            (concat (map (fun d => page_requests d None (pages_of d))
                       dataList)))).
Proof.
  induction dataList as [|d rest IH]; intros H w.
  - simpl. destruct w; simpl. now rewrite app_nil_r.
  - cbn [run_each].
    destruct (H d (or_introl eq_refl)) as [Hc Hf].
    unfold bind at 1.
    rewrite (getParametersByPath_pages _ _ _ _ Hc fuel w Hf).
    cbn [ret]. rewrite IH by (intros x Hx; apply H; now right).
    cbn [heap calls map concat]. now rewrite map_app, app_assoc.
Qed.

Lemma join_all_ret {B} (bs : list B) : join_all (map Ret bs) = Ret bs.
Proof.
  unfold join_all.
  assert (F : first_throw (map Ret bs) = None)
    by (induction bs; simpl; auto).
  assert (A : all_ret (map Ret bs) = Some bs)
    by (induction bs as [|b r IH]; simpl; [|rewrite IH]; auto).
  now rewrite F, A.
Qed.

Lemma fold_insert_other (l : list (string * ParameterList)) :
  forall (m : gmap string ParameterList) k,
    ~ In k (map fst l) ->
    fold_left (fun acc r => <[fst r := snd r]> acc) l m !! k = m !! k.
Proof.
  induction l as [|[k' v] rest IH]; intros m k Hk; simpl; [reflexivity|].
  rewrite IH by (intros Hin; apply Hk; now right).
  apply lookup_insert_ne. intros ->. apply Hk. now left.
Qed.

Lemma fold_insert_dom (l : list (string * ParameterList)) :
  forall (m : gmap string ParameterList) k,
    is_Some (fold_left (fun acc r => <[fst r := snd r]> acc) l m !! k)
    <-> In k (map fst l) \/ is_Some (m !! k).
Proof.
  induction l as [|[k' v] rest IH]; intros m k; simpl.
  - tauto.
  - rewrite IH. destruct (decide (k' = k)) as [->|Hne].
    + rewrite lookup_insert_eq. split; [tauto|]. intros _. right. eauto.
    + rewrite lookup_insert_ne by assumption. tauto.
Qed.

Lemma getParametersByPaths_pages ssm fuel pages_of dataList w :
  (forall x, In x dataList ->
     page_chain ssm x None (pages_of x)
     /\ (List.length (pages_of x) <= fuel)%nat) ->
  getParametersByPaths fuel ssm dataList w
  = (Ret (fold_left
            (fun (acc : ParamsByPath) (r : string * ParameterList) =>
               <[fst r := snd r]> acc)
            (map (fun d => (path d, all_parameters (pages_of d))) dataList) ∅),
     mkWorld (heap w)
       (calls w ++ map CallGetParametersByPath
          (concat (map (fun d => page_requests d None (pages_of d)) dataList)))).
Proof.
  intros H. unfold getParametersByPaths.
  destruct dataList as [|d rest].
  - simpl. unfold ret. destruct w; simpl. now rewrite app_nil_r.
  - rewrite (run_each_pages ssm fuel pages_of (d :: rest) H w).
    rewrite <- (map_map (fun d => (path d, all_parameters (pages_of d))) Ret).
    rewrite join_all_ret. reflexivity.
Qed.

(** C6: when the service answers a by-path entry with a chain of pages,
    each page but the last carrying a (non-empty) token and the last none,
    the fetch asks for the first page without a token and for each later
    page with the token of the page before, and returns the parameters of
    all pages in page order; it does so for every recursion budget of at
    least the number of pages.  The mapping built from a list of entries
    has exactly the given path strings as keys, and holds under the path
    of an entry the parameters fetched for it (for the last entry with
    that path, when several share it). *)
Theorem C6_paginated_path_fetch ssm :
  (forall data tok pages fuel w,
     page_chain ssm data tok pages -> (List.length pages <= fuel)%nat ->
     getParametersByPath fuel ssm data tok w
     = (Ret (all_parameters pages),
        mkWorld (heap w)
          (calls w
           ++ map CallGetParametersByPath (page_requests data tok pages))))
  /\ (forall pages_of fuel w before d after,
        (forall x, In x (before ++ d :: after) ->
           page_chain ssm x None (pages_of x)
           /\ (List.length (pages_of x) <= fuel)%nat) ->
        ~ In (path d) (map path after) ->
        exists (m : ParamsByPath) w',
          getParametersByPaths fuel ssm (before ++ d :: after) w = (Ret m, w')
          /\ m !! path d = Some (all_parameters (pages_of d))
          /\ (forall k, is_Some (m !! k)
                        <-> In k (map path (before ++ d :: after)))).
Proof.
  split.
  - intros data tok pages fuel w Hc Hf. now apply getParametersByPath_pages.
  - intros pages_of fuel w before d after H Hlast.
    eexists _, _.
    split; [apply getParametersByPaths_pages with (pages_of := pages_of);
            exact H|].
    split.
    + rewrite map_app, fold_left_app. cbn [map fold_left fst snd].
      rewrite fold_insert_other.
      * apply lookup_insert_eq.
      * now rewrite map_map.
    + intros k. rewrite fold_insert_dom, map_map. cbn [fst].
      split; [intros [Hk|[x Hx]]|]; auto.
      rewrite lookup_empty in Hx. discriminate.
Qed.

Lemma C6_paginated_path_fetch_witness :
  getParametersByPath 2 (table_client [] nested_pages)
    (mkByPath "/nested" (VBool true)) None empty_world
  = (Ret [string_param "/nested/doublenested/letter" "a";
          string_param "/nested/param0" "value0";
          string_param "/nested/param1" "value1"],
     mkWorld []
       [CallGetParametersByPath
          (page_request (mkByPath "/nested" (VBool true)) None);
        CallGetParametersByPath
          (page_request (mkByPath "/nested" (VBool true)) (Some "page2"))])
  /\ exists (m : ParamsByPath) w',
       getParametersByPaths 2 (table_client [] nested_pages)
         ([] ++ mkByPath "/nested" (VBool true) :: []) empty_world
       = (Ret m, w')
       /\ m !! "/nested"
          = Some [string_param "/nested/doublenested/letter" "a";
                  string_param "/nested/param0" "value0";
                  string_param "/nested/param1" "value1"]
       /\ (forall k, is_Some (m !! k) <-> In k ["/nested"]).
Proof.
  destruct (C6_paginated_path_fetch (table_client [] nested_pages))
    as (H1 & H2).
  assert (Hc : page_chain (table_client [] nested_pages)
                 (mkByPath "/nested" (VBool true)) None
                 (map (fun e => snd e) nested_pages)).
  { apply chain_next; [reflexivity|reflexivity|].
    apply chain_last; reflexivity. }
  split.
  - apply (H1 _ _ _ 2%nat empty_world Hc). simpl. lia.
  - apply (H2 (fun _ => map (fun e => snd e) nested_pages) 2%nat empty_world
             [] (mkByPath "/nested" (VBool true)) []).
    + intros x [<-|[]]. split; [exact Hc|simpl; lia].
    + simpl. tauto.
Defined.

(** ** A trailing separator on the requested path *)

Lemma length_append s t :
  JsString.length (String.append s t)
  = (JsString.length s + JsString.length t)%nat.
Proof. induction s as [|c r IH]; simpl; auto. Qed.

Lemma endsWith_append_char s c :
  JsString.endsWith (String.append s (String c EmptyString)) c = true.
Proof.
  induction s as [|d r IH]; simpl.
  - apply Ascii.eqb_refl.
  - destruct (String.append r (String c EmptyString)) eqn:E; [|exact IH].
    destruct r; discriminate.
Qed.

Lemma pathLenth_trailing_separator p :
  JsString.endsWith p "/" = false ->
  pathLenth (String.append p "/") = pathLenth p.
Proof.
  intros H. unfold pathLenth.
  rewrite endsWith_append_char, H, length_append. simpl. lia.
Qed.

Lemma place_parameter_pathLenth p1 p2 map p :
  pathLenth p1 = pathLenth p2 ->
  place_parameter p1 map p = place_parameter p2 map p.
Proof. intros H. unfold place_parameter. now rewrite H. Qed.

Lemma reduce_parameters_pathLenth p1 p2 ps :
  pathLenth p1 = pathLenth p2 ->
  forall map w, reduce_parameters p1 ps map w = reduce_parameters p2 ps map w.
Proof.
  intros H. induction ps as [|p rest IH]; intros map w; simpl; [reflexivity|].
  unfold bind. rewrite (place_parameter_pathLenth p1 p2 map p H).
  destruct (place_parameter p2 map p w) as [[m| |] w1]; auto.
Qed.

(** C7: for a requested path [p] written without a trailing separator
    and any list of returned parameters, reconstruction under [p] and
    under [p/] runs identically: the same outcome, the same nested objects
    in the same cells, the same keys and leaf values. *)
Theorem C7_trailing_separator (paramsByPath paramsByPath' : ParamsByPath)
  p ps w :
  JsString.endsWith p "/" = false ->
  paramsByPath !! p = Some ps ->
  paramsByPath' !! String.append p "/" = Some ps ->
  findValuesByPath paramsByPath p w
  = findValuesByPath paramsByPath' (String.append p "/") w.
Proof.
  intros Hp H1 H2. unfold findValuesByPath. rewrite H1, H2.
  unfold bind. destruct (alloc empty_object w) as [[map| |] w1]; auto.
  apply reduce_parameters_pathLenth. symmetry.
  now apply pathLenth_trailing_separator.
Qed.

Lemma C7_trailing_separator_witness :
  findValuesByPath {["/nested" := nested_parameters]} "/nested" empty_world
  = findValuesByPath {["/nested/" := nested_parameters]} "/nested/" empty_world
  /\ findValuesByPath {["/nested/" := nested_parameters]} "/nested/" empty_world
     = (Ret (VRef 0),
        mkWorld
          [mkObject None [("doublenested", VRef 1); ("param0", VStr "value0");
                          ("param1", VStr "value1")];
           mkObject None [("letter", VStr "a")]]
          []).
Proof.
  split.
  - apply (C7_trailing_separator {["/nested" := nested_parameters]}
             {["/nested/" := nested_parameters]} "/nested" nested_parameters
             empty_world); reflexivity.
  - vm_compute. reflexivity.
Defined.

(** ** Index keys *)








(** ** Members in enumeration order *)

Lemma assoc_get_absent k ps :
  existsb (String.eqb k) (map fst ps) = false -> assoc_get k ps = None.
Proof.
  induction ps as [|[k' v] r IH]; simpl; [reflexivity|].
  destruct (String.eqb k k'); simpl; [discriminate|auto].
Qed.





(** ** Serialising what was revived *)













(** ** The copy made for [mutate: false] *)







(** * Further properties of the code *)

(** ** A tree without references *)

(** X1: when the entry finder finds nothing, [inject] resolves with the
    working object, calls the client not at all, and leaves the store as
    the entry finder saw it (for an in-place run: as the caller passed
    it). *)
Theorem X1_no_entries fuel ssm obj opts w obj' w1 :
  working_object fuel (merge_options defaultOptions opts) obj w
  = (Ret obj', w1) ->
  findEntries fuel (heap w1) obj'
    (itemParser (merge_options defaultOptions opts)) = Ret [] ->
  inject fuel ssm obj opts w = (Ret obj', w1)
  /\ calls w1 = calls w
  /\ (mutate (merge_options defaultOptions opts) = true -> w1 = w).
Proof.
  intros Hw He.
  rewrite (inject_after_entries _ _ _ _ _ _ _ _ Hw He).
  destruct (working_object_frame fuel (merge_options defaultOptions opts) obj w)
    as (_ & _ & Hc & Hm & _).
  rewrite Hw in Hc, Hm. simpl in Hc, Hm.
  split; [reflexivity|]. split; [exact Hc|].
  intros Ht. now destruct (Hm Ht).
Qed.

Lemma X1_no_entries_witness :
  inject 3 (table_client [] []) (VRef 0) None plain_world
  = (Ret (VRef 0), plain_world)
  /\ calls plain_world = calls plain_world
  /\ (true = true -> plain_world = plain_world).
Proof.
  apply (X1_no_entries 3 (table_client [] []) (VRef 0) None plain_world
           (VRef 0) plain_world); vm_compute; reflexivity.
Defined.

(** ** Looking a name up among the fetched parameters *)

Lemma find_first {A} (f : A -> bool) before x after :
  Forall (fun y => f y = false) before -> f x = true ->
  find f (before ++ x :: after) = Some x.
Proof.
  induction 1 as [|y r Hy Hr IH]; intros Hx; simpl.
  - now rewrite Hx.
  - rewrite Hy. auto.
Qed.

Lemma find_none_iff {A} (f : A -> bool) l :
  find f l = None <-> Forall (fun y => f y = false) l.
Proof.
  induction l as [|y r IH]; simpl.
  - split; [constructor|reflexivity].
  - destruct (f y) eqn:E.
    + split; [discriminate|]. intros H. inversion H; congruence.
    + rewrite IH. split; [now constructor|]. intros H. now inversion H.
Qed.

(** X2: [findValue] answers with the conversion of the first parameter
    whose name followed by its selector is the requested string, whatever
    comes after it in the list; it throws its "not found" error exactly
    when no parameter of the list matches. *)
Theorem X2_findValue_first_match params n :
  (forall before p after,
     params = before ++ p :: after ->
     Forall (fun q => name_with_selector q <> n) before ->
     name_with_selector p = n ->
     findValue params n = Ret (getParameterValue p))
  /\ (Forall (fun q => name_with_selector q <> n) params
      <-> findValue params n
          = Throw (Error (String.append "Unexpected error: parameter "
                            (String.append n " not found")))).
Proof.
  split.
  - intros before p after -> Hb Hp. unfold findValue.
    rewrite find_first; [reflexivity| |].
    + eapply Forall_impl; [exact Hb|]. simpl. intros q Hq.
      destruct (String.eqb_spec n (name_with_selector q)); congruence.
    + apply String.eqb_eq. now symmetry.
  - unfold findValue. split.
    + intros H.
      assert (E : find (fun p => String.eqb n (name_with_selector p)) params
                  = None).
      { apply find_none_iff. eapply Forall_impl; [exact H|]. simpl.
        intros q Hq. destruct (String.eqb_spec n (name_with_selector q));
          congruence. }
      now rewrite E.
    + destruct (find _ params) eqn:E; [discriminate|]. intros _.
      apply find_none_iff in E. eapply Forall_impl; [exact E|]. simpl.
      intros q Hq. destruct (String.eqb_spec n (name_with_selector q));
        congruence.
Qed.

Lemma X2_findValue_first_match_witness :
  findValue [string_param "/letter" "c"; letter_v1; string_param "/letter" "z"]
    "/letter:1" = Ret (ValString "a")
  /\ findValue [string_param "/letter" "c"] "/letter:1"
     = Throw (Error "Unexpected error: parameter /letter:1 not found").
Proof.
  destruct (X2_findValue_first_match
              [string_param "/letter" "c"; letter_v1; string_param "/letter" "z"]
              "/letter:1") as (H1 & _).
  destruct (X2_findValue_first_match [string_param "/letter" "c"] "/letter:1")
    as (_ & H2).
  split.
  - apply (H1 [string_param "/letter" "c"] letter_v1
              [string_param "/letter" "z"] eq_refl).
    + repeat constructor. vm_compute. discriminate.
    + reflexivity.
  - apply H2. repeat constructor. vm_compute. discriminate.
Defined.

(** ** Failures and requests of the path fetch *)

Lemma getParametersByPath_first f ssm data tok w :
  exists reqs,
    snd (getParametersByPath (S f) ssm data tok w)
    = mkWorld (heap w)
        (calls w ++ map CallGetParametersByPath (page_request data tok :: reqs)).
Proof.
  cbn [getParametersByPath]. fold (page_request data tok).
  unfold bind at 1, log_call. cbn [fst snd heap calls].
  set (w1 := mkWorld (heap w)
               (calls w ++ [CallGetParametersByPath (page_request data tok)])).
  unfold bind at 1.
  destruct (ssm_getParametersByPath ssm (page_request data tok)) as [e|r];
    cbn [await throw ret].
  - exists []. reflexivity.
  - destruct (token_present (gbp_ResultNextToken r)).
    + destruct (getParametersByPath_world f ssm data (gbp_ResultNextToken r) w1)
        as (reqs & Hr).
      exists reqs. unfold bind.
      destruct (getParametersByPath f ssm data (gbp_ResultNextToken r) w1)
        as [[x| |] w2]; simpl in *; subst w2; unfold w1; simpl;
        now rewrite <- app_assoc.
    + exists []. reflexivity.
Qed.

Lemma getParametersByPath_failing ssm data tok pages tok' e :
  pages_then ssm data tok pages tok' ->
  ssm_getParametersByPath ssm (page_request data tok') = inl e ->
  forall fuel w, (List.length pages < fuel)%nat ->
    getParametersByPath fuel ssm data tok w
    = (Throw e,
       mkWorld (heap w)
         (calls w ++ map CallGetParametersByPath
            (page_requests data tok pages ++ [page_request data tok']))).
Proof.
  induction 1 as [tok | tok r rest tok' Hr Ht Hc IH]; intros He fuel w Hf;
    (destruct fuel as [|f]; [simpl in Hf; lia|]);
    cbn [getParametersByPath]; fold (page_request data tok);
    unfold bind, log_call; cbn [fst snd heap calls].
  - rewrite He. reflexivity.
  - rewrite Hr. cbn [await ret]. rewrite Ht.
    rewrite (IH He) by (simpl in Hf; lia). cbn [heap calls].
    simpl. now rewrite <- app_assoc.
Qed.

(** X3: when the service answers some pages of a by-path entry, each
    with a token, and then rejects the next request, the fetch throws that
    very rejection, having requested the answered pages and the rejected
    one, in order, and nothing after; the pages already received are
    dropped. *)
Theorem X3_page_failure_propagates ssm data tok pages tok' e fuel w :
  pages_then ssm data tok pages tok' ->
  ssm_getParametersByPath ssm (page_request data tok') = inl e ->
  (List.length pages < fuel)%nat ->
  getParametersByPath fuel ssm data tok w
  = (Throw e,
     mkWorld (heap w)
       (calls w ++ map CallGetParametersByPath
          (page_requests data tok pages ++ [page_request data tok']))).
Proof. intros Hp He Hf. now apply getParametersByPath_failing. Qed.

Lemma X3_page_failure_propagates_witness :
  getParametersByPath 2 (table_client [] broken_pages)
    (mkByPath "/nested" VUndef) None empty_world
  = (Throw (RemoteError "ParameterNotFound"),
     mkWorld []
       ([] ++ map CallGetParametersByPath
          (page_requests (mkByPath "/nested" VUndef) None
             (map (fun e => snd e) broken_pages)
           ++ [page_request (mkByPath "/nested" VUndef) (Some "page2")]))).
Proof.
  apply (X3_page_failure_propagates (table_client [] broken_pages)
           (mkByPath "/nested" VUndef) None
           (map (fun e => snd e) broken_pages) (Some "page2")
           (RemoteError "ParameterNotFound") 2%nat empty_world).
  - apply pages_more; [reflexivity|reflexivity|]. apply pages_none.
  - reflexivity.
  - simpl. lia.
Defined.

Lemma fetch_path_result fuel ssm d w b :
  fst (fetch_path fuel ssm d w) = Ret b ->
  fst b = path d
  /\ fst (getParametersByPath fuel ssm d None w) = Ret (snd b).
Proof.
  unfold fetch_path, bind.
  destruct (getParametersByPath fuel ssm d None w) as [[ps| |] w1]; simpl;
    try discriminate.
  intros E. inversion E; subst. auto.
Qed.

Lemma run_each_results fuel ssm dataList : forall w rs w' bs,
  run_each (fetch_path fuel ssm) dataList w = (rs, w') ->
  all_ret rs = Some bs ->
  Forall2 (fun d b =>
             fst b = path d
             /\ exists w0,
                  fst (getParametersByPath fuel ssm d None w0) = Ret (snd b))
    dataList bs.
Proof.
  induction dataList as [|d rest IH]; intros w rs w' bs Hr Ha;
    cbn [run_each] in Hr.
  - inversion Hr; subst. simpl in Ha. inversion Ha. constructor.
  - destruct (fetch_path fuel ssm d w) as [r w1] eqn:E1.
    destruct (run_each (fetch_path fuel ssm) rest w1) as [rs' w2] eqn:E2.
    inversion Hr; subst; clear Hr. simpl in Ha.
    destruct r as [b| |]; try discriminate.
    destruct (all_ret rs') as [bs'|] eqn:Ha'; [|discriminate].
    inversion Ha; subst; clear Ha. constructor.
    + pose proof (fetch_path_result fuel ssm d w b) as H.
      rewrite E1 in H. destruct (H eq_refl) as [H1 H2]. eauto.
    + eapply IH; eauto.
Qed.

Lemma fold_insert_origin (l : list (string * ParameterList)) :
  forall (m : gmap string ParameterList) k v,
    fold_left (fun acc r => <[fst r := snd r]> acc) l m !! k = Some v ->
    (exists b, In b l /\ fst b = k /\ snd b = v) \/ m !! k = Some v.
Proof.
  induction l as [|[k' v'] rest IH]; intros m k v H; simpl in H; [now right|].
  apply IH in H as [(b & Hin & Hk & Hv)|H].
  - left. exists b. split; [now right|auto].
  - destruct (decide (k' = k)) as [->|Hne].
    + rewrite lookup_insert_eq in H. left. exists (k, v').
      split; [now left|]. simpl. split; congruence.
    + rewrite lookup_insert_ne in H by assumption. now right.
Qed.

Lemma join_all_ret_inv {B} (rs : list (res B)) bs :
  join_all rs = Ret bs -> all_ret rs = Some bs.
Proof.
  unfold join_all. destruct (first_throw rs); [discriminate|].
  destruct (all_ret rs); [|discriminate]. congruence.
Qed.

(** X4: whatever the client answers, when the path fetch of a list of
    entries returns, it has not touched the store, the keys of the mapping
    are exactly the path strings of the entries, and the list stored under
    a key is what the paginated fetch returned for an entry with that
    path.  So a lookup by the path of an entry never misses. *)
Theorem X4_paths_mapping fuel ssm dataList w (m : ParamsByPath) w' :
  getParametersByPaths fuel ssm dataList w = (Ret m, w') ->
  heap w' = heap w
  /\ (forall k, is_Some (m !! k) <-> In k (map path dataList))
  /\ (forall k ps, m !! k = Some ps ->
        exists d w0,
          In d dataList /\ path d = k
          /\ fst (getParametersByPath fuel ssm d None w0) = Ret ps).
Proof.
  intros H.
  destruct (getParametersByPaths_world fuel ssm dataList w) as (reqs & Hw).
  rewrite H in Hw. simpl in Hw. split; [now rewrite Hw|].
  unfold getParametersByPaths in H. destruct dataList as [|d rest].
  - inversion H; subst. split.
    + intros k. rewrite lookup_empty. split; [intros [x Hx]; discriminate|].
      intros [].
    + intros k ps Hk. rewrite lookup_empty in Hk. discriminate.
  - change (fun data : ByPathEntryData =>
              bind (getParametersByPath fuel ssm data None)
                (fun parameters => ret (path data, parameters)))
      with (fetch_path fuel ssm) in H.
    destruct (run_each (fetch_path fuel ssm) (d :: rest) w) as [rs w1] eqn:Er.
    destruct (join_all rs) as [bs| |] eqn:Ej; simpl in H; try discriminate.
    inversion H; subst; clear H.
    apply join_all_ret_inv in Ej.
    pose proof (run_each_results _ _ _ _ _ _ _ Er Ej) as F.
    assert (Hk : map fst bs = map path (d :: rest)).
    { clear -F. induction F as [|x b l bs' [Hb _] _ IH]; simpl; congruence. }
    split.
    + intros k. rewrite fold_insert_dom, Hk. rewrite lookup_empty.
      split; [intros [Hin|[x Hx]]; [assumption|discriminate]|auto].
    + intros k ps Hl. apply fold_insert_origin in Hl as [(b & Hin & Hb & Hv)|Hl];
        [|rewrite lookup_empty in Hl; discriminate].
      clear -F Hin Hb Hv.
      induction F as [|x b' l bs' [Hb' (w0 & Hw0)] _ IH]; [destruct Hin|].
      destruct Hin as [->|Hin].
      * exists x, w0. subst. split; [now left|]. split; [congruence|assumption].
      * destruct (IH Hin) as (d' & w0' & Hd & Hp & Hf).
        exists d', w0'. split; [now right|auto].
Qed.

Lemma X4_paths_mapping_witness :
  heap (snd (getParametersByPaths 2 (table_client [] nested_pages)
               [mkByPath "/nested" (VBool true)] empty_world))
  = heap empty_world
  /\ (forall k,
        is_Some (fst (match getParametersByPaths 2
                              (table_client [] nested_pages)
                              [mkByPath "/nested" (VBool true)] empty_world
                      with
                      | (Ret m, w') => (m, w')
                      | (_, w') => (∅, w')
                      end) !! k)
        <-> In k ["/nested"]).
Proof.
  destruct (X4_paths_mapping 2 (table_client [] nested_pages)
              [mkByPath "/nested" (VBool true)] empty_world
              (fst (match getParametersByPaths 2
                            (table_client [] nested_pages)
                            [mkByPath "/nested" (VBool true)] empty_world
                    with
                    | (Ret m, w') => (m, w')
                    | (_, w') => (∅, w')
                    end))
              (snd (getParametersByPaths 2 (table_client [] nested_pages)
                      [mkByPath "/nested" (VBool true)] empty_world)))
    as (H1 & H2 & _).
  - vm_compute. reflexivity.
  - split; [exact H1|exact H2].
Defined.

Lemma run_each_first_pages f ssm dataList : forall w d,
  In d dataList ->
  In (CallGetParametersByPath (first_page_request d))
     (calls (snd (run_each (fetch_path (S f) ssm) dataList w))).
Proof.
  induction dataList as [|x rest IH]; intros w d Hd; [destruct Hd|].
  cbn [run_each].
  destruct (fetch_path (S f) ssm x w) as [r w1] eqn:E1.
  destruct (run_each (fetch_path (S f) ssm) rest w1) as [rs w2] eqn:E2.
  cbn [snd].
  destruct Hd as [->|Hd].
  - destruct (run_each_paths_world (S f) ssm rest w1) as (reqs & Hr).
    change (fun data : ByPathEntryData =>
              bind (getParametersByPath (S f) ssm data None)
                (fun parameters => ret (path data, parameters)))
      with (fetch_path (S f) ssm) in Hr.
    rewrite E2 in Hr. simpl in Hr. subst w2. simpl.
    apply in_or_app. left.
    destruct (getParametersByPath_first f ssm d None w) as (reqs1 & H1).
    assert (Hw1 : w1 = snd (getParametersByPath (S f) ssm d None w)).
    { unfold fetch_path, bind in E1.
      destruct (getParametersByPath (S f) ssm d None w) as [[ps| |] w0];
        inversion E1; reflexivity. }
    rewrite Hw1, H1. simpl. apply in_or_app. right. now left.
  - specialize (IH w1 d Hd). now rewrite E2 in IH.
Qed.

Lemma getParametersByPaths_first_pages f ssm dataList w d :
  In d dataList ->
  In (CallGetParametersByPath (first_page_request d))
     (calls (snd (getParametersByPaths (S f) ssm dataList w))).
Proof.
  intros Hd. unfold getParametersByPaths.
  destruct dataList as [|x rest]; [destruct Hd|].
  pose proof (run_each_first_pages f ssm (x :: rest) w d Hd) as H.
  change (fun data : ByPathEntryData =>
            bind (getParametersByPath (S f) ssm data None)
              (fun parameters => ret (path data, parameters)))
    with (fetch_path (S f) ssm).
  destruct (run_each (fetch_path (S f) ssm) (x :: rest) w) as [rs w']. exact H.
Qed.

Lemma findEntries_fuel fuel h obj parser es :
  findEntries fuel h obj parser = Ret es -> exists f, fuel = S f.
Proof. destruct fuel; [discriminate|eauto]. Qed.

Lemma bind_throw_fst {A B} (c : M A) (k : A -> M B) w e :
  fst (c w) = Throw e -> bind c k w = (Throw e, snd (c w)).
Proof. unfold bind. destruct (c w) as [[a| |] w']; simpl; congruence. Qed.

Lemma fetch_and_expand_after_names fuel ssm obj entries w params :
  fst (getParameters ssm (byNameData entries) w) = Ret params ->
  fetch_and_expand fuel ssm obj entries w
  = bind (getParametersByPaths fuel ssm (byPathData entries))
      (fun paramsByPath =>
         bind (not_awaited (expandEntries entries params paramsByPath))
           (fun _ => ret obj))
      (snd (getParameters ssm (byNameData entries) w)).
Proof.
  intros H. unfold fetch_and_expand. unfold bind at 1.
  destruct (getParameters ssm (byNameData entries) w) as [r w2].
  simpl in *. now subst r.
Qed.

(** X5: once the name fetch has succeeded, [inject] requests the first
    page of every by-path entry it found, also when the fetch of some
    other path fails; and when the path fetch fails, [inject] fails with
    the same error and the store is the one the entries were found in:
    nothing is reconstructed. *)
Theorem X5_path_fetch_after_names fuel ssm obj opts w obj' w1 entries params :
  let options := merge_options defaultOptions opts in
  let w2 := snd (getParameters ssm (byNameData entries) w1) in
  working_object fuel options obj w = (Ret obj', w1) ->
  findEntries fuel (heap w1) obj' (itemParser options) = Ret entries ->
  fst (getParameters ssm (byNameData entries) w1) = Ret params ->
  (forall d, In d (byPathData entries) ->
     In (CallGetParametersByPath (first_page_request d))
        (calls (snd (inject fuel ssm obj opts w))))
  /\ (forall e,
        fst (getParametersByPaths fuel ssm (byPathData entries) w2) = Throw e ->
        fst (inject fuel ssm obj opts w) = Throw e
        /\ heap (snd (inject fuel ssm obj opts w)) = heap w1).
Proof.
  intros options w2 Hw He Hn.
  rewrite (inject_after_entries _ _ _ _ _ _ _ _ Hw He).
  rewrite (fetch_and_expand_after_names _ _ _ _ _ _ Hn). fold w2.
  assert (Hgw : heap w2 = heap w1)
    by (unfold w2; now rewrite getParameters_world).
  destruct (getParametersByPaths_world fuel ssm (byPathData entries) w2)
    as (reqs & Hpw).
  split.
  - intros d Hd. destruct (findEntries_fuel _ _ _ _ _ He) as (f & ->).
    pose proof (getParametersByPaths_first_pages f ssm
                  (byPathData entries) w2 d Hd) as Hin.
    unfold bind at 1.
    destruct (getParametersByPaths (S f) ssm (byPathData entries) w2)
      as [[pbp| |] w3]; simpl in *; try exact Hin.
    destruct (not_awaited_expand_world entries params pbp w3)
      as (w4 & E & Hc).
    rewrite (bind_ret_run _ _ _ _ _ E). simpl. now rewrite Hc.
  - intros e Hp. rewrite (bind_throw_fst _ _ _ _ Hp). simpl.
    split; [reflexivity|]. now rewrite Hpw.
Qed.

Lemma X5_path_fetch_after_names_witness :
  In (CallGetParametersByPath (first_page_request (mkByPath "/nested" VUndef)))
     (calls (snd (inject 3
                    (table_client [("/letter", string_param "/letter" "c")]
                       broken_pages)
                    (VRef 0) None broken_path_world)))
  /\ fst (inject 3
            (table_client [("/letter", string_param "/letter" "c")]
               broken_pages)
            (VRef 0) None broken_path_world)
     = Throw (RemoteError "ParameterNotFound")
  /\ heap (snd (inject 3
                  (table_client [("/letter", string_param "/letter" "c")]
                     broken_pages)
                  (VRef 0) None broken_path_world))
     = heap broken_path_world.
Proof.
  destruct (X5_path_fetch_after_names 3
              (table_client [("/letter", string_param "/letter" "c")]
                 broken_pages)
              (VRef 0) None broken_path_world (VRef 0) broken_path_world
              [mkEntry (VRef 0) "a" "a:ssm:name" (ByName (mkByName "/letter"));
               mkEntry (VRef 0) "p" "p:ssm:path"
                 (ByPath (mkByPath "/nested" VUndef))]
              [string_param "/letter" "c"])
    as (H1 & H2).
  - reflexivity.
  - vm_compute. reflexivity.
  - vm_compute. reflexivity.
  - split.
    + apply H1. left. reflexivity.
    + apply (H2 (RemoteError "ParameterNotFound")). vm_compute. reflexivity.
Defined.

(** ** What the default parser makes of a value *)

Lemma nonempty_some s : s <> EmptyString -> nonempty (Some s) = Some s.
Proof.
  intros H. unfold nonempty.
  destruct (String.eqb_spec s EmptyString); [contradiction|reflexivity].
Qed.

Lemma defaultItemParser_reference h key base rest value :
  JsString.split ":" key = base :: "ssm" :: rest ->
  by_in ["name"; "path"] (qualifier rest) = true ->
  defaultItemParser h key value
  = res_bind (string_field h value "name") (fun name =>
    match (if by_in ["name"] (qualifier rest) then nonempty name else None) with
    | Some name => Ret [addByNameEntry base name]
    | None =>
        res_bind (string_field h value "path") (fun path =>
        match (if by_in ["path"] (qualifier rest) then nonempty path else None)
        with
        | Some path =>
            res_bind (if isObject value
                      then get_prop h value "recursive"
                      else Ret VUndef) (fun recursive =>
            Ret [addByPathEntry base path recursive])
        | None => Ret []
        end)
    end).
Proof.
  intros Hs Hq. unfold defaultItemParser. rewrite Hs.
  change (nth_error (base :: "ssm" :: rest) 2) with (qualifier rest).
  cbn [nth nth_error]. rewrite Hq. reflexivity.
Qed.

(** X6: for a key [<base>:ssm], [<base>:ssm:name] or [<base>:ssm:path]
    (whatever follows), the default parser treats a non-empty string value
    and an object with that string in its [name] (or [path]) field alike.
    Without qualifier or with [name], a usable name gives one by-name entry
    under [base]; with [path], or without qualifier when the object has no
    usable name, a usable path gives one by-path entry under [base], with
    the object's [recursive] field, or [undefined] for a string value.  An
    empty string, a number, a boolean or [undefined] gives no entry. *)
Theorem X6_default_parser_forms h key base rest :
  JsString.split ":" key = base :: "ssm" :: rest ->
  (qualifier rest = None \/ qualifier rest = Some "name" ->
   forall s, s <> EmptyString ->
     defaultItemParser h key (VStr s) = Ret [addByNameEntry base s]
     /\ forall l, obj_get "name" (read_obj h l) = VStr s ->
          defaultItemParser h key (VRef l) = Ret [addByNameEntry base s])
  /\ (qualifier rest = Some "path" ->
      forall s, s <> EmptyString ->
        defaultItemParser h key (VStr s) = Ret [addByPathEntry base s VUndef]
        /\ forall l, obj_get "path" (read_obj h l) = VStr s ->
             defaultItemParser h key (VRef l)
             = Ret [addByPathEntry base s
                      (obj_get "recursive" (read_obj h l))])
  /\ (qualifier rest = None ->
      forall l s, s <> EmptyString ->
        (forall n, obj_get "name" (read_obj h l) = VStr n -> n = EmptyString) ->
        obj_get "path" (read_obj h l) = VStr s ->
        defaultItemParser h key (VRef l)
        = Ret [addByPathEntry base s (obj_get "recursive" (read_obj h l))])
  /\ (by_in ["name"; "path"] (qualifier rest) = true ->
      forall v, isObject v = false ->
        (forall s, v = VStr s -> s = EmptyString) ->
        defaultItemParser h key v = Ret []).
Proof.
  intros Hs. split; [|split; [|split]].
  - intros Hq s Hne.
    assert (Hq2 : by_in ["name"; "path"] (qualifier rest) = true)
      by (destruct Hq as [->| ->]; reflexivity).
    assert (Hq1 : by_in ["name"] (qualifier rest) = true)
      by (destruct Hq as [->| ->]; reflexivity).
    split; [|intros l Hl];
      rewrite (defaultItemParser_reference _ _ _ _ _ Hs Hq2);
      unfold string_field; cbn [isObject get_prop res_bind];
      rewrite ?Hl; cbn [res_bind]; rewrite Hq1, nonempty_some by assumption;
      reflexivity.
  - intros Hq s Hne.
    split; [|intros l Hl];
      rewrite (defaultItemParser_reference _ _ _ _ _ Hs)
        by (rewrite Hq; reflexivity);
      unfold string_field; cbn [isObject get_prop res_bind]; rewrite Hq;
      cbn [by_in existsb String.eqb Ascii.eqb Bool.eqb orb res_bind];
      [|destruct (obj_get "name" (read_obj h l)); cbn [res_bind]; rewrite Hl;
        cbn [res_bind]];
      rewrite nonempty_some by assumption; reflexivity.
  - intros Hq l s Hne Hn Hp.
    rewrite (defaultItemParser_reference _ _ _ _ _ Hs)
      by (rewrite Hq; reflexivity).
    unfold string_field. cbn [isObject get_prop res_bind]. rewrite Hq.
    cbn [by_in].
    assert (E : nonempty (match obj_get "name" (read_obj h l) with
                          | VStr n => Some n
                          | _ => None
                          end) = None).
    { destruct (obj_get "name" (read_obj h l)) as [| | | |n|] eqn:E;
        try reflexivity.
      rewrite (Hn n eq_refl). reflexivity. }
    destruct (obj_get "name" (read_obj h l)) as [| | | |n|]; cbn [res_bind];
      try rewrite E; cbn [nonempty]; rewrite Hp; cbn [res_bind];
      rewrite nonempty_some by assumption; reflexivity.
  - intros Hq v Ho Hv.
    rewrite (defaultItemParser_reference _ _ _ _ _ Hs Hq).
    unfold string_field. rewrite Ho.
    assert (E : nonempty (match v with VStr s => Some s | _ => None end) = None).
    { destruct v; try reflexivity. rewrite (Hv s eq_refl). reflexivity. }
    destruct v; try discriminate; cbn [res_bind]; try rewrite E;
      cbn [nonempty];
      destruct (by_in ["name"] (qualifier rest)),
               (by_in ["path"] (qualifier rest)); reflexivity.
Qed.

Lemma X6_default_parser_forms_witness :
  (defaultItemParser [mkObject None [("name", VStr "/letter")]] "foo:ssm"
     (VStr "/letter") = Ret [addByNameEntry "foo" "/letter"]
   /\ defaultItemParser [mkObject None [("name", VStr "/letter")]] "foo:ssm"
        (VRef 0) = Ret [addByNameEntry "foo" "/letter"])
  /\ (defaultItemParser (heap path_object_world) "foo:ssm:path"
        (VStr "/nested") = Ret [addByPathEntry "foo" "/nested" VUndef]
      /\ defaultItemParser (heap path_object_world) "foo:ssm:path" (VRef 0)
         = Ret [addByPathEntry "foo" "/nested" (VBool true)])
  /\ defaultItemParser (heap path_object_world) "foo:ssm" (VRef 0)
     = Ret [addByPathEntry "foo" "/nested" (VBool true)]
  /\ defaultItemParser [] "foo:ssm:name" (VNum 5) = Ret [].
Proof.
  destruct (X6_default_parser_forms [mkObject None [("name", VStr "/letter")]]
              "foo:ssm" "foo" [] eq_refl) as (H1 & _).
  destruct (X6_default_parser_forms (heap path_object_world)
              "foo:ssm:path" "foo" ["path"] eq_refl) as (_ & H2 & _).
  destruct (X6_default_parser_forms (heap path_object_world)
              "foo:ssm" "foo" [] eq_refl) as (_ & _ & H3 & _).
  destruct (X6_default_parser_forms [] "foo:ssm:name" "foo" ["name"] eq_refl)
    as (_ & _ & _ & H4).
  split; [|split; [|split]].
  - destruct (H1 (or_introl eq_refl) "/letter") as (Ha & Hb); [discriminate|].
    split; [exact Ha|]. apply Hb. reflexivity.
  - destruct (H2 eq_refl "/nested") as (Ha & Hb); [discriminate|].
    split; [exact Ha|]. apply (Hb 0%nat). reflexivity.
  - apply (H3 eq_refl 0%nat "/nested"); [discriminate| |reflexivity].
    intros n Hn. vm_compute in Hn. discriminate.
  - apply (H4 eq_refl (VNum 5)); [reflexivity|]. intros s Hs. discriminate.
Defined.

(** ** Where entries come from *)

Lemma findEntries_loop_inv (P : Entry -> Prop) h parser
  (self : val -> res (list Entry)) par allkeys :
  (forall v es, self v = Ret es -> Forall P es) ->
  (forall k es, In k allkeys -> parseItem h par k parser = Ret es ->
                Forall P es) ->
  forall keys acc es,
    incl keys allkeys -> Forall P acc ->
    findEntries_loop self h par parser keys acc = Ret es ->
    Forall P es.
Proof.
  intros Hself Hparse. induction keys as [|k rest IH]; intros acc es Hi Hacc E;
    simpl in E.
  - inversion E; now subst.
  - assert (Hk : In k allkeys) by (apply Hi; now left).
    assert (Hr : incl rest allkeys) by (intros x Hx; apply Hi; now right).
    destruct (parseItem h par k parser) as [_es| |] eqn:Pk; simpl in E;
      try discriminate.
    destruct (Nat.ltb 0 (List.length _es)).
    + eapply IH; [exact Hr| |exact E]. apply Forall_app. split; eauto.
    + destruct (get_prop h par k) as [v| |]; simpl in E; try discriminate.
      destruct (isObject v).
      * destruct (self v) as [sub| |] eqn:S; simpl in E; try discriminate.
        eapply IH; [exact Hr| |exact E]. apply Forall_app. split; eauto.
      * eapply IH; eauto.
Qed.

Lemma findEntries_inv (P : Entry -> Prop) h parser :
  (forall par allkeys k es,
     object_keys h par = Ret allkeys -> In k allkeys ->
     parseItem h par k parser = Ret es -> Forall P es) ->
  forall fuel obj es, findEntries fuel h obj parser = Ret es -> Forall P es.
Proof.
  intros Hparse. induction fuel as [|f IH]; intros obj es E; simpl in E;
    [discriminate|].
  destruct (object_keys h obj) as [keys| |] eqn:K; simpl in E; try discriminate.
  eapply findEntries_loop_inv with (allkeys := keys); try exact E; eauto.
  - intros x Hx. exact Hx.
Qed.

Lemma parseItem_from_key h par keys k parser es :
  object_keys h par = Ret keys -> In k keys ->
  parseItem h par k parser = Ret es ->
  Forall (entry_from_key h parser) es.
Proof.
  intros Hk Hin. unfold parseItem.
  destruct (get_prop h par k) as [v| |] eqn:G; simpl; try discriminate.
  destruct (parser h k v) as [cs| |] eqn:Pc; simpl; try discriminate.
  intros E. inversion E; subst; clear E.
  apply List.Forall_forall. intros e He.
  apply in_map_iff in He as (c & <- & Hc).
  exists keys, v, cs, c.
  destruct c; simpl; repeat split; auto.
Qed.

(** X7: every entry the entry finder returns was asked for by the
    parser at an own key of the entry's parent; with the default parser
    the initial key of every entry therefore fits the reference pattern
    and the target key is its first colon-delimited segment. *)
Theorem X7_entries_from_keys fuel h obj :
  (forall parser es,
     findEntries fuel h obj parser = Ret es ->
     Forall (entry_from_key h parser) es)
  /\ (forall es,
        findEntries fuel h obj defaultItemParser = Ret es ->
        Forall (fun e =>
                  reference_key (initKey e) = true
                  /\ key e = nth 0 (JsString.split ":" (initKey e)) EmptyString)
          es).
Proof.
  assert (H1 : forall parser es,
             findEntries fuel h obj parser = Ret es ->
             Forall (entry_from_key h parser) es).
  { intros parser es. apply findEntries_inv.
    intros par allkeys k es'. apply parseItem_from_key. }
  split; [exact H1|].
  intros es E. eapply Forall_impl; [exact (H1 _ _ E)|]. simpl.
  intros e (keys & v & cs & c & _ & _ & _ & Hp & Hc & He).
  destruct (defaultItemParser_entries h (initKey e) v cs Hp) as (Hr & c' & -> & Hk).
  { intros ->. destruct Hc. }
  destruct Hc as [<-|[]]. split; [exact Hr|].
  rewrite He. destruct c'; exact Hk.
Qed.

Lemma X7_entries_from_keys_witness :
  Forall (entry_from_key (heap nested_refs_world) defaultItemParser)
    [mkEntry (VRef 1) "password" "password:ssm:name"
       (ByName (mkByName "/letter"));
     mkEntry (VRef 1) "all" "all:ssm:path"
       (ByPath (mkByPath "/nested" VUndef))]
  /\ Forall (fun e =>
               reference_key (initKey e) = true
               /\ key e = nth 0 (JsString.split ":" (initKey e)) EmptyString)
       [mkEntry (VRef 1) "password" "password:ssm:name"
          (ByName (mkByName "/letter"));
        mkEntry (VRef 1) "all" "all:ssm:path"
          (ByPath (mkByPath "/nested" VUndef))].
Proof.
  destruct (X7_entries_from_keys 3 (heap nested_refs_world) (VRef 0))
    as (H1 & H2).
  split.
  - apply (H1 defaultItemParser). vm_compute. reflexivity.
  - apply H2. vm_compute. reflexivity.
Defined.

(** ** Which slots an expansion touches *)

Lemma assoc_get_replace_other k k' v ps :
  k' <> k -> assoc_get k' (assoc_replace k v ps) = assoc_get k' ps.
Proof.
  intros Hne. induction ps as [|[k0 v0] r IH]; simpl; [reflexivity|].
  destruct (String.eqb_spec k k0) as [->|N]; simpl.
  - destruct (String.eqb_spec k' k0); [contradiction|reflexivity].
  - destruct (String.eqb k' k0); auto.
Qed.

Lemma assoc_get_insert_index_other i k k' v ps :
  k' <> k -> assoc_get k' (insert_index i k v ps) = assoc_get k' ps.
Proof.
  intros Hne. induction ps as [|[k0 v0] r IH]; simpl.
  - destruct (String.eqb_spec k' k); [contradiction|reflexivity].
  - destruct (JsString.array_index k0) as [j|]; [destruct (j <? i)%N|]; simpl;
      try (destruct (String.eqb_spec k' k); [contradiction|reflexivity]).
    destruct (String.eqb k' k0); auto.
Qed.

Lemma assoc_get_app_other k k' v ps :
  k' <> k -> assoc_get k' (ps ++ [(k, v)]) = assoc_get k' ps.
Proof.
  intros Hne. induction ps as [|[k0 v0] r IH]; simpl.
  - destruct (String.eqb_spec k' k); [contradiction|reflexivity].
  - destruct (String.eqb k' k0); auto.
Qed.

Lemma obj_get_set_other k k' v o :
  k' <> k -> obj_get k' (obj_set k v o) = obj_get k' o.
Proof.
  intros Hne. unfold obj_get, obj_set, props_set. simpl.
  destruct (assoc_get k (props o)).
  - now rewrite assoc_get_replace_other.
  - destruct (JsString.array_index k).
    + now rewrite assoc_get_insert_index_other.
    + now rewrite assoc_get_app_other.
Qed.

Lemma obj_get_delete_other k k' o :
  k' <> k -> obj_get k' (obj_delete k o) = obj_get k' o.
Proof.
  intros Hne. unfold obj_get, obj_delete. simpl.
  induction (props o) as [|[k0 v0] r IH]; simpl; [reflexivity|].
  destruct (String.eqb_spec k k0) as [->|N]; simpl.
  - destruct (String.eqb_spec k' k0); [contradiction|reflexivity].
  - destruct (String.eqb k' k0); auto.
Qed.

Lemma obj_get_delete_same k o :
  NoDup (obj_keys o) -> obj_get k (obj_delete k o) = VUndef.
Proof.
  unfold obj_get, obj_delete, obj_keys. simpl.
  induction (props o) as [|[k0 v0] r IH]; simpl; intros Hd; [reflexivity|].
  apply NoDup_cons in Hd as [Hn Hd].
  destruct (String.eqb_spec k k0) as [->|N]; simpl.
  - rewrite assoc_get_absent; [reflexivity|].
    apply not_true_iff_false. intros Hex. apply existsb_exists in Hex
      as (x & Hx & Ex). apply String.eqb_eq in Ex. subst x.
    apply Hn. now apply list_elem_of_In.
  - destruct (String.eqb_spec k k0); [contradiction|auto].
Qed.

Lemma read_obj_same_below n (h h' : list object) l :
  same_below n h h' -> (l < n)%nat -> read_obj h' l = read_obj h l.
Proof. intros H Hl. unfold read_obj. now rewrite H. Qed.

Lemma keeps_post n {A} (c : M A) (Q R : A -> Prop) :
  keeps n c Q -> (forall a, Q a -> R a) -> keeps n c R.
Proof.
  intros Hc HQR w Hw. destruct (Hc w Hw) as (H1 & H2 & H3 & H4).
  repeat split; try apply H1; auto.
Qed.

Lemma keeps_resolved_value n params paramsByPath d :
  keeps n (resolved_value params paramsByPath d) (fun _ => True).
Proof.
  destruct d as [d|d]; simpl.
  - eapply keeps_bind with (Q := fun _ => True).
    + apply keeps_lift_read. auto.
    + intros x _. eapply keeps_post; [apply keeps_store_value|auto].
  - eapply keeps_post; [apply keeps_findValuesByPath|auto].
Qed.

Lemma expandEntry_unfold params paramsByPath e w :
  expandEntry params paramsByPath e w
  = bind (delete_prop (parent e) (initKey e))
      (fun _ => bind (resolved_value params paramsByPath (data e))
                  (fun v => set_prop (parent e) (key e) v)) w.
Proof.
  unfold expandEntry, resolved_value. destruct (data e); reflexivity.
Qed.

Lemma expandEntry_parent_cell params paramsByPath e l w :
  parent e = VRef l -> (l < List.length (heap w))%nat ->
  let w' := snd (expandEntry params paramsByPath e w) in
  let o := obj_delete (initKey e) (read_obj (heap w) l) in
  (read_obj (heap w') l = o
   \/ exists v, read_obj (heap w') l = obj_set (key e) v o)
  /\ (forall l', (l' < List.length (heap w))%nat -> l' <> l ->
        heap w' !! l' = heap w !! l')
  /\ calls w' = calls w.
Proof.
  intros Hp Hl. rewrite expandEntry_unfold, Hp.
  set (o := obj_delete (initKey e) (read_obj (heap w) l)).
  set (w1 := mkWorld (<[l := o]> (heap w)) (calls w)).
  assert (Hd : delete_prop (VRef l) (initKey e) w = (Ret tt, w1)) by reflexivity.
  rewrite (bind_ret_run _ _ _ _ _ Hd).
  assert (Hn : List.length (heap w1) = List.length (heap w))
    by (unfold w1; simpl; apply length_insert).
  destruct (keeps_resolved_value (List.length (heap w1)) params paramsByPath
              (data e) w1 (closed_above_length _))
    as ([Hlen _] & Hsame & Hcalls & _).
  unfold bind.
  destruct (resolved_value params paramsByPath (data e) w1) as [r w2].
  simpl in Hlen, Hsame, Hcalls.
  assert (Hlen' : (List.length (heap w) <= List.length (heap w2))%nat)
    by (rewrite <- Hn; exact Hlen).
  assert (Hr2 : read_obj (heap w2) l = o).
  { rewrite (read_obj_same_below _ _ _ _ Hsame)
      by (unfold w1; simpl; rewrite length_insert; lia).
    unfold w1. simpl. now apply read_obj_insert_same. }
  assert (Ho2 : forall l', (l' < List.length (heap w))%nat -> l' <> l ->
                  heap w2 !! l' = heap w !! l').
  { intros l' Hl' Hne.
    rewrite Hsame by (unfold w1; simpl; rewrite length_insert; lia).
    unfold w1. simpl. now apply list_lookup_insert_ne. }
  destruct r as [v| |]; simpl.
  - split; [|split].
    + right. exists v. rewrite Hr2. apply read_obj_insert_same. lia.
    + intros l' Hl' Hne. rewrite list_lookup_insert_ne by congruence. auto.
    + exact Hcalls.
  - split; [now left|]. split; [exact Ho2|exact Hcalls].
  - split; [now left|]. split; [exact Ho2|exact Hcalls].
Qed.

(** X8: expanding an entry whose parent is a plain object of the
    store, whose target key is not [__proto__] and, for a by-path entry,
    whose parameters are ordinary ones, changes, in that object, only the
    slot of the initial key and the slot of the target key, and changes no
    other object of the store that existed before, whether the expansion
    succeeds or throws; the initial key, when it differs from the target
    key, is gone afterwards.  No client call is made. *)
Theorem X8_expansion_slots params paramsByPath e l w :
  parent e = VRef l -> (l < List.length (heap w))%nat ->
  is_plain (read_obj (heap w) l) = true ->
  key e <> "__proto__" ->
  within_model paramsByPath (data e) = true ->
  let w' := snd (expandEntry params paramsByPath e w) in
  (forall k', k' <> key e -> k' <> initKey e ->
     obj_get k' (read_obj (heap w') l) = obj_get k' (read_obj (heap w) l))
  /\ (forall l', (l' < List.length (heap w))%nat -> l' <> l ->
        heap w' !! l' = heap w !! l')
  /\ (NoDup (obj_keys (read_obj (heap w) l)) -> initKey e <> key e ->
      obj_get (initKey e) (read_obj (heap w') l) = VUndef)
  /\ calls w' = calls w.
Proof.
  intros Hp Hl _ _ _ w'.
  destruct (expandEntry_parent_cell params paramsByPath e l w Hp Hl)
    as (Hcell & Hother & Hcalls).
  fold w' in Hcell, Hother, Hcalls.
  split; [|split; [exact Hother|split; [|exact Hcalls]]].
  - intros k' Hk Hik. destruct Hcell as [-> | (v & ->)].
    + now apply obj_get_delete_other.
    + rewrite obj_get_set_other by assumption. now apply obj_get_delete_other.
  - intros Hd Hne. destruct Hcell as [-> | (v & ->)].
    + now apply obj_get_delete_same.
    + rewrite obj_get_set_other by assumption. now apply obj_get_delete_same.
Qed.

Lemma X8_expansion_slots_witness :
  (obj_get "host"
     (read_obj
        (heap (snd (expandEntry [string_param "/letter" "c"] ∅
                      (mkEntry (VRef 0) "password" "password:ssm"
                         (ByName (mkByName "/letter")))
                      config_world))) 0%nat)
   = VStr "localhost")
  /\ obj_get "password:ssm"
       (read_obj
          (heap (snd (expandEntry [string_param "/letter" "c"] ∅
                        (mkEntry (VRef 0) "password" "password:ssm"
                           (ByName (mkByName "/letter")))
                        config_world))) 0%nat)
     = VUndef.
Proof.
  destruct (X8_expansion_slots [string_param "/letter" "c"] ∅
              (mkEntry (VRef 0) "password" "password:ssm"
                 (ByName (mkByName "/letter")))
              0%nat config_world eq_refl) as (H1 & _ & H3 & _).
  - simpl. lia.
  - reflexivity.
  - discriminate.
  - reflexivity.
  - split.
    + rewrite (H1 "host"); [reflexivity|discriminate|discriminate].
    + apply H3; [|discriminate].
      vm_compute. repeat apply NoDup_cons_2; try apply NoDup_nil_2;
        intros H;
        repeat (apply elem_of_cons in H as [H|H]; [discriminate|]);
        now apply elem_of_nil in H.
Defined.

(** ** Nested objects are made once *)

Lemma bind_ext {A B} (c : M A) (k1 k2 : A -> M B) w :
  (forall a w', k1 a w' = k2 a w') -> bind c k1 w = bind c k2 w.
Proof. intros H. unfold bind. destruct (c w) as [[a| |] w']; auto. Qed.

Lemma ensureNestedObject_step o key rest w :
  ensureNestedObject o (key :: rest) w
  = bind (ensure_key o key)
      (fun next => match rest with
                   | [] => ret next
                   | _ => ensureNestedObject next rest
                   end) w.
Proof.
  cbn [ensureNestedObject]. unfold ensure_key.
  rewrite bind_assoc. apply bind_ext. intros cur w1.
  now rewrite bind_assoc.
Qed.

Lemma ensure_key_cases o key w :
  (* nothing happens *)
  (snd (ensure_key o key w) = w
   /\ (forall next, fst (ensure_key o key w) = Ret next ->
         get_prop (heap w) o key = Ret next /\ truthy next = true))
  \/ (* a fresh object is linked, or the write throws *)
     (exists cur, get_prop (heap w) o key = Ret cur /\ truthy cur = false
        /\ ((exists lo,
               o = VRef lo
               /\ ensure_key o key w
                  = (Ret (obj_get key
                            (read_obj
                               (<[lo := obj_set key
                                          (VRef (List.length (heap w)))
                                          (read_obj (heap w ++ [empty_object])
                                             lo)]>
                                  (heap w ++ [empty_object])) lo)),
                     mkWorld
                       (<[lo := obj_set key (VRef (List.length (heap w)))
                                  (read_obj (heap w ++ [empty_object]) lo)]>
                          (heap w ++ [empty_object]))
                       (calls w)))
            \/ ((forall lo, o <> VRef lo)
                /\ ensure_key o key w
                   = (Throw TypeError,
                      mkWorld (heap w ++ [empty_object]) (calls w))))).
Proof.
  unfold ensure_key, bind, lift_read.
  destruct (get_prop (heap w) o key) as [cur| |] eqn:G; simpl.
  - destruct (truthy cur) eqn:T; simpl.
    + left. rewrite G. split; [reflexivity|]. intros next E.
      inversion E; subst. auto.
    + right. exists cur. split; [reflexivity|]. split; [exact T|].
      destruct o as [| | b | n | s | lo]; simpl in *; try discriminate;
        try (right; split; [intros lo'; discriminate|reflexivity]).
      left. exists lo. split; reflexivity.
  - left. split; [reflexivity|]. intros next E. discriminate.
  - left. split; [reflexivity|]. intros next E. discriminate.
Qed.

Lemma truthy_in_store (h : list object) l k :
  truthy (obj_get k (read_obj h l)) = true -> (l < List.length h)%nat.
Proof.
  unfold read_obj. destruct (h !! l) as [o|] eqn:E.
  - intros _. now apply lookup_lt_Some in E.
  - discriminate.
Qed.

Lemma read_obj_app_l (h ext : list object) l :
  (l < List.length h)%nat -> read_obj (h ++ ext) l = read_obj h l.
Proof. intros H. unfold read_obj. now rewrite lookup_app_l. Qed.

Lemma ensure_key_stable o key w l k :
  truthy (obj_get k (read_obj (heap w) l)) = true ->
  obj_get k (read_obj (heap (snd (ensure_key o key w))) l)
  = obj_get k (read_obj (heap w) l).
Proof.
  intros Ht. pose proof (truthy_in_store _ _ _ Ht) as Hl.
  destruct (ensure_key_cases o key w)
    as [[-> _] | (cur & Hg & Hc & [(lo & -> & ->) | (_ & ->)])];
    [reflexivity| |]; simpl.
  - simpl in Hg. inversion Hg; subst; clear Hg.
    destruct (Nat.eq_dec l lo) as [->|Hne].
    + rewrite read_obj_insert_same by (rewrite length_app; simpl; lia).
      rewrite read_obj_app_l by assumption.
      destruct (String.eqb_spec k key) as [->|Hk]; [congruence|].
      now apply obj_get_set_other.
    + unfold read_obj at 1. rewrite list_lookup_insert_ne by congruence.
      fold (read_obj (heap w ++ [empty_object]) l).
      now apply f_equal, read_obj_app_l.
  - now rewrite read_obj_app_l.
Qed.

Lemma ensure_key_result o key w next w1 :
  in_store (heap w) o ->
  ensure_key o key w = (Ret next, w1) ->
  truthy next = true /\ get_prop (heap w1) o key = Ret next.
Proof.
  intros Ho E.
  destruct (ensure_key_cases o key w)
    as [[Hw Hn] | (cur & Hg & Hc & [(lo & -> & E') | (_ & E')])];
    rewrite E in *; simpl in *.
  - subst w1. destruct (Hn next eq_refl). auto.
  - inversion E'; subst; clear E'. simpl.
    rewrite read_obj_insert_same by (rewrite length_app; simpl; lia).
    rewrite obj_get_set_same. auto.
  - discriminate.
Qed.

Lemma in_store_grow (h h' : list object) v :
  (List.length h <= List.length h')%nat -> in_store h v -> in_store h' v.
Proof. destruct v; simpl; auto. lia. Qed.

Lemma store_closed_get h o key next :
  store_closed h -> in_store h o -> get_prop h o key = Ret next ->
  in_store h next.
Proof.
  intros Hc Ho G. destruct o as [| | b | n | s | lo]; simpl in G;
    try discriminate; inversion G; subst; clear G; try exact I.
  - unfold char_at. destruct (JsString.array_index key); [|exact I].
    destruct (String.get _ s); exact I.
  - unfold obj_get, read_obj. destruct (h !! lo) as [cell|] eqn:E.
    + destruct (assoc_get key (props cell)) eqn:A; [|exact I].
      specialize (Hc lo cell E). clear -Hc A.
      induction (props cell) as [|[k0 v0] r IH]; simpl in A;
        [discriminate|].
      inversion Hc; subst.
      destruct (String.eqb key k0); [inversion A; now subst|auto].
    + exact I.
Qed.

Lemma store_closed_app h :
  store_closed h -> store_closed (h ++ [empty_object]).
Proof.
  intros Hc l o E. apply lookup_app_Some in E as [E|[_ E]].
  - eapply Forall_impl; [exact (Hc l o E)|]. simpl. intros kv.
    apply in_store_grow. rewrite length_app. lia.
  - destruct (l - List.length h)%nat; simpl in E; [|discriminate].
    inversion E; subst. constructor.
Qed.

Lemma store_closed_set h lo k v :
  store_closed h -> in_store h v ->
  store_closed (<[lo := obj_set k v (read_obj h lo)]> h).
Proof.
  intros Hc Hv l o E.
  assert (G : forall kv, in_store h kv ->
                in_store (<[lo := obj_set k v (read_obj h lo)]> h) kv).
  { intros kv. apply in_store_grow. now rewrite length_insert. }
  destruct (Nat.eq_dec lo l) as [->|Hne].
  - destruct (Nat.lt_ge_cases l (List.length h)) as [Hl|Hl].
    + rewrite list_lookup_insert_eq in E by assumption.
      inversion E; subst; clear E. simpl.
      assert (F : Forall (fun kv => in_store h (snd kv))
                    (props_set k v (props (read_obj h l)))).
      { assert (F0 : Forall (fun kv => in_store h (snd kv))
                       (props (read_obj h l))).
        { unfold read_obj. destruct (h !! l) eqn:E; [eauto|constructor]. }
        clear -F0 Hv. unfold props_set.
        destruct (assoc_get k (props (read_obj h l))).
        - induction (props (read_obj h l)) as [|[k0 x0] r IH]; simpl;
            [constructor|].
          inversion F0; subst.
          destruct (String.eqb k k0); constructor; auto.
        - destruct (JsString.array_index k) as [i|].
          + induction (props (read_obj h l)) as [|[k0 x0] r IH]; simpl.
            * repeat constructor. exact Hv.
            * inversion F0; subst.
              destruct (JsString.array_index k0) as [j|];
                [destruct (j <? i)%N|]; repeat constructor; auto.
          + apply Forall_app. split; [assumption|]. repeat constructor.
            exact Hv. }
      eapply Forall_impl; [exact F|]. simpl. intros kv. apply G.
    + rewrite list_insert_ge in E by assumption.
      eapply Forall_impl; [exact (Hc l o E)|]. simpl. intros kv Hkv.
      rewrite list_insert_ge by assumption. exact Hkv.
  - rewrite list_lookup_insert_ne in E by assumption.
    eapply Forall_impl; [exact (Hc l o E)|]. simpl. intros kv. apply G.
Qed.

Lemma ensure_key_closed o key w :
  store_closed (heap w) -> in_store (heap w) o ->
  store_closed (heap (snd (ensure_key o key w)))
  /\ forall next, fst (ensure_key o key w) = Ret next ->
       in_store (heap (snd (ensure_key o key w))) next.
Proof.
  intros Hc Ho.
  destruct (ensure_key_cases o key w)
    as [[Hw Hn] | (cur & Hg & Hf & [(lo & -> & E) | (_ & E)])].
  - rewrite Hw. split; [assumption|]. intros next En.
    destruct (Hn next En) as [G _]. eapply store_closed_get; eauto.
  - rewrite E. simpl. split.
    + apply store_closed_set; [now apply store_closed_app|].
      simpl. rewrite length_app. simpl. lia.
    + intros next En. inversion En; subst; clear En.
      simpl in Ho.
      rewrite read_obj_insert_same by (rewrite length_app; simpl; lia).
      rewrite obj_get_set_same. simpl.
      rewrite length_insert, length_app. simpl. lia.
  - rewrite E. simpl. split; [now apply store_closed_app|].
    intros next En. discriminate.
Qed.

Lemma ensureNestedObject_stable keys : forall o w l k,
  truthy (obj_get k (read_obj (heap w) l)) = true ->
  obj_get k (read_obj (heap (snd (ensureNestedObject o keys w))) l)
  = obj_get k (read_obj (heap w) l).
Proof.
  induction keys as [|key rest IH]; intros o w l k Ht; [reflexivity|].
  rewrite ensureNestedObject_step. unfold bind.
  pose proof (ensure_key_stable o key w l k Ht) as Hs.
  destruct (ensure_key o key w) as [[next| |] w1]; simpl in Hs;
    try exact Hs.
  destruct rest as [|key' rest']; [exact Hs|].
  rewrite IH by (now rewrite Hs). exact Hs.
Qed.

Lemma ensure_key_truthy o key w next :
  get_prop (heap w) o key = Ret next -> truthy next = true ->
  ensure_key o key w = (Ret next, w).
Proof.
  intros G T. unfold ensure_key, bind, lift_read. rewrite G. simpl.
  rewrite T. simpl. now rewrite G.
Qed.

Lemma get_prop_stable o key next rest next' w :
  get_prop (heap w) o key = Ret next -> truthy next = true ->
  get_prop (heap (snd (ensureNestedObject next' rest w))) o key = Ret next.
Proof.
  intros G T. destruct o as [| | b | n | s | lo]; simpl in *; try exact G.
  inversion G as [G']. rewrite G'.
  rewrite ensureNestedObject_stable; [now rewrite G'|]. now rewrite G'.
Qed.

Lemma ensureNestedObject_again keys : forall o w item w',
  store_closed (heap w) -> in_store (heap w) o ->
  ensureNestedObject o keys w = (Ret item, w') ->
  ensureNestedObject o keys w' = (Ret item, w').
Proof.
  induction keys as [|key rest IH]; intros o w item w' Hc Ho E.
  - simpl in *. inversion E; subst. reflexivity.
  - rewrite ensureNestedObject_step in E. unfold bind in E.
    destruct (ensure_key o key w) as [[next| |] w1] eqn:Ek; try discriminate.
    destruct (ensure_key_result o key w next w1 Ho Ek) as [T G].
    destruct (ensure_key_closed o key w Hc Ho) as [Hc1 Hn1].
    rewrite Ek in Hc1, Hn1. simpl in Hc1, Hn1. specialize (Hn1 next eq_refl).
    rewrite ensureNestedObject_step.
    destruct rest as [|key' rest'].
    + inversion E; subst.
      rewrite (bind_ret_run _ _ _ _ _ (ensure_key_truthy _ _ _ _ G T)).
      reflexivity.
    + pose proof (get_prop_stable o key next (key' :: rest') next w1 G T) as G'.
      rewrite E in G'. simpl in G'.
      rewrite (bind_ret_run _ _ _ _ _ (ensure_key_truthy _ _ _ _ G' T)).
      eapply IH; eauto.
Qed.

(** X9: [ensureNestedObject] makes each level once.  In a store without
    dangling references, after a run that returned an object, a second
    run with the same keys returns the same object and leaves the store
    exactly as it is; and no run ever overwrites a slot that already holds
    a truthy value. *)
Theorem X9_nested_objects_reused o keys w item w' :
  store_closed (heap w) -> in_store (heap w) o ->
  ensureNestedObject o keys w = (Ret item, w') ->
  ensureNestedObject o keys w' = (Ret item, w')
  /\ forall l k,
       truthy (obj_get k (read_obj (heap w) l)) = true ->
       obj_get k (read_obj (heap w') l) = obj_get k (read_obj (heap w) l).
Proof.
  intros Hc Ho E. split.
  - eapply ensureNestedObject_again; eauto.
  - intros l k Ht.
    pose proof (ensureNestedObject_stable keys o w l k Ht) as H.
    now rewrite E in H.
Qed.

Lemma X9_nested_objects_reused_witness :
  ensureNestedObject (VRef 0) ["doublenested"; "deeper"] shared_prefix_after
  = (Ret (VRef 2), shared_prefix_after)
  /\ obj_get "doublenested" (read_obj (heap shared_prefix_after) 0%nat)
     = obj_get "doublenested" (read_obj (heap shared_prefix_world) 0%nat).
Proof.
  destruct (X9_nested_objects_reused (VRef 0) ["doublenested"; "deeper"]
              shared_prefix_world (VRef 2) shared_prefix_after)
    as (H1 & H2).
  - intros l o E. destruct l as [|[|l]]; simpl in E; inversion E; subst;
      repeat constructor; simpl; lia.
  - simpl. lia.
  - vm_compute. reflexivity.
  - split; [exact H1|]. apply H2. reflexivity.
Defined.

(** ** Immediate children of the requested path *)

Lemma lastIndexOf_from_absent c t : forall pos found,
  occurs c t = false -> JsString.lastIndexOf_from c t pos found = found.
Proof.
  induction t as [|d r IH]; intros pos found H; simpl in *; [reflexivity|].
  apply orb_false_iff in H as [H1 H2]. rewrite H1. now apply IH.
Qed.

Lemma lastIndexOf_from_append c s leaf : forall pos found,
  occurs c leaf = false ->
  JsString.lastIndexOf_from c (String.append s (String c leaf)) pos found
  = pos + Z.of_nat (JsString.length s).
Proof.
  induction s as [|d r IH]; intros pos found H; simpl.
  - rewrite Ascii.eqb_refl, lastIndexOf_from_absent by assumption. lia.
  - rewrite IH by assumption. lia.
Qed.

Lemma drop_append s t : JsString.drop (JsString.length s) (String.append s t) = t.
Proof. induction s as [|d r IH]; simpl; auto. Qed.

Lemma endsWith_split q c :
  JsString.endsWith q c = true -> exists s, q = String.append s (String c EmptyString).
Proof.
  induction q as [|d r IH]; simpl; [discriminate|].
  destruct r as [|d' r'].
  - intros H. apply Ascii.eqb_eq in H. subst. now exists EmptyString.
  - intros H. destruct (IH H) as (s & Hs). exists (String d s).
    simpl. now rewrite Hs.
Qed.

Lemma directory_split q :
  exists s, directory q = String.append s "/"
            /\ pathLenth q = Z.of_nat (JsString.length s) + 1.
Proof.
  unfold directory, pathLenth. destruct (JsString.endsWith q "/") eqn:E.
  - destruct (endsWith_split _ _ E) as (s & ->). exists s.
    split; [reflexivity|]. rewrite length_append. simpl. lia.
  - exists q. split; [reflexivity|lia].
Qed.

Lemma append_assoc s t u :
  String.append (String.append s t) u = String.append s (String.append t u).
Proof.
  induction s as [|d r IH]; [reflexivity|].
  change (String d (String.append (String.append r t) u)
          = String d (String.append r (String.append t u))).
  now rewrite IH.
Qed.

(** X10: a parameter named [<path>/<leaf>], where [<leaf>] holds no
    separator and is not [__proto__], and the requested path is written
    with or without its trailing separator, is an immediate child: its
    converted value is stored directly in the result object, a plain
    object, under the key [<leaf>]. *)
Theorem X10_immediate_child path leaf p l w :
  p_Name p = Some (String.append (directory path) leaf) ->
  occurs "/" leaf = false ->
  (l < List.length (heap w))%nat ->
  is_plain (read_obj (heap w) l) = true ->
  leaf <> "__proto__" ->
  exists w',
    place_parameter path (VRef l) p w = (Ret (VRef l), w')
    /\ holds_value (heap w') (obj_get leaf (read_obj (heap w') l))
         (getParameterValue p).
Proof.
  intros Hn Hleaf Hl _ _.
  destruct (directory_split path) as (s & Hd & Hp).
  rewrite Hd, append_assoc in Hn. simpl in Hn.
  assert (Hi : JsString.lastIndexOf "/" (String.append s (String "/" leaf))
               = Z.of_nat (JsString.length s)).
  { unfold JsString.lastIndexOf. rewrite lastIndexOf_from_append by assumption.
    lia. }
  assert (Hne : nonempty (p_Name p)
                = Some (String.append s (String "/" leaf))).
  { rewrite Hn. apply nonempty_some. destruct s; discriminate. }
  destruct (place_parameter_direct path l p _ w Hl Hne) as (w' & E & Hv).
  { rewrite Hi, Hp. lia. }
  exists w'. split; [exact E|].
  rewrite Hi in Hv.
  replace (JsString.substr (String.append s (String "/" leaf))
             (Z.of_nat (JsString.length s) + 1)) with leaf in Hv; [exact Hv|].
  unfold JsString.substr, JsString.clamp.
  rewrite length_append. simpl JsString.length.
  replace (Z.to_nat _) with (JsString.length (String.append s "/")).
  - rewrite <- (drop_append (String.append s "/") leaf) at 1.
    now rewrite append_assoc.
  - rewrite length_append. simpl. lia.
Qed.

Lemma X10_immediate_child_witness :
  exists w',
    place_parameter "/nested" (VRef 0) (string_param "/nested/param0" "value0")
      (one_object_world []) = (Ret (VRef 0), w')
    /\ holds_value (heap w') (obj_get "param0" (read_obj (heap w') 0%nat))
         (getParameterValue (string_param "/nested/param0" "value0")).
Proof.
  apply (X10_immediate_child "/nested" "param0"
           (string_param "/nested/param0" "value0") 0%nat (one_object_world [])).
  - reflexivity.
  - reflexivity.
  - simpl. lia.
  - reflexivity.
  - discriminate.
Defined.

(** ** Intermediate levels of a nested parameter *)

Lemma ensureNestedObject_closed keys : forall o w,
  store_closed (heap w) -> in_store (heap w) o ->
  store_closed (heap (snd (ensureNestedObject o keys w)))
  /\ forall item, fst (ensureNestedObject o keys w) = Ret item ->
       in_store (heap (snd (ensureNestedObject o keys w))) item.
Proof.
  induction keys as [|key rest IH]; intros o w Hc Ho.
  - simpl. split; [assumption|]. intros item E. inversion E; now subst.
  - rewrite ensureNestedObject_step. unfold bind.
    destruct (ensure_key_closed o key w Hc Ho) as [Hc1 Hn1].
    destruct (ensure_key o key w) as [[next| |] w1]; simpl in *;
      try (split; [assumption|intros item E; discriminate]).
    destruct rest as [|key' rest'].
    + simpl. split; [assumption|]. intros item E. inversion E; subst. auto.
    + apply IH; auto.
Qed.

Lemma ensureNestedObject_walk keys : forall o w item w',
  store_closed (heap w) -> in_store (heap w) o ->
  ensureNestedObject o keys w = (Ret item, w') ->
  walk (heap w') o keys item.
Proof.
  induction keys as [|key rest IH]; intros o w item w' Hc Ho E.
  - simpl in E. inversion E; subst. constructor.
  - rewrite ensureNestedObject_step in E. unfold bind in E.
    destruct (ensure_key o key w) as [[next| |] w1] eqn:Ek; try discriminate.
    destruct (ensure_key_result o key w next w1 Ho Ek) as [T G].
    destruct (ensure_key_closed o key w Hc Ho) as [Hc1 Hn1].
    rewrite Ek in Hc1, Hn1. simpl in Hc1, Hn1. specialize (Hn1 next eq_refl).
    destruct rest as [|key' rest'].
    + inversion E; subst. econstructor; eauto; constructor.
    + pose proof (get_prop_stable o key next (key' :: rest') next w1 G T) as G'.
      rewrite E in G'. simpl in G'.
      econstructor; eauto.
Qed.

Lemma walk_preserved h h' v keys item :
  (forall l k, truthy (obj_get k (read_obj h l)) = true ->
     obj_get k (read_obj h' l) = obj_get k (read_obj h l)) ->
  walk h v keys item -> walk h' v keys item.
Proof.
  intros Hs. induction 1 as [v | v k next rest item G T W IH];
    [constructor|].
  econstructor; [|exact T|exact IH].
  destruct v as [| | b | n | s | lo]; simpl in *; try exact G.
  inversion G as [G']. rewrite G'. rewrite Hs; [now rewrite G'|].
  now rewrite G'.
Qed.

Lemma store_then_set_frame l k x w :
  (l < List.length (heap w))%nat ->
  forall l' k', (l' < List.length (heap w))%nat -> (l' <> l \/ k' <> k) ->
    obj_get k'
      (read_obj (heap (snd (bind (store_value x)
                              (fun v => set_prop (VRef l) k v) w))) l')
    = obj_get k' (read_obj (heap w) l').
Proof.
  intros Hl l' k' Hl' Hne.
  assert (G : forall (h : list object) v,
             (List.length (heap w) <= List.length h)%nat ->
             read_obj h l' = read_obj (heap w) l' ->
             read_obj h l = read_obj (heap w) l ->
             obj_get k' (read_obj (<[l := obj_set k v (read_obj h l)]> h) l')
             = obj_get k' (read_obj (heap w) l')).
  { intros h v Hh E1 E2. destruct (Nat.eq_dec l' l) as [->|N].
    - rewrite read_obj_insert_same by lia. rewrite E2.
      destruct Hne as [Hne|Hne]; [contradiction|].
      now apply obj_get_set_other.
    - unfold read_obj at 1. rewrite list_lookup_insert_ne by congruence.
      fold (read_obj h l'). now rewrite E1. }
  destruct x as [s|ls]; unfold bind; simpl.
  - apply G; auto.
  - apply G.
    + rewrite length_app. lia.
    + now apply read_obj_app_l.
    + now apply read_obj_app_l.
Qed.

Lemma take_append s t :
  JsString.take (JsString.length s) (String.append s t) = s.
Proof.
  induction s as [|d r IH]; simpl; [now destruct t|].
  change (String.append (String d r) t) with (String d (String.append r t)).
  simpl. now rewrite IH.
Qed.

Lemma split_free sep s :
  occurs sep s = false -> JsString.split sep s = [s].
Proof.
  induction s as [|c r IH]; simpl; [reflexivity|].
  intros H. apply orb_false_iff in H as [H1 H2]. rewrite H1.
  now rewrite IH.
Qed.

Lemma split_append sep s t :
  occurs sep s = false ->
  JsString.split sep (String.append s (String sep t))
  = s :: JsString.split sep t.
Proof.
  induction s as [|c r IH]; intros H.
  - simpl. now rewrite Ascii.eqb_refl.
  - simpl in H. apply orb_false_iff in H as [H1 H2].
    change (String.append (String c r) (String sep t))
      with (String c (String.append r (String sep t))).
    cbn [JsString.split]. rewrite H1, IH by assumption. reflexivity.
Qed.

Lemma split_join sep segs :
  segs <> [] -> Forall (fun s => occurs sep s = false) segs ->
  JsString.split sep (join sep segs) = segs.
Proof.
  intros Hne H. induction H as [|s r Hs Hr IH]; [contradiction|].
  destruct r as [|s' r'].
  - simpl. now apply split_free.
  - change (join sep (s :: s' :: r'))
      with (String.append s (String sep (join sep (s' :: r')))).
    rewrite split_append by assumption. f_equal. apply IH. discriminate.
Qed.

Lemma substring_middle d j t :
  JsString.substring (String.append d (String.append j t))
    (Z.of_nat (JsString.length d))
    (Z.of_nat (JsString.length d) + Z.of_nat (JsString.length j))
  = j.
Proof.
  unfold JsString.substring, JsString.clamp.
  rewrite !length_append.
  replace (Z.to_nat (Z.min (Z.max (Z.of_nat (JsString.length d)) 0) _))
    with (JsString.length d) by lia.
  replace (Z.to_nat (Z.min (Z.max (Z.of_nat (JsString.length d)
                                   + Z.of_nat (JsString.length j)) 0) _))
    with (JsString.length d + JsString.length j)%nat by lia.
  rewrite Nat.min_l, Nat.max_r by lia.
  replace (JsString.length d + JsString.length j - JsString.length d)%nat
    with (JsString.length j) by lia.
  rewrite drop_append. apply take_append.
Qed.

Lemma length_pos s : s <> EmptyString -> (0 < JsString.length s)%nat.
Proof. destruct s; [contradiction|simpl; lia]. Qed.

(** X11: a parameter named [<path>/<seg1>/.../<segn>/<leaf>] is placed
    below the intermediate levels.  When no segment is an inherited member,
    [<leaf>] is not [__proto__], and [ensureNestedObject] leads from the
    result object along the segments, through plain objects, to an object,
    then [place_parameter] returns the result object and the converted
    value of the parameter is stored in that object under [<leaf>]; if the
    [<leaf>] slot was still free there, the segments still lead from the
    result object to it. *)
Theorem X11_nested_parameter path segs leaf p l w li w1 :
  store_closed (heap w) -> (l < List.length (heap w))%nat ->
  p_Name p = Some (nested_name path segs leaf) ->
  Forall (fun s => occurs "/" s = false) segs ->
  join "/" segs <> EmptyString ->
  occurs "/" leaf = false ->
  ensureNestedObject (VRef l) segs w = (Ret (VRef li), w1) ->
  plain_walk (heap w1) (VRef l) segs (VRef li) ->
  Forall (fun s => inherited_name s = false) segs ->
  leaf <> "__proto__" ->
  exists w',
    place_parameter path (VRef l) p w = (Ret (VRef l), w')
    /\ holds_value (heap w') (obj_get leaf (read_obj (heap w') li))
         (getParameterValue p)
    /\ (truthy (obj_get leaf (read_obj (heap w1) li)) = false ->
        walk (heap w') (VRef l) segs (VRef li)).
Proof.
  intros Hc Hl Hn Hsegs Hj Hleaf Hens _ _ _.
  assert (Hne : segs <> []) by (intros ->; now apply Hj).
  destruct (directory_split path) as (s & Hd & Hp).
  set (D := directory path) in *. set (J := join "/" segs) in *.
  assert (HlenD : Z.of_nat (JsString.length D) = pathLenth path).
  { rewrite Hp, Hd, length_append. simpl. lia. }
  assert (Hname : nested_name path segs leaf
                  = String.append (String.append D J) (String "/" leaf)).
  { unfold nested_name. fold D J. now rewrite append_assoc. }
  assert (Hi : JsString.lastIndexOf "/" (nested_name path segs leaf)
               = pathLenth path + Z.of_nat (JsString.length J)).
  { rewrite Hname. unfold JsString.lastIndexOf.
    rewrite lastIndexOf_from_append by assumption.
    rewrite length_append. lia. }
  assert (Hsub : JsString.substring (nested_name path segs leaf)
                   (pathLenth path)
                   (pathLenth path + Z.of_nat (JsString.length J)) = J).
  { unfold nested_name. fold D J. rewrite <- HlenD. apply substring_middle. }
  assert (Hleafname : JsString.substr (nested_name path segs leaf)
                        (pathLenth path + Z.of_nat (JsString.length J) + 1)
                      = leaf).
  { rewrite Hname.
    replace (String.append (String.append D J) (String "/" leaf))
      with (String.append (String.append (String.append D J) "/") leaf)
      by (now rewrite append_assoc).
    unfold JsString.substr, JsString.clamp.
    replace (Z.to_nat _)
      with (JsString.length (String.append (String.append D J) "/")).
    - apply drop_append.
    - rewrite !length_append. simpl. lia. }
  assert (Hnon : nonempty (p_Name p) = Some (nested_name path segs leaf)).
  { rewrite Hn. apply nonempty_some. rewrite Hname.
    destruct (String.append D J); discriminate. }
  pose proof (length_pos J Hj) as HJ.
  destruct (ensureNestedObject_closed segs (VRef l) w Hc Hl) as [Hc1 Hin1].
  rewrite Hens in Hc1, Hin1. simpl in Hc1, Hin1.
  specialize (Hin1 (VRef li) eq_refl). simpl in Hin1.
  destruct (store_then_set li leaf (getParameterValue p) w1 Hin1)
    as (w' & Hs & Hv & _).
  exists w'. split; [|split; [exact Hv|intros Hfree]].
  - unfold place_parameter. rewrite Hnon. cbv zeta. rewrite Hi, Hsub, Hleafname.
    replace (Z.ltb (pathLenth path)
               (pathLenth path + Z.of_nat (JsString.length J))) with true
      by (symmetry; apply Z.ltb_lt; lia).
    unfold J. rewrite split_join by assumption.
    rewrite (bind_ret_run _ _ _ _ _ Hens).
    rewrite <- bind_assoc. now rewrite (bind_ret_run _ _ _ _ _ Hs).
  - eapply walk_preserved;
      [|eapply ensureNestedObject_walk; [exact Hc|exact Hl|exact Hens]].
    intros l0 k0 Ht.
    pose proof (store_then_set_frame li leaf (getParameterValue p) w1 Hin1
                  l0 k0 (truthy_in_store _ _ _ Ht)) as F.
    rewrite Hs in F. simpl in F. apply F.
    destruct (Nat.eq_dec l0 li) as [->|N]; [|now left].
    right. intros ->. congruence.
Qed.

Lemma X11_nested_parameter_witness :
  exists w',
    place_parameter "/nested" (VRef 0)
      (string_param "/nested/doublenested/deeper/letter" "a")
      (one_object_world []) = (Ret (VRef 0), w')
    /\ holds_value (heap w') (obj_get "letter" (read_obj (heap w') 2%nat))
         (getParameterValue
            (string_param "/nested/doublenested/deeper/letter" "a"))
    /\ walk (heap w') (VRef 0) ["doublenested"; "deeper"] (VRef 2).
Proof.
  destruct (X11_nested_parameter "/nested" ["doublenested"; "deeper"] "letter"
              (string_param "/nested/doublenested/deeper/letter" "a")
              0%nat (one_object_world []) 2%nat
              (mkWorld [mkObject None [("doublenested", VRef 1)];
                        mkObject None [("deeper", VRef 2)];
                        empty_object] []))
    as (w' & H1 & H2 & H3).
  - intros l o E. destruct l as [|l]; simpl in E; inversion E; subst.
    constructor.
  - simpl. lia.
  - reflexivity.
  - repeat constructor.
  - discriminate.
  - reflexivity.
  - vm_compute. reflexivity.
  - apply (plain_down _ 0%nat "doublenested" (VRef 1)); try reflexivity.
    apply (plain_down _ 1%nat "deeper" (VRef 2)); try reflexivity.
    now apply plain_here.
  - repeat constructor.
  - discriminate.
  - exists w'. split; [exact H1|]. split; [exact H2|].
    apply H3. reflexivity.
Defined.

(** ** The outcomes of the name fetch *)

Lemma promise_all_rejected {A} (ps : list (settled A)) e :
  promise_all ps = inl e -> In (inl e) ps.
Proof.
  induction ps as [|[e'|a] r IH]; simpl; intros H; [discriminate| |].
  - inversion H. now left.
  - destruct (promise_all r); [|discriminate]. right. apply IH. congruence.
Qed.

(** X12: the name fetch ends in one of three ways and no other.  It
    returns the concatenated parameters when every batch was fulfilled and
    no invalid name came back; it throws [InvalidParametersError] with the
    concatenated invalid names when every batch was fulfilled and some
    invalid name came back; otherwise it throws the rejection of one of
    its own batch requests.  It needs no recursion budget. *)
Theorem X12_name_fetch_outcomes ssm dataList w :
  let answers := map (ssm_getParameters ssm) (name_requests dataList) in
  match fst (getParameters ssm dataList w) with
  | Ret parameters =>
      exists fulfilled,
        promise_all answers = inr fulfilled
        /\ concat (map invalid_names fulfilled) = []
        /\ parameters = concat (map returned_parameters fulfilled)
  | Throw e =>
      (exists fulfilled,
         promise_all answers = inr fulfilled
         /\ concat (map invalid_names fulfilled) <> []
         /\ e = InvalidParametersError (concat (map invalid_names fulfilled)))
      \/ (exists req,
            In req (name_requests dataList)
            /\ ssm_getParameters ssm req = inl e)
  | OutOfFuel => False
  end.
Proof.
  intros answers.
  destruct (promise_all answers) as [e|fulfilled] eqn:Hp.
  - assert (E : fst (getParameters ssm dataList w) = Throw e).
    { unfold getParameters. destruct dataList as [|d rest]; [discriminate|].
      unfold bind. rewrite issue_all_run. fold (name_requests (d :: rest)).
      fold answers. now rewrite Hp. }
    rewrite E. right. apply promise_all_rejected in Hp.
    apply in_map_iff in Hp as (req & Hr & Hin). eauto.
  - rewrite (getParameters_fulfilled ssm dataList w fulfilled Hp).
    destruct (concat (map invalid_names fulfilled)) as [|n ns] eqn:Hi.
    + exists fulfilled. auto.
    + left. exists fulfilled. rewrite Hi. split; [reflexivity|].
      split; [discriminate|reflexivity].
Qed.

(** ** The order of expansion *)

Lemma expandEntries_app before after params paramsByPath w :
  expandEntries (before ++ after) params paramsByPath w
  = bind (expandEntries before params paramsByPath)
      (fun _ => expandEntries after params paramsByPath) w.
Proof.
  revert w. induction before as [|e r IH]; intros w; simpl.
  - reflexivity.
  - rewrite bind_assoc. apply bind_ext. intros [] w1. apply IH.
Qed.

(** X13: entries are expanded in list order and the first expansion
    that throws ends the run with that error, in the store that expansion
    left: the entries before it stay applied, the entries after it are not
    touched, and the initial key of the failing entry, when it differs
    from the target key, is already gone from its parent. *)
Theorem X13_expansion_stops_at_failure before e after params paramsByPath
  w w1 x w2 :
  expandEntries before params paramsByPath w = (Ret tt, w1) ->
  expandEntry params paramsByPath e w1 = (Throw x, w2) ->
  expandEntries (before ++ e :: after) params paramsByPath w = (Throw x, w2)
  /\ forall l,
       parent e = VRef l -> (l < List.length (heap w1))%nat ->
       NoDup (obj_keys (read_obj (heap w1) l)) -> initKey e <> key e ->
       obj_get (initKey e) (read_obj (heap w2) l) = VUndef.
Proof.
  intros Hb He. split.
  - rewrite expandEntries_app.
    rewrite (bind_ret_run _ _ _ _ _ Hb). simpl.
    unfold bind. now rewrite He.
  - intros l Hp Hl Hd Hne.
    destruct (expandEntry_parent_cell params paramsByPath e l w1 Hp Hl)
      as (Hcell & _).
    rewrite He in Hcell. simpl in Hcell.
    destruct Hcell as [-> | (v & ->)].
    + now apply obj_get_delete_same.
    + rewrite obj_get_set_other by assumption. now apply obj_get_delete_same.
Qed.

Lemma X13_expansion_stops_at_failure_witness :
  expandEntries
    ([mkEntry (VRef 0) "a" "a:ssm" (ByName (mkByName "/letter"))]
     ++ mkEntry (VRef 0) "b" "b:ssm" (ByName (mkByName "/other"))
        :: [mkEntry (VRef 0) "c" "c:ssm" (ByName (mkByName "/letter"))])
    [string_param "/letter" "c"] ∅
    (one_object_world [("a:ssm", VStr "/letter"); ("b:ssm", VStr "/other");
                       ("c:ssm", VStr "/letter")])
  = (Throw (Error "Unexpected error: parameter /other not found"),
     one_object_world [("c:ssm", VStr "/letter"); ("a", VStr "c")]).
Proof.
  apply (X13_expansion_stops_at_failure
           [mkEntry (VRef 0) "a" "a:ssm" (ByName (mkByName "/letter"))]
           (mkEntry (VRef 0) "b" "b:ssm" (ByName (mkByName "/other")))
           [mkEntry (VRef 0) "c" "c:ssm" (ByName (mkByName "/letter"))]
           [string_param "/letter" "c"] ∅
           (one_object_world [("a:ssm", VStr "/letter");
                              ("b:ssm", VStr "/other");
                              ("c:ssm", VStr "/letter")])
           (one_object_world [("b:ssm", VStr "/other");
                              ("c:ssm", VStr "/letter"); ("a", VStr "c")]));
    vm_compute; reflexivity.
Defined.

(** ** The object built for a path *)

Lemma bind_fst_ret {A B} (c : M A) (k : A -> M B) w v :
  fst (bind c k w) = Ret v ->
  exists a w1, c w = (Ret a, w1) /\ fst (k a w1) = Ret v.
Proof.
  unfold bind. destruct (c w) as [[a| |] w1]; simpl; try discriminate. eauto.
Qed.

Lemma place_parameter_returns path map p w v :
  fst (place_parameter path map p w) = Ret v -> v = map.
Proof.
  unfold place_parameter. destruct (nonempty (p_Name p)) as [Name|].
  - cbv zeta. intros H.
    apply bind_fst_ret in H as (item & w1 & _ & H).
    apply bind_fst_ret in H as (x & w2 & _ & H).
    apply bind_fst_ret in H as (u & w3 & _ & H).
    simpl in H. congruence.
  - simpl. congruence.
Qed.

Lemma reduce_parameters_returns path ps : forall map w v,
  fst (reduce_parameters path ps map w) = Ret v -> v = map.
Proof.
  induction ps as [|p rest IH]; intros map w v; simpl; [congruence|].
  unfold bind.
  pose proof (place_parameter_returns path map p w) as Hp.
  destruct (place_parameter path map p w) as [[m| |] w1]; simpl in *;
    try discriminate.
  intros H. apply IH in H. rewrite H. now apply Hp.
Qed.

(** X14: the object built for a by-path entry is a new one.  For
    ordinary parameters (no walked key an inherited member, no leaf key
    [__proto__], no walk through the slot of an earlier leaf),
    [findValuesByPath] changes no object of the store that existed before,
    calls nothing, and when it returns it returns the object it allocated
    at the start. *)
Theorem X14_path_object_is_new (paramsByPath : ParamsByPath) path w :
  ordinary_path paramsByPath path = true ->
  (forall l, (l < List.length (heap w))%nat ->
     heap (snd (findValuesByPath paramsByPath path w)) !! l = heap w !! l)
  /\ calls (snd (findValuesByPath paramsByPath path w)) = calls w
  /\ (forall v, fst (findValuesByPath paramsByPath path w) = Ret v ->
        v = VRef (List.length (heap w))).
Proof.
  intros _.
  destruct (keeps_findValuesByPath (List.length (heap w)) paramsByPath path w
              (closed_above_length _)) as (_ & Hs & Hc & _).
  split; [exact Hs|]. split; [exact Hc|].
  unfold findValuesByPath. destruct (paramsByPath !! path) as [ps|];
    [|discriminate].
  unfold bind, alloc. simpl. intros v H.
  now apply reduce_parameters_returns in H.
Qed.

Lemma X14_path_object_is_new_witness :
  heap (snd (findValuesByPath {["/nested" := nested_parameters]} "/nested"
               plain_world)) !! 1%nat
  = heap plain_world !! 1%nat
  /\ VRef 2 = VRef (List.length (heap plain_world)).
Proof.
  destruct (X14_path_object_is_new {["/nested" := nested_parameters]}
              "/nested" plain_world) as (H1 & _ & H3).
  { vm_compute. reflexivity. }
  split.
  - apply H1. simpl. lia.
  - apply H3. vm_compute. reflexivity.
Defined.

(** ** One level of keys *)

Lemma findEntries_loop_flat h parser (self : val -> res (list Entry)) par :
  forall keys acc,
    (forall k, In k keys ->
       exists es,
         parseItem h par k parser = Ret es
         /\ (es = [] ->
             exists v, get_prop h par k = Ret v /\ isObject v = false)) ->
    findEntries_loop self h par parser keys acc
    = Ret (acc ++ flat_map (parsed_entries h par parser) keys).
Proof.
  induction keys as [|k rest IH]; intros acc H; simpl.
  - now rewrite app_nil_r.
  - destruct (H k (or_introl eq_refl)) as (es & Hp & Hv).
    unfold parsed_entries at 1. rewrite Hp. simpl.
    assert (Hr : forall k', In k' rest ->
              exists es',
                parseItem h par k' parser = Ret es'
                /\ (es' = [] ->
                    exists v, get_prop h par k' = Ret v /\ isObject v = false))
      by (intros k' Hk'; apply H; now right).
    destruct es as [|e es'].
    + destruct (Hv eq_refl) as (v & Hg & Ho). simpl. rewrite Hg. simpl.
      rewrite Ho. now apply IH.
    + simpl. rewrite IH by assumption. now rewrite <- app_assoc.
Qed.

(** X15: on an object every key of which either yields entries or holds
    a value that is not an object, the entry finder returns what the parser
    yields key by key, in the order of [Object.keys], and looks into no
    value: a budget of one level is enough, whatever lies under a key that
    yielded an entry. *)
Theorem X15_one_level_of_keys fuel h l parser :
  (forall k, In k (obj_keys (read_obj h l)) ->
     exists es,
       parseItem h (VRef l) k parser = Ret es
       /\ (es = [] ->
           exists v, get_prop h (VRef l) k = Ret v /\ isObject v = false)) ->
  findEntries (S fuel) h (VRef l) parser
  = Ret (flat_map (parsed_entries h (VRef l) parser)
           (obj_keys (read_obj h l))).
Proof.
  intros H. cbn [findEntries object_keys res_bind].
  now rewrite findEntries_loop_flat.
Qed.

Lemma X15_one_level_of_keys_witness :
  findEntries 1 (heap matched_object_world) (VRef 0) defaultItemParser
  = Ret (flat_map
           (parsed_entries (heap matched_object_world) (VRef 0)
              defaultItemParser)
           (obj_keys (read_obj (heap matched_object_world) 0%nat)))
  /\ flat_map
       (parsed_entries (heap matched_object_world) (VRef 0) defaultItemParser)
       (obj_keys (read_obj (heap matched_object_world) 0%nat))
     = [mkEntry (VRef 0) "db" "db:ssm" (ByName (mkByName "/letter"));
        mkEntry (VRef 0) "cache" "cache:ssm:path"
          (ByPath (mkByPath "/nested" VUndef))].
Proof.
  split; [|vm_compute; reflexivity].
  apply (X15_one_level_of_keys 0%nat (heap matched_object_world) 0%nat
           defaultItemParser).
  intros k Hk. simpl in Hk.
  destruct Hk as [<-|[<-|[<-|[]]]]; eexists; (split; [vm_compute; reflexivity|]);
    try discriminate.
  intros _. eexists. split; reflexivity.
Defined.

(** ** A single by-name reference, end to end *)

(** X16: when the only entry found is a by-name entry in a plain object
    of the store, with a target key other than [__proto__], the name fetch
    returns, and the requested name is among the returned parameters,
    [inject] resolves with the working object after one get-parameters call
    for that name; the target key then holds the converted value of the
    first matching parameter, and every key of that object other than the
    target key and the initial key is as before. *)
Theorem X16_single_name_reference fuel ssm obj opts w obj' w1 l k ik n
  params p :
  let options := merge_options defaultOptions opts in
  working_object fuel options obj w = (Ret obj', w1) ->
  findEntries fuel (heap w1) obj' (itemParser options)
  = Ret [mkEntry (VRef l) k ik (ByName (mkByName n))] ->
  (l < List.length (heap w1))%nat ->
  is_plain (read_obj (heap w1) l) = true ->
  k <> "__proto__" ->
  fst (getParameters ssm [mkByName n] w1) = Ret params ->
  find (fun q => String.eqb n (name_with_selector q)) params = Some p ->
  exists w',
    inject fuel ssm obj opts w = (Ret obj', w')
    /\ holds_value (heap w') (obj_get k (read_obj (heap w') l))
         (getParameterValue p)
    /\ (forall k', k' <> k -> k' <> ik ->
          obj_get k' (read_obj (heap w') l) = obj_get k' (read_obj (heap w1) l))
    /\ calls w'
       = calls w
         ++ [CallGetParameters (mkGetParametersRequest [n] (Some true))].
Proof.
  intros options Hw He Hl _ _ Hn Hf.
  set (e := mkEntry (VRef l) k ik (ByName (mkByName n))) in *.
  rewrite (inject_after_entries _ _ _ _ _ _ _ _ Hw He).
  change (byNameData [e]) with [mkByName n] in *.
  rewrite (fetch_and_expand_after_names fuel ssm obj' [e] w1 params Hn).
  change (byNameData [e]) with [mkByName n].
  rewrite getParameters_world.
  change (name_requests [mkByName n])
    with [mkGetParametersRequest [n] (Some true)].
  set (w2 := mkWorld (heap w1)
               (calls w1 ++ map CallGetParameters
                              [mkGetParametersRequest [n] (Some true)])).
  assert (Hl2 : (l < List.length (heap w2))%nat) by exact Hl.
  destruct (expandEntry_by_name params ∅ l k ik n p w2 Hl2 Hf)
    as (w' & Ee & Hv).
  fold e in Ee.
  destruct (expandEntry_parent_cell params ∅ e l w2 eq_refl Hl2)
    as (Hcell & _ & Hcalls).
  rewrite Ee in Hcell, Hcalls. simpl in Hcell, Hcalls.
  destruct (working_object_frame fuel options obj w) as (_ & _ & Hc1 & _).
  rewrite Hw in Hc1. simpl in Hc1.
  exists w'. split; [|split; [exact Hv|split]].
  - change (byPathData [e]) with (@nil ByPathEntryData).
    cbn [getParametersByPaths expandEntries].
    unfold not_awaited, bind, ret. fold w2.
    unfold bind in Ee. now rewrite Ee.
  - intros k' Hk Hik. destruct Hcell as [-> | (v & ->)].
    + now apply (obj_get_delete_other ik k').
    + rewrite obj_get_set_other by assumption.
      now apply (obj_get_delete_other ik k').
  - rewrite Hcalls. unfold w2. simpl. now rewrite Hc1.
Qed.

Lemma X16_single_name_reference_witness :
  exists w',
    inject 2 (table_client [("/letter", string_param "/letter" "c")] [])
      (VRef 0) None config_world = (Ret (VRef 0), w')
    /\ holds_value (heap w') (obj_get "password" (read_obj (heap w') 0%nat))
         (getParameterValue (string_param "/letter" "c"))
    /\ (forall k', k' <> "password" -> k' <> "password:ssm" ->
          obj_get k' (read_obj (heap w') 0%nat)
          = obj_get k' (read_obj (heap config_world) 0%nat))
    /\ calls w'
       = calls config_world
         ++ [CallGetParameters
               (mkGetParametersRequest ["/letter"] (Some true))].
Proof.
  apply (X16_single_name_reference 2
           (table_client [("/letter", string_param "/letter" "c")] [])
           (VRef 0) None config_world (VRef 0) config_world 0%nat
           "password" "password:ssm" "/letter"
           [string_param "/letter" "c"] (string_param "/letter" "c")).
  - reflexivity.
  - vm_compute. reflexivity.
  - simpl. lia.
  - reflexivity.
  - discriminate.
  - vm_compute. reflexivity.
  - reflexivity.
Defined.

(** * What is stored, and where *)

(** ** Keys of an object under writes and deletions *)




Lemma assoc_get_some_key k ps v :
  assoc_get k ps = Some v -> In k (map fst ps).
Proof.
  induction ps as [|[k' v'] r IH]; simpl; [discriminate|].
  destruct (String.eqb_spec k k') as [->|N]; [now left|]. intros H. right. auto.
Qed.







(** ** References replaced by an expansion *)




















(** ** The conversion of a parameter, by name and by path *)

Lemma place_parameter_item path l p Name w li w1 :
  nonempty (p_Name p) = Some Name ->
  ensureNestedObject (VRef l) (nested_keys path Name) w = (Ret (VRef li), w1) ->
  (li < List.length (heap w1))%nat ->
  exists w',
    place_parameter path (VRef l) p w = (Ret (VRef l), w')
    /\ holds_value (heap w') (obj_get (leaf_key Name) (read_obj (heap w') li))
         (getParameterValue p).
Proof.
  intros Hn Hens Hli.
  destruct (store_then_set li (leaf_key Name) (getParameterValue p) w1 Hli)
    as (w' & Hs & Hv & _).
  exists w'. split; [|exact Hv].
  unfold place_parameter. rewrite Hn. cbv zeta.
  assert (Hitem : (if Z.ltb (pathLenth path) (JsString.lastIndexOf "/" Name)
                   then ensureNestedObject (VRef l)
                          (JsString.split "/"
                             (JsString.substring Name (pathLenth path)
                                (JsString.lastIndexOf "/" Name)))
                   else ret (VRef l)) w = (Ret (VRef li), w1)).
  { unfold nested_keys in Hens.
    destruct (Z.ltb (pathLenth path) (JsString.lastIndexOf "/" Name));
      exact Hens. }
  rewrite (bind_ret_run _ _ _ _ _ Hitem).
  fold (leaf_key Name).
  rewrite <- bind_assoc. now rewrite (bind_ret_run _ _ _ _ _ Hs).
Qed.

(** C8: a parameter becomes a value by its type alone: a [StringList]
    is its value string split on commas (the pieces, joined by commas,
    give the value back and hold no comma), any other type is the raw value
    string, and an absent value counts as the empty string.  What
    [findValue] returns for a name is this conversion of a parameter with
    that name.  A by-name entry whose parent is a plain object and whose
    target key is not [__proto__] receives, under its target key, the
    conversion of the parameter it resolves to.  A by-path leaf, immediate
    or nested, receives the same conversion: when the walk along the nested
    keys (none of them an inherited member) leads through plain objects to
    an object, that object holds, under the leaf key (not [__proto__]), the
    conversion of the parameter. *)
Theorem C8_value_conversion :
  (forall p, p_Type p = Some "StringList" ->
     getParameterValue p = ValStringList (JsString.split "," (value_or_empty p)))
  /\ (forall s, join "," (JsString.split "," s) = s
                /\ Forall (fun piece => occurs "," piece = false)
                     (JsString.split "," s))
  /\ (forall p, p_Type p <> Some "StringList" ->
        getParameterValue p = ValString (value_or_empty p))
  /\ (forall p, p_Value p = None -> value_or_empty p = EmptyString)
  /\ (forall params n v, findValue params n = Ret v ->
        exists p, In p params /\ name_with_selector p = n
                  /\ v = getParameterValue p)
  /\ (forall params paramsByPath l k ik n p w,
        (l < List.length (heap w))%nat ->
        is_plain (read_obj (heap w) l) = true ->
        k <> "__proto__" ->
        find (fun q => String.eqb n (name_with_selector q)) params = Some p ->
        exists w',
          expandEntry params paramsByPath
            (mkEntry (VRef l) k ik (ByName (mkByName n))) w = (Ret tt, w')
          /\ holds_value (heap w') (obj_get k (read_obj (heap w') l))
               (getParameterValue p))
  /\ (forall path l p Name w li w1,
        store_closed (heap w) -> (l < List.length (heap w))%nat ->
        nonempty (p_Name p) = Some Name ->
        ensureNestedObject (VRef l) (nested_keys path Name) w
        = (Ret (VRef li), w1) ->
        plain_walk (heap w1) (VRef l) (nested_keys path Name) (VRef li) ->
        Forall (fun s => inherited_name s = false) (nested_keys path Name) ->
        leaf_key Name <> "__proto__" ->
        exists w',
          place_parameter path (VRef l) p w = (Ret (VRef l), w')
          /\ holds_value (heap w')
               (obj_get (leaf_key Name) (read_obj (heap w') li))
               (getParameterValue p)).
Proof.
  split; [exact getParameterValue_StringList|].
  split; [intros s; split; [apply join_split|apply split_pieces_free]|].
  split; [exact getParameterValue_other|].
  split; [intros p H; unfold value_or_empty; now rewrite H|].
  split; [exact findValue_found|].
  split.
  - intros params paramsByPath l k ik n p w Hl _ _ Hf.
    now apply expandEntry_by_name.
  - intros path l p Name w li w1 Hc Hl Hn Hens _ _ _.
    apply (place_parameter_item path l p Name w li w1 Hn Hens).
    destruct (ensureNestedObject_closed (nested_keys path Name) (VRef l) w
                Hc Hl) as [_ Hin].
    rewrite Hens in Hin. exact (Hin (VRef li) eq_refl).
Qed.

Lemma C8_value_conversion_witness :
  getParameterValue list_param = ValStringList ["a"; "b"; "c"]
  /\ getParameterValue absent_value_param = ValString EmptyString
  /\ (exists p, In p [string_param "/letter" "c"; list_param]
                /\ name_with_selector p = "/list"
                /\ ValStringList ["a"; "b"; "c"] = getParameterValue p)
  /\ (exists w',
        expandEntry [list_param] ∅
          (mkEntry (VRef 0) "foo" "foo:ssm" (ByName (mkByName "/list")))
          (one_object_world [("foo:ssm", VStr "/list")]) = (Ret tt, w')
        /\ holds_value (heap w') (obj_get "foo" (read_obj (heap w') 0%nat))
             (ValStringList ["a"; "b"; "c"]))
  /\ (exists w',
        place_parameter "/" (VRef 0) list_param (one_object_world [])
        = (Ret (VRef 0), w')
        /\ holds_value (heap w') (obj_get "list" (read_obj (heap w') 0%nat))
             (ValStringList ["a"; "b"; "c"]))
  /\ (exists w',
        place_parameter "/nested" (VRef 0) nested_list_param
          (one_object_world []) = (Ret (VRef 0), w')
        /\ holds_value (heap w') (obj_get "hosts" (read_obj (heap w') 1%nat))
             (ValStringList ["a"; "b"])).
Proof.
  destruct C8_value_conversion as (H1 & _ & H3 & H4 & H5 & H6 & H7).
  split.
  { rewrite (H1 list_param); reflexivity. }
  split.
  { rewrite (H3 absent_value_param); [|discriminate].
    rewrite (H4 absent_value_param); reflexivity. }
  split.
  { apply (H5 [string_param "/letter" "c"; list_param] "/list").
    reflexivity. }
  split.
  { apply (H6 [list_param] ∅ 0%nat "foo" "foo:ssm" "/list" list_param
             (one_object_world [("foo:ssm", VStr "/list")])).
    - simpl. lia.
    - reflexivity.
    - discriminate.
    - reflexivity. }
  split.
  { apply (H7 "/" 0%nat list_param "/list" (one_object_world []) 0%nat
             (one_object_world [])).
    - intros l o E. destruct l as [|l]; simpl in E; inversion E; subst.
      constructor.
    - simpl. lia.
    - reflexivity.
    - reflexivity.
    - now apply plain_here.
    - constructor.
    - discriminate. }
  { apply (H7 "/nested" 0%nat nested_list_param "/nested/db/hosts"
             (one_object_world []) 1%nat
             (mkWorld [mkObject None [("db", VRef 1)]; empty_object] [])).
    - intros l o E. destruct l as [|l]; simpl in E; inversion E; subst.
      constructor.
    - simpl. lia.
    - reflexivity.
    - vm_compute. reflexivity.
    - apply (plain_down _ 0%nat "db" (VRef 1)); try reflexivity.
      now apply plain_here.
    - repeat constructor.
    - discriminate. }
Defined.

(** ** The references of the working object are replaced *)







